(** * Parallel PRD execution: scheduler, lock registry, failure policy and
      state manager, embedded from the Python sources.

    Part I gives the data model and the operations, one module per Python
    class.  Part II states and proves the properties.

    Conventions of the embedding:
    - a [datetime] is an integer time stamp ([Z]); [datetime.now()] is an
      explicit argument [now] of every operation that reads the clock;
    - an estimated time (a Python float) is a rational number, only its
      order is used;
    - a Python [dict] whose iteration order is observable is an association
      list in insertion order ([Dict]); a dict used only as a map is a
      [gmap]; a Python [set] is a duplicate-free list;
    - an exception is a value of a sum or option type. *)

From Stdlib Require Import ZArith QArith.
From Stdlib Require DecimalString DecimalZ DecimalPos.
From stdpp Require Import base option list gmap strings pretty fin_maps sorting.

Local Open Scope Z_scope.
Set Warnings "-clear-no-such-hyp".

Definition datetime := Z.

(** ** Insertion-ordered dictionaries with string keys *)

Module Dict.

Definition t (V : Type) := list (string * V).

Fixpoint get {V} (d : t V) (k : string) : option V :=
  match d with
  | [] => None
  | (k', v) :: d' => if decide (k' = k) then Some v else get d' k
  end.

(** [d[k] = v]: an existing key keeps its position. *)
Fixpoint set {V} (d : t V) (k : string) (v : V) : t V :=
  match d with
  | [] => [(k, v)]
  | (k', v') :: d' =>
      if decide (k' = k) then (k, v) :: d' else (k', v') :: set d' k v
  end.

Definition keys {V} (d : t V) : list string := d.*1.

Definition contains {V} (d : t V) (k : string) : bool :=
  bool_decide (is_Some (get d k)).

End Dict.

(** A Python set of strings: [add] keeps the first occurrence. *)
Definition set_add (x : string) (s : list string) : list string :=
  if decide (x ∈ s) then s else s ++ [x].

(** ** models/parallel_execution.py *)

Inductive LockType := SHARED | EXCLUSIVE.

#[global] Instance LockType_eq_dec : EqDecision LockType.
Proof. solve_decision. Defined.

Module PhaseInfo.
Record t := mk {
  id : string;
  name : string;
  dependencies : list string;
  outputs : list string;
  estimated_time : Q;
  description : string
}.
End PhaseInfo.

Module DependencyGraph.
Record t := mk {
  nodes : Dict.t PhaseInfo.t;
  edges : Dict.t (list string);
  reverse_edges : Dict.t (list string)
}.

Definition empty : t := mk [] [] [].

Definition ensure_key (d : Dict.t (list string)) (k : string) : Dict.t (list string) :=
  if Dict.contains d k then d else Dict.set d k [].

Definition add_to (d : Dict.t (list string)) (k x : string) : Dict.t (list string) :=
  Dict.set d k (set_add x (default [] (Dict.get d k))).

(** One iteration of the loop over [phase.dependencies] in [add_phase]. *)
Definition add_dependency (pid : string)
    (er : Dict.t (list string) * Dict.t (list string)) (dep_id : string) :=
  let e := add_to (ensure_key er.1 dep_id) dep_id pid in
  let r := add_to (ensure_key er.2 pid) pid dep_id in
  (e, r).

Definition add_phase (self : t) (phase : PhaseInfo.t) : t :=
  let pid := PhaseInfo.id phase in
  let n := Dict.set (nodes self) pid phase in
  let e := ensure_key (edges self) pid in
  let r := ensure_key (reverse_edges self) pid in
  let er := foldl (add_dependency pid) (e, r) (PhaseInfo.dependencies phase) in
  mk n er.1 er.2.

Definition get_phase (self : t) (phase_id : string) : option PhaseInfo.t :=
  Dict.get (nodes self) phase_id.

Definition get_dependents (self : t) (phase_id : string) : list string :=
  default [] (Dict.get (edges self) phase_id).

Definition get_dependencies (self : t) (phase_id : string) : list string :=
  default [] (Dict.get (reverse_edges self) phase_id).

Definition get_root_phases (self : t) : list PhaseInfo.t :=
  filter (λ phase, PhaseInfo.dependencies phase = []) (nodes self).*2.

End DependencyGraph.

Module ExecutionWave.
Record t := mk {
  wave_number : Z;
  phases : list string;
  start_time : option datetime;
  end_time : option datetime;
  status : string
}.

(** [ExecutionWave(wave_number=n)] *)
Definition new (n : Z) : t := mk n [] None None "pending".

Definition add_phase (self : t) (phase_id : string) : t :=
  if decide (phase_id ∈ phases self) then self
  else mk (wave_number self) (phases self ++ [phase_id])
          (start_time self) (end_time self) (status self).

Definition set_wave_number (self : t) (n : Z) : t :=
  mk n (phases self) (start_time self) (end_time self) (status self).
End ExecutionWave.

Module ResourceLock.
Record t := mk {
  resource_path : string;
  owner_phase : string;
  lock_time : datetime;
  lock_type : LockType;
  expires_at : option datetime
}.

(** [datetime.now() > self.expires_at], never for a lock without expiry. *)
Definition is_expired (now : datetime) (self : t) : bool :=
  match expires_at self with
  | None => false
  | Some e => bool_decide (e < now)
  end.

Definition is_shared (self : t) : bool := bool_decide (lock_type self = SHARED).
Definition is_exclusive (self : t) : bool := bool_decide (lock_type self = EXCLUSIVE).
End ResourceLock.

(** ** JSON values, as [json.load] returns them

    Values the Python code types as [Any] (metrics, agent log entries, the
    configuration snapshot) are JSON values; numbers are integers. *)

Module Json.

#[warnings="-register-all"]
Inductive t :=
  | JNull
  | JBool (b : bool)
  | JNum (n : Z)
  | JStr (s : string)
  | JArr (items : list t)
  | JObj (fields : list (string * t)).

(** Python truthiness of a loaded value. *)
Definition truthy (j : t) : bool :=
  match j with
  | JNull => false
  | JBool b => b
  | JNum n => negb (n =? 0)
  | JStr s => negb (String.eqb s "")
  | JArr l => match l with [] => false | _ => true end
  | JObj l => match l with [] => false | _ => true end
  end.

(** [d.get(key)]: [AttributeError] ([None] here) unless [d] is a dict;
    a missing key gives Python's [None], that is [JNull]. *)
Definition get (d : t) (key : string) : option t :=
  match d with
  | JObj fields => Some (default JNull (Dict.get fields key))
  | _ => None
  end.

(** [d.get(key, dflt)] *)
Definition get_default (d : t) (key : string) (dflt : t) : option t :=
  match d with
  | JObj fields => Some (default dflt (Dict.get fields key))
  | _ => None
  end.

(** [d[key]]: [KeyError] or [TypeError] is [None]. *)
Definition item (d : t) (key : string) : option t :=
  match d with
  | JObj fields => Dict.get fields key
  | _ => None
  end.

Definition as_str (j : t) : option string :=
  match j with JStr s => Some s | _ => None end.

Definition as_int (j : t) : option Z :=
  match j with JNum n => Some n | _ => None end.

Definition as_opt_str (j : t) : option (option string) :=
  match j with JNull => Some None | JStr s => Some (Some s) | _ => None end.

Definition as_list (j : t) : option (list t) :=
  match j with JArr l => Some l | _ => None end.

Definition as_fields (j : t) : option (list (string * t)) :=
  match j with JObj l => Some l | _ => None end.

Definition as_str_list (j : t) : option (list string) :=
  l ← as_list j; mapM as_str l.

Definition item_str (d : t) (key : string) : option string :=
  x ← item d key; as_str x.

Definition item_int (d : t) (key : string) : option Z :=
  x ← item d key; as_int x.

Definition get_opt_str (d : t) (key : string) : option (option string) :=
  x ← get d key; as_opt_str x.

Definition of_opt_str (o : option string) : t :=
  match o with Some s => JStr s | None => JNull end.

Definition of_str_list (l : list string) : t := JArr (JStr <$> l).

End Json.

(** ** models/execution_state.py *)

Inductive PhaseStatus :=
  | NOT_STARTED | QUEUED | IN_PROGRESS | COMPLETED | FAILED | BLOCKED | CANCELLED.

#[global] Instance PhaseStatus_eq_dec : EqDecision PhaseStatus.
Proof. solve_decision. Defined.

Definition PhaseStatus_value (s : PhaseStatus) : string :=
  match s with
  | NOT_STARTED => "not_started"
  | QUEUED => "queued"
  | IN_PROGRESS => "in_progress"
  | COMPLETED => "completed"
  | FAILED => "failed"
  | BLOCKED => "blocked"
  | CANCELLED => "cancelled"
  end.

(** [PhaseStatus(value)]: [ValueError] is [None]. *)
Definition PhaseStatus_of_value (v : string) : option PhaseStatus :=
  list_find (λ s, PhaseStatus_value s = v)
    [NOT_STARTED; QUEUED; IN_PROGRESS; COMPLETED; FAILED; BLOCKED; CANCELLED]
  ≫= λ r, Some r.2.

(** [PhaseStatus.is_terminal] and [PhaseStatus.is_active] *)
Definition PhaseStatus_is_terminal (s : PhaseStatus) : bool :=
  bool_decide (s ∈ [COMPLETED; FAILED; CANCELLED]).

Definition PhaseStatus_is_active (s : PhaseStatus) : bool :=
  bool_decide (s ∈ [IN_PROGRESS; QUEUED]).

Inductive AgentStatus :=
  | IDLE | ASSIGNED | WORKING | AGENT_COMPLETED | ERROR | TERMINATED.

#[global] Instance AgentStatus_eq_dec : EqDecision AgentStatus.
Proof. solve_decision. Defined.

Definition AgentStatus_value (s : AgentStatus) : string :=
  match s with
  | IDLE => "idle"
  | ASSIGNED => "assigned"
  | WORKING => "working"
  | AGENT_COMPLETED => "completed"
  | ERROR => "error"
  | TERMINATED => "terminated"
  end.

Definition AgentStatus_of_value (v : string) : option AgentStatus :=
  list_find (λ s, AgentStatus_value s = v)
    [IDLE; ASSIGNED; WORKING; AGENT_COMPLETED; ERROR; TERMINATED]
  ≫= λ r, Some r.2.

Module PhaseExecutionDetails.
Record t := mk {
  phase_id : string;
  status : PhaseStatus;
  agent_id : option string;
  start_time : option datetime;
  end_time : option datetime;
  error_message : option string;
  retry_count : Z;
  output_files : list string;
  metrics : list (string * Json.t)
}.

(** [PhaseExecutionDetails(phase_id)] *)
Definition new (pid : string) : t :=
  mk pid NOT_STARTED None None None None 0 [] [].

Definition mark_started (now : datetime) (self : t) (agent : string) : t :=
  mk (phase_id self) IN_PROGRESS (Some agent) (Some now) (end_time self)
     (error_message self) (retry_count self) (output_files self) (metrics self).

(** [if output_files: self.output_files.extend(output_files)] *)
Definition mark_completed (now : datetime) (self : t)
    (outputs : option (list string)) : t :=
  mk (phase_id self) COMPLETED (agent_id self) (start_time self) (Some now)
     (error_message self) (retry_count self)
     (output_files self ++ default [] outputs) (metrics self).

Definition mark_failed (now : datetime) (self : t) (error : string) : t :=
  mk (phase_id self) FAILED (agent_id self) (start_time self) (Some now)
     (Some error) (retry_count self + 1) (output_files self) (metrics self).

Definition set_status (self : t) (s : PhaseStatus) : t :=
  mk (phase_id self) s (agent_id self) (start_time self) (end_time self)
     (error_message self) (retry_count self) (output_files self) (metrics self).
End PhaseExecutionDetails.

Module AgentInfo.
Record t := mk {
  agent_id : string;
  assigned_phase : option string;
  status : AgentStatus;
  logs : list Json.t;
  created_at : datetime;
  terminated_at : option datetime
}.
End AgentInfo.

Module ExecutionState.
Record t := mk {
  phase_states : gmap string PhaseExecutionDetails.t;
  waves : list ExecutionWave.t;
  agents : gmap string AgentInfo.t;
  start_time : option datetime;
  end_time : option datetime;
  config : list (string * Json.t)
}.

Definition empty : t := mk ∅ [] ∅ None None [].

Definition get_completed_phases (self : t) : list string :=
  (filter (λ kv, PhaseExecutionDetails.status kv.2 = COMPLETED)
          (map_to_list (phase_states self))).*1.

Definition set_phase_states (self : t)
    (states : gmap string PhaseExecutionDetails.t) : t :=
  mk states (waves self) (agents self) (start_time self) (end_time self)
     (config self).

Definition add_phase (self : t) (phase_id : string) : t :=
  match phase_states self !! phase_id with
  | Some _ => self
  | None =>
      set_phase_states self
        (<[phase_id := PhaseExecutionDetails.new phase_id]> (phase_states self))
  end.

Definition get_phase_status (self : t) (phase_id : string) : PhaseStatus :=
  match phase_states self !! phase_id with
  | Some details => PhaseExecutionDetails.status details
  | None => NOT_STARTED
  end.

Definition update_phase_status (self : t) (phase_id : string)
    (status : PhaseStatus) : t :=
  match phase_states self !! phase_id with
  | Some details =>
      set_phase_states self
        (<[phase_id := PhaseExecutionDetails.set_status details status]>
           (phase_states self))
  | None => self
  end.

Definition get_active_phases (self : t) : list string :=
  (filter (λ kv, PhaseExecutionDetails.status kv.2 = IN_PROGRESS)
          (map_to_list (phase_states self))).*1.

Definition get_failed_phases (self : t) : list string :=
  (filter (λ kv, PhaseExecutionDetails.status kv.2 = FAILED)
          (map_to_list (phase_states self))).*1.

Definition is_complete (self : t) : bool :=
  forallb (λ kv, PhaseStatus_is_terminal (PhaseExecutionDetails.status kv.2))
          (map_to_list (phase_states self)).
End ExecutionState.

(** ** analyzers/dependency_analyzer.py *)

Module DependencyAnalyzer.

(** [ValueError]: phase [phase_id] depends on [dep_id], which is no phase. *)
Inductive ValueError := NonExistentPhase (phase_id dep_id : string).

(** First pass of [build_dependency_graph]: every phase is added in turn. *)
Definition add_phases (phases : list PhaseInfo.t) : DependencyGraph.t :=
  foldl DependencyGraph.add_phase DependencyGraph.empty phases.

(** Second pass: the first dependency, in list order, that is no phase id. *)
Definition first_missing (phase_ids : list string) (phases : list PhaseInfo.t)
    : option ValueError :=
  head (phase ← phases;
        dep_id ← PhaseInfo.dependencies phase;
        if decide (dep_id ∈ phase_ids) then []
        else [NonExistentPhase (PhaseInfo.id phase) dep_id]).

Definition build_dependency_graph (phases : list PhaseInfo.t)
    : ValueError + DependencyGraph.t :=
  let graph := add_phases phases in
  let phase_ids := PhaseInfo.id <$> phases in
  match first_missing phase_ids phases with
  | Some e => inl e
  | None => inr graph
  end.

End DependencyAnalyzer.

(** ** analyzers/wave_calculator.py *)

Module WaveCalculator.

(** The calculator's only attribute is its phase cache. *)
Record t := mk { _phase_cache : gmap string PhaseInfo.t }.

(** The error raised on a cycle, with the set of unprocessed phase ids. *)
Inductive ValueError := CircularDependency (unprocessed : list string).

(** [in_degree[k]] on a [defaultdict(int)] *)
Definition deg_get (in_degree : Dict.t Z) (k : string) : Z :=
  default 0 (Dict.get in_degree k).

Definition _calculate_in_degrees (graph : DependencyGraph.t) : Dict.t Z :=
  let zeroed :=
    foldl (λ d kv, Dict.set d kv.1 0) [] (DependencyGraph.nodes graph) in
  foldl (λ d kv, Dict.set d kv.1
                   (Z.of_nat (length (PhaseInfo.dependencies kv.2))))
        zeroed (DependencyGraph.nodes graph).

(** The state the loops of [calculate_execution_waves] update. *)
Record loop_state := mk_state {
  current_wave : ExecutionWave.t;
  processed : list string;
  in_degree : Dict.t Z;
  queue : list string
}.

(** Body of [for dependent_id in dependents]. *)
Definition reduce_dependent (st : Dict.t Z * list string) (dependent_id : string)
    : Dict.t Z * list string :=
  let deg := Dict.set st.1 dependent_id (deg_get st.1 dependent_id - 1) in
  if decide (deg_get deg dependent_id = 0)
  then (deg, st.2 ++ [dependent_id])
  else (deg, st.2).

(** Body of [for phase_id in current_batch]. *)
Definition process_phase (graph : DependencyGraph.t) (st : loop_state)
    (phase_id : string) : loop_state :=
  let w := ExecutionWave.add_phase (current_wave st) phase_id in
  let p := set_add phase_id (processed st) in
  let dq := foldl reduce_dependent (in_degree st, queue st)
                  (DependencyGraph.get_dependents graph phase_id) in
  mk_state w p dq.1 dq.2.

(** [while queue:], one wave per iteration; [None] when [fuel] iterations
    do not empty the queue. *)
Fixpoint waves_loop (fuel : nat) (graph : DependencyGraph.t)
    (queue : list string) (in_degree : Dict.t Z) (processed : list string)
    (waves : list ExecutionWave.t) (wave_number : Z)
    : option (list ExecutionWave.t * list string) :=
  match queue with
  | [] => Some (waves, processed)
  | _ =>
    match fuel with
    | O => None
    | S fuel' =>
      let st := foldl (process_phase graph)
                      (mk_state (ExecutionWave.new wave_number) processed in_degree [])
                      queue in
      match ExecutionWave.phases (current_wave st) with
      | [] => waves_loop fuel' graph (WaveCalculator.queue st) (WaveCalculator.in_degree st)
                         (WaveCalculator.processed st) waves wave_number
      | _ => waves_loop fuel' graph (WaveCalculator.queue st) (WaveCalculator.in_degree st)
                        (WaveCalculator.processed st)
                        (waves ++ [current_wave st]) (wave_number + 1)
      end
    end
  end.

Definition calculate_execution_waves_fuel (fuel : nat) (graph : DependencyGraph.t)
    : option (ValueError + list ExecutionWave.t) :=
  let in_degree := _calculate_in_degrees graph in
  let queue := (filter (λ kv, kv.2 = 0) in_degree).*1 in
  '(waves, processed) ← waves_loop fuel graph queue in_degree [] [] 0;
  if decide (length processed ≠ length (DependencyGraph.nodes graph))
  then Some (inl (CircularDependency
                    (filter (λ k, k ∉ processed)
                            (Dict.keys (DependencyGraph.nodes graph)))))
  else Some (inr waves).

(** Every iteration of the outer loop processes a phase that was never
    queued before, so one more iteration than there are phases is enough. *)
Definition calculate_execution_waves (graph : DependencyGraph.t)
    : option (ValueError + list ExecutionWave.t) :=
  calculate_execution_waves_fuel (S (length (DependencyGraph.nodes graph))) graph.

Definition _get_phase_from_cache (self : t) (phase_id : string) : option PhaseInfo.t :=
  _phase_cache self !! phase_id.

(** [phase.estimated_time if phase else 1.0] *)
Definition phase_time (self : t) (phase_id : string) : Q :=
  match _get_phase_from_cache self phase_id with
  | Some phase => PhaseInfo.estimated_time phase
  | None => 1%Q
  end.

(** [phase_times.sort(key=lambda x: x[1], reverse=True)]: a stable sort,
    longest first; entries with equal times keep their order. *)
Fixpoint insert_desc (x : string * Q) (l : list (string * Q)) : list (string * Q) :=
  match l with
  | [] => [x]
  | y :: l' => if Qle_bool y.2 x.2 then x :: y :: l' else y :: insert_desc x l'
  end.

Definition sort_desc (l : list (string * Q)) : list (string * Q) :=
  foldr insert_desc [] l.

(** Body of [for phase_id, _ in phase_times] in [_split_wave]. *)
Definition split_step (n : Z) (max_size : Z)
    (st : list ExecutionWave.t * ExecutionWave.t) (phase_id : string)
    : list ExecutionWave.t * ExecutionWave.t :=
  let st' :=
    if bool_decide (max_size ≤ Z.of_nat (length (ExecutionWave.phases st.2)))
    then (st.1 ++ [st.2], ExecutionWave.new n)
    else st in
  (st'.1, ExecutionWave.add_phase st'.2 phase_id).

Definition _split_wave (self : t) (wave : ExecutionWave.t) (max_size : Z)
    : list ExecutionWave.t :=
  let phase_times := (λ p, (p, phase_time self p)) <$> ExecutionWave.phases wave in
  let sorted := sort_desc phase_times in
  let n := ExecutionWave.wave_number wave in
  let st := foldl (split_step n max_size) ([], ExecutionWave.new n) sorted.*1 in
  match ExecutionWave.phases st.2 with
  | [] => st.1
  | _ => st.1 ++ [st.2]
  end.

Definition optimize_wave_distribution (self : t) (waves : list ExecutionWave.t)
    (max_agents : Z) : list ExecutionWave.t :=
  if bool_decide (max_agents ≤ 0) then waves
  else
    let optimized_waves :=
      foldl (λ acc wave,
               if bool_decide (Z.of_nat (length (ExecutionWave.phases wave)) ≤ max_agents)
               then acc ++ [wave]
               else acc ++ _split_wave self wave max_agents)
            [] waves in
    imap (λ i wave, ExecutionWave.set_wave_number wave (Z.of_nat i)) optimized_waves.

End WaveCalculator.

(** ** core/resource_manager.py: the lock registry *)

Module LockRequest.
Record t := mk {
  resource_path : string;
  phase_id : string;
  lock_type : LockType;
  timeout_seconds : option Z
}.
End LockRequest.

Module LockRegistry.

Record t := mk {
  _locks : gmap string (list ResourceLock.t);
  _phase_locks : gmap string (gset string)
}.

Definition empty : t := mk ∅ ∅.

Section registry.
(** [str(Path(p).resolve())]: depends on the file system, a parameter. *)
Variable resolve : string → string.

Definition _get_active_locks (now : datetime) (self : t) (resource_path : string)
    : list ResourceLock.t :=
  filter (λ l, ¬ ResourceLock.is_expired now l)
         (default [] (_locks self !! resource_path)).

Definition can_acquire (now : datetime) (self : t) (resource_path phase_id : string)
    (lock_type : LockType) : bool :=
  let resource_path := resolve resource_path in
  let active_locks := _get_active_locks now self resource_path in
  match active_locks with
  | [] => true
  | _ =>
    let phase_locks :=
      filter (λ l, ResourceLock.owner_phase l = phase_id) active_locks in
    match phase_locks with
    | _ :: _ =>
        if bool_decide (lock_type = EXCLUSIVE) && bool_decide (1 < length active_locks)%nat
        then false
        else true
    | [] =>
        if bool_decide (lock_type = EXCLUSIVE) then false
        else forallb (λ l, bool_decide (ResourceLock.lock_type l = SHARED)) active_locks
    end
  end.

Definition _remove_phase_lock (self : t) (resource_path phase_id : string) : t :=
  let locks :=
    match _locks self !! resource_path with
    | Some ls =>
        match filter (λ l, ResourceLock.owner_phase l ≠ phase_id) ls with
        | [] => delete resource_path (_locks self)
        | ls' => <[resource_path := ls']> (_locks self)
        end
    | None => _locks self
    end in
  let phase_locks :=
    match _phase_locks self !! phase_id with
    | Some paths =>
        let paths' := paths ∖ {[resource_path]} in
        if decide (paths' = ∅) then delete phase_id (_phase_locks self)
        else <[phase_id := paths']> (_phase_locks self)
    | None => _phase_locks self
    end in
  mk locks phase_locks.

Definition acquire_lock (now : datetime) (self : t) (lock : ResourceLock.t) : t * bool :=
  let path := ResourceLock.resource_path lock in
  let owner := ResourceLock.owner_phase lock in
  if negb (can_acquire now self path owner (ResourceLock.lock_type lock))
  then (self, false)
  else
    let self := _remove_phase_lock self path owner in
    let locks := <[path := default [] (_locks self !! path) ++ [lock]]> (_locks self) in
    let phase_locks :=
      <[owner := default ∅ (_phase_locks self !! owner) ∪ {[path]}]> (_phase_locks self) in
    (mk locks phase_locks, true).

Definition release_lock (self : t) (resource_path phase_id : string) : t :=
  _remove_phase_lock self (resolve resource_path) phase_id.

Definition release_all_phase_locks (self : t) (phase_id : string) : t :=
  let paths := elements (default ∅ (_phase_locks self !! phase_id)) in
  foldl (λ reg path, _remove_phase_lock reg path phase_id) self paths.

(** Both loops of [cleanup_expired_locks] treat every key on its own: the
    first keeps the active locks of each path and drops emptied paths, the
    second keeps, for each phase, the paths on which it still has a lock. *)
Definition cleanup_expired_locks (now : datetime) (self : t) : t :=
  let locks :=
    omap (λ ls, match filter (λ l, ¬ ResourceLock.is_expired now l) ls with
                | [] => None
                | ls' => Some ls'
                end) (_locks self) in
  let phase_locks :=
    map_imap (λ phase_id paths,
                let valid_paths :=
                  filter (λ path, Exists (λ l, ResourceLock.owner_phase l = phase_id)
                                         (default [] (locks !! path))) paths in
                if decide (valid_paths = ∅) then None else Some valid_paths)
             (_phase_locks self) in
  mk locks phase_locks.

(** [get_phase_locks]: the paths of a phase are a set, read here in the
    order [elements] lists them. *)
Definition get_phase_locks (now : datetime) (self : t) (phase_id : string)
    : list ResourceLock.t :=
  path ← elements (default ∅ (_phase_locks self !! phase_id));
  filter (λ l, ResourceLock.owner_phase l = phase_id ∧ ¬ ResourceLock.is_expired now l)
         (default [] (_locks self !! path)).

(** The conflicting locks are read under [request.resource_path] as it is
    given, while [can_acquire] resolves it. *)
Definition detect_conflicts (now : datetime) (self : t) (request : LockRequest.t)
    : list ResourceLock.t :=
  if can_acquire now self (LockRequest.resource_path request)
       (LockRequest.phase_id request) (LockRequest.lock_type request)
  then []
  else
    let active_locks := _get_active_locks now self (LockRequest.resource_path request) in
    let conflicts :=
      filter (λ l, ResourceLock.owner_phase l ≠ LockRequest.phase_id request)
             active_locks in
    if decide (LockRequest.lock_type request = SHARED)
    then filter (λ l, ResourceLock.lock_type l = EXCLUSIVE) conflicts
    else conflicts.

(** The numbers [get_stats] reports, after its call of
    [cleanup_expired_locks]. *)
Record stats := mk_stats {
  total_active_locks : Z;
  shared_locks : Z;
  exclusive_locks : Z;
  locked_resources : Z;
  phases_with_locks : Z
}.

Definition get_stats (now : datetime) (self : t) : t * stats :=
  let self := cleanup_expired_locks now self in
  let values := (map_to_list (_locks self)).*2 in
  let total_locks := Z.of_nat (sum_list (length <$> values)) in
  let shared_locks :=
    Z.of_nat (length (filter (λ lock, ResourceLock.lock_type lock = SHARED)
                             (concat values))) in
  (self, mk_stats total_locks shared_locks (total_locks - shared_locks)
                  (Z.of_nat (size (_locks self)))
                  (Z.of_nat (size (_phase_locks self)))).

End registry.
End LockRegistry.

(** ** orchestrator/wave_executor.py: the failure policy *)

Inductive RecoveryAction := RETRY | SKIP | ABORT_WAVE | ABORT_ALL.

Module WaveExecutor.

(** The attributes [_handle_phase_failure] reads. *)
Record t := mk {
  execution_state : ExecutionState.t;
  retry_limit : Z;
  failure_strategy : string
}.

Definition _handle_phase_failure (self : t) (phase_id : string)
    (error : option string) : RecoveryAction :=
  let phase_details := ExecutionState.phase_states (execution_state self) !! phase_id in
  let below_limit :=
    match phase_details with
    | Some d => bool_decide (PhaseExecutionDetails.retry_count d < retry_limit self)
    | None => false
    end in
  if below_limit && bool_decide (failure_strategy self = "retry") then RETRY
  else if bool_decide (failure_strategy self = "skip") then SKIP
  else if bool_decide (failure_strategy self = "abort_wave") then ABORT_WAVE
  else if bool_decide (failure_strategy self = "abort_all") then ABORT_ALL
  else SKIP.

(** [_can_execute_phase] reads the dependency graph and the execution
    state of the executor. *)
Definition _can_execute_phase (dependency_graph : DependencyGraph.t)
    (execution_state : ExecutionState.t) (phase_id : string) : bool :=
  match DependencyGraph.get_phase dependency_graph phase_id with
  | None => false
  | Some phase =>
      forallb (λ dep_id,
                 bool_decide (ExecutionState.get_phase_status execution_state dep_id
                              = COMPLETED))
              (PhaseInfo.dependencies phase)
  end.

(** What an agent run comes to, as [_execute_phase] sees it: [spawn_agent]
    fails with an error, or the agent runs and [_monitor_phase_execution]
    returns a result. *)
Inductive agent_run :=
  | SpawnFailed (error : string)
  | Monitored (agent_id : string) (success : bool) (outputs : list string)
              (error : option string).

(** [result.error or "Unknown error"] *)
Definition error_or_unknown (error : option string) : string :=
  match error with
  | Some e => if decide (e = "") then "Unknown error" else e
  | None => "Unknown error"
  end.

(** [_execute_phase], with the agent's run as a parameter: the new
    execution state and [result.success]. *)
Definition _execute_phase (dependency_graph : DependencyGraph.t)
    (execution_state : ExecutionState.t) (now : datetime) (phase_id : string)
    (run : agent_run) : ExecutionState.t * bool :=
  match DependencyGraph.get_phase dependency_graph phase_id with
  | None => (execution_state, false)
  | Some phase_info =>
      let phase_details :=
        default (PhaseExecutionDetails.new phase_id)
                (ExecutionState.phase_states execution_state !! phase_id) in
      let '(details, success) :=
        match run with
        | SpawnFailed error =>
            (PhaseExecutionDetails.mark_failed now phase_details error, false)
        | Monitored agent_id success outputs error =>
            let started := PhaseExecutionDetails.mark_started now phase_details agent_id in
            if success
            then (PhaseExecutionDetails.mark_completed now started (Some outputs), true)
            else (PhaseExecutionDetails.mark_failed now started (error_or_unknown error),
                  false)
        end in
      (ExecutionState.set_phase_states execution_state
         (<[phase_id := details]> (ExecutionState.phase_states execution_state)),
       success)
  end.

(** The loop of [_cleanup_wave_resources] over the phases of the wave, on
    the lock registry. *)
Definition _cleanup_wave_resources (lock_registry : LockRegistry.t)
    (wave : ExecutionWave.t) : LockRegistry.t :=
  foldl LockRegistry.release_all_phase_locks lock_registry (ExecutionWave.phases wave).

(** [transition_to_next_wave], after its delay: the registry once the
    wave's locks are released, and the first wave of the execution state
    that carries the next wave number. *)
Definition transition_to_next_wave (lock_registry : LockRegistry.t)
    (execution_state : ExecutionState.t) (current_wave : ExecutionWave.t)
    : LockRegistry.t * option ExecutionWave.t :=
  let lock_registry := _cleanup_wave_resources lock_registry current_wave in
  let next_wave_number := ExecutionWave.wave_number current_wave + 1 in
  (lock_registry,
   snd <$> list_find (λ wave, ExecutionWave.wave_number wave = next_wave_number)
                     (ExecutionState.waves execution_state)).

(** The four lists [get_wave_progress] fills for the current wave. *)
Record progress := mk_progress {
  completed : list string;
  in_progress : list string;
  pending : list string;
  failed : list string
}.

(** Body of [for phase_id in wave.phases] in [get_wave_progress]. *)
Definition classify (execution_state : ExecutionState.t) (acc : progress)
    (phase_id : string) : progress :=
  let status := ExecutionState.get_phase_status execution_state phase_id in
  if decide (status = COMPLETED)
  then mk_progress (completed acc ++ [phase_id]) (in_progress acc)
                   (pending acc) (failed acc)
  else if decide (status = IN_PROGRESS)
  then mk_progress (completed acc) (in_progress acc ++ [phase_id])
                   (pending acc) (failed acc)
  else if decide (status = FAILED)
  then mk_progress (completed acc) (in_progress acc) (pending acc)
                   (failed acc ++ [phase_id])
  else mk_progress (completed acc) (in_progress acc)
                   (pending acc ++ [phase_id]) (failed acc).

Definition get_wave_progress (execution_state : ExecutionState.t)
    (wave : ExecutionWave.t) : progress :=
  foldl (classify execution_state) (mk_progress [] [] [] [])
        (ExecutionWave.phases wave).

End WaveExecutor.

(** ** orchestrator/state_manager.py *)

Module StateMetadata.
Record t := mk {
  version : string;
  created_at : datetime;
  last_updated : datetime;
  checkpoint_number : Z;
  workspace_path : string;
  total_phases : Z;
  completed_phases : Z
}.
End StateMetadata.

Module StateManager.

(** [StateVersion.CURRENT.value] *)
Definition CURRENT : string := "1.0".

(** What a file holds: text [json.load] rejects, or a JSON document. *)
Inductive file := Corrupt | Doc (data : Json.t).

(** The manager with the part of the file system it owns: the live state
    file, the temporary file and the [*.json] files of the backup
    directory, by name. *)
Record t := mk {
  workspace : string;
  max_backups : Z;
  _current_state : option ExecutionState.t;
  _metadata : option StateMetadata.t;
  _checkpoint_number : Z;
  _last_checkpoint : datetime;
  state_file : option file;
  temp_state_file : option file;
  backup_dir : Dict.t file
}.

Definition set_files (self : t) (sf tf : option file) (bd : Dict.t file) : t :=
  mk (workspace self) (max_backups self) (_current_state self) (_metadata self)
     (_checkpoint_number self) (_last_checkpoint self) sf tf bd.

Definition set_metadata (self : t) (m : option StateMetadata.t) : t :=
  mk (workspace self) (max_backups self) (_current_state self) m
     (_checkpoint_number self) (_last_checkpoint self)
     (state_file self) (temp_state_file self) (backup_dir self).

Definition set_current (self : t) (st : option ExecutionState.t) (cp : Z) : t :=
  mk (workspace self) (max_backups self) st (_metadata self)
     cp (_last_checkpoint self)
     (state_file self) (temp_state_file self) (backup_dir self).

Definition set_last_checkpoint (self : t) (now : datetime) : t :=
  mk (workspace self) (max_backups self) (_current_state self) (_metadata self)
     (_checkpoint_number self) now
     (state_file self) (temp_state_file self) (backup_dir self).

(** [clear_state]: the live state file and every backup are removed. *)
Definition clear_state (self : t) : t :=
  mk (workspace self) (max_backups self) None None 0 (_last_checkpoint self)
     None (temp_state_file self) [].

(** [l[:stop]] with Python's reading of a negative bound. *)
Definition slice_to {A} (l : list A) (stop : Z) : list A :=
  if bool_decide (stop < 0)
  then take (Z.to_nat (Z.of_nat (length l) + stop)) l
  else take (Z.to_nat stop) l.

(** [sorted(...)] on the names of one directory. *)
Definition sorted_names (names : list string) : list string :=
  merge_sort (λ a b, String.leb a b) names.

Section state_manager.
(** [datetime.isoformat], [datetime.fromisoformat] ([ValueError] is
    [None]) and [strftime("%Y%m%d_%H%M%S")] belong to Python's library. *)
Variable isoformat : datetime → string.
Variable fromisoformat : string → option datetime.
Variable strftime : datetime → string.

Definition time_to_json (o : option datetime) : Json.t :=
  match o with
  | Some d => Json.JStr (isoformat d)
  | None => Json.JNull
  end.

(** [datetime.fromisoformat(d[key]) if d.get(key) else None] *)
Definition time_of_json (d : Json.t) (key : string) : option (option datetime) :=
  v ← Json.get d key;
  if Json.truthy v
  then x ← Json.item d key; s ← Json.as_str x; t ← fromisoformat s; Some (Some t)
  else Some None.

Definition metadata_to_dict (m : StateMetadata.t) : Json.t :=
  Json.JObj [
    ("version", Json.JStr (StateMetadata.version m));
    ("created_at", Json.JStr (isoformat (StateMetadata.created_at m)));
    ("last_updated", Json.JStr (isoformat (StateMetadata.last_updated m)));
    ("checkpoint_number", Json.JNum (StateMetadata.checkpoint_number m));
    ("workspace_path", Json.JStr (StateMetadata.workspace_path m));
    ("total_phases", Json.JNum (StateMetadata.total_phases m));
    ("completed_phases", Json.JNum (StateMetadata.completed_phases m))
  ].

(** The records are typed, so a field that does not hold a value of its
    type makes [from_dict] fail here, where Python stores the value as it
    is and fails, if at all, when the value is used.  The files
    [save_execution_state] writes hold fields of the right types. *)
Definition metadata_from_dict (data : Json.t) : option StateMetadata.t :=
  version ← Json.item_str data "version";
  created_at ← Json.item_str data "created_at" ≫= fromisoformat;
  last_updated ← Json.item_str data "last_updated" ≫= fromisoformat;
  checkpoint_number ← Json.item_int data "checkpoint_number";
  workspace_path ← Json.item_str data "workspace_path";
  total_phases ← Json.item_int data "total_phases";
  completed_phases ← Json.item_int data "completed_phases";
  Some (StateMetadata.mk version created_at last_updated checkpoint_number
                         workspace_path total_phases completed_phases).

Definition serialize_details (details : PhaseExecutionDetails.t) : Json.t :=
  Json.JObj [
    ("phase_id", Json.JStr (PhaseExecutionDetails.phase_id details));
    ("status", Json.JStr (PhaseStatus_value (PhaseExecutionDetails.status details)));
    ("agent_id", Json.of_opt_str (PhaseExecutionDetails.agent_id details));
    ("start_time", time_to_json (PhaseExecutionDetails.start_time details));
    ("end_time", time_to_json (PhaseExecutionDetails.end_time details));
    ("error_message", Json.of_opt_str (PhaseExecutionDetails.error_message details));
    ("retry_count", Json.JNum (PhaseExecutionDetails.retry_count details));
    ("output_files", Json.of_str_list (PhaseExecutionDetails.output_files details));
    ("metrics", Json.JObj (PhaseExecutionDetails.metrics details))
  ].

Definition serialize_wave (wave : ExecutionWave.t) : Json.t :=
  Json.JObj [
    ("wave_number", Json.JNum (ExecutionWave.wave_number wave));
    ("phases", Json.of_str_list (ExecutionWave.phases wave));
    ("start_time", time_to_json (ExecutionWave.start_time wave));
    ("end_time", time_to_json (ExecutionWave.end_time wave));
    ("status", Json.JStr (ExecutionWave.status wave))
  ].

Definition serialize_agent (agent_info : AgentInfo.t) : Json.t :=
  Json.JObj [
    ("agent_id", Json.JStr (AgentInfo.agent_id agent_info));
    ("assigned_phase", Json.of_opt_str (AgentInfo.assigned_phase agent_info));
    ("status", Json.JStr (AgentStatus_value (AgentInfo.status agent_info)));
    ("created_at", Json.JStr (isoformat (AgentInfo.created_at agent_info)));
    ("terminated_at", time_to_json (AgentInfo.terminated_at agent_info));
    ("logs", Json.JArr (AgentInfo.logs agent_info))
  ].

(** The fields of the dictionary [_serialize_state] returns. *)
Definition _serialize_state (state : ExecutionState.t) : list (string * Json.t) :=
  [ ("phase_states",
      Json.JObj (prod_map id serialize_details
                   <$> map_to_list (ExecutionState.phase_states state)));
    ("waves", Json.JArr (serialize_wave <$> ExecutionState.waves state));
    ("agents",
      Json.JObj (prod_map id serialize_agent
                   <$> map_to_list (ExecutionState.agents state)));
    ("start_time", time_to_json (ExecutionState.start_time state));
    ("end_time", time_to_json (ExecutionState.end_time state));
    ("config", Json.JObj (ExecutionState.config state)) ].

(** As for the metadata, an ill-typed field ([retry_count] holding [null],
    say) fails the load here, while Python keeps the value. *)
Definition deserialize_details (phase_id : string) (d : Json.t)
    : option PhaseExecutionDetails.t :=
  status ← Json.item_str d "status" ≫= PhaseStatus_of_value;
  agent_id ← Json.get_opt_str d "agent_id";
  start_time ← time_of_json d "start_time";
  end_time ← time_of_json d "end_time";
  error_message ← Json.get_opt_str d "error_message";
  retry_count ← Json.get_default d "retry_count" (Json.JNum 0) ≫= Json.as_int;
  output_files ← Json.get_default d "output_files" (Json.JArr []) ≫= Json.as_str_list;
  metrics ← Json.get_default d "metrics" (Json.JObj []) ≫= Json.as_fields;
  Some (PhaseExecutionDetails.mk phase_id status agent_id start_time end_time
          error_message retry_count output_files metrics).

Definition deserialize_wave (d : Json.t) : option ExecutionWave.t :=
  wave_number ← Json.item_int d "wave_number";
  phases ← Json.item d "phases" ≫= Json.as_str_list;
  status ← Json.get_default d "status" (Json.JStr "pending") ≫= Json.as_str;
  start_time ← time_of_json d "start_time";
  end_time ← time_of_json d "end_time";
  Some (ExecutionWave.mk wave_number phases start_time end_time status).

Definition deserialize_agent (agent_id : string) (d : Json.t) : option AgentInfo.t :=
  assigned_phase ← Json.get_opt_str d "assigned_phase";
  status ← Json.item_str d "status" ≫= AgentStatus_of_value;
  created_at ← Json.item_str d "created_at" ≫= fromisoformat;
  terminated_at ← time_of_json d "terminated_at";
  logs ← Json.get_default d "logs" (Json.JArr []) ≫= Json.as_list;
  Some (AgentInfo.mk agent_id assigned_phase status logs created_at terminated_at).

(** [for key, d in items: target[key] = f(key, d)], stopping at the first
    exception. *)
Fixpoint fill {V} (f : string → Json.t → option V) (items : list (string * Json.t))
    (target : gmap string V) : option (gmap string V) :=
  match items with
  | [] => Some target
  | (key, d) :: items' => v ← f key d; fill f items' (<[key := v]> target)
  end.

Definition _deserialize_state (data : Json.t) : option ExecutionState.t :=
  phase_items ← Json.get_default data "phase_states" (Json.JObj []) ≫= Json.as_fields;
  phase_states ← fill deserialize_details phase_items ∅;
  wave_items ← Json.get_default data "waves" (Json.JArr []) ≫= Json.as_list;
  waves ← mapM deserialize_wave wave_items;
  agent_items ← Json.get_default data "agents" (Json.JObj []) ≫= Json.as_fields;
  agents ← fill deserialize_agent agent_items ∅;
  start_time ← time_of_json data "start_time";
  end_time ← time_of_json data "end_time";
  config ← Json.get_default data "config" (Json.JObj []) ≫= Json.as_fields;
  Some (ExecutionState.mk phase_states waves agents start_time end_time config).

Definition _cleanup_old_backups (self : t) : t :=
  let backups := sorted_names (Dict.keys (backup_dir self)) in
  if bool_decide (max_backups self < Z.of_nat (length backups))
  then
    let old := slice_to backups (- max_backups self) in
    set_files self (state_file self) (temp_state_file self)
              (filter (λ kv, kv.1 ∉ old) (backup_dir self))
  else self.

Definition _backup_current_state (now : datetime) (self : t) : t :=
  match state_file self with
  | None => self
  | Some content =>
      let backup_name :=
        "state_backup_" +:+ strftime now +:+ "_" +:+
        pretty (_checkpoint_number self) +:+ ".json" in
      _cleanup_old_backups
        (set_files self (state_file self) (temp_state_file self)
                   (Dict.set (backup_dir self) backup_name content))
  end.

(** In the model every write succeeds, so the [except] branch of
    [save_execution_state] is not reached and the result is [True]. *)
Definition save_execution_state (now : datetime) (self : t)
    (state : ExecutionState.t) : t * bool :=
  let completed := Z.of_nat (length (ExecutionState.get_completed_phases state)) in
  let metadata :=
    match _metadata self with
    | None =>
        StateMetadata.mk CURRENT now now 0 (workspace self)
          (Z.of_nat (size (ExecutionState.phase_states state))) completed
    | Some m =>
        StateMetadata.mk (StateMetadata.version m) (StateMetadata.created_at m)
          now (_checkpoint_number self) (StateMetadata.workspace_path m)
          (StateMetadata.total_phases m) completed
    end in
  let self := set_metadata self (Some metadata) in
  let state_data :=
    Json.JObj (Dict.set (_serialize_state state) "metadata" (metadata_to_dict metadata)) in
  let self := set_files self (state_file self) (Some (Doc state_data)) (backup_dir self) in
  let self := _backup_current_state now self in
  let self := set_files self (temp_state_file self) None (backup_dir self) in
  let self := set_current self (Some state) (_checkpoint_number self + 1) in
  (set_last_checkpoint self now, true).

Definition load_execution_state (self : t) : t * option ExecutionState.t :=
  match state_file self with
  | None | Some Corrupt => (self, None)
  | Some (Doc state_data) =>
    match Json.get_default state_data "metadata" (Json.JObj []) with
    | None => (self, None)
    | Some metadata_dict =>
      if negb (Json.truthy metadata_dict) then (self, None)
      else
        match metadata_from_dict metadata_dict with
        | None => (self, None)
        | Some m =>
          let self := set_metadata self (Some m) in
          match _deserialize_state state_data with
          | None => (self, None)
          | Some state =>
              (set_current self (Some state) (StateMetadata.checkpoint_number m + 1),
               Some state)
          end
        end
    end
  end.

(** The loop of [recover_from_crash] over the in-progress phases. *)
Definition mark_interrupted (now : datetime) (details : PhaseExecutionDetails.t)
    : PhaseExecutionDetails.t :=
  if decide (PhaseExecutionDetails.status details = IN_PROGRESS)
  then PhaseExecutionDetails.mk
         (PhaseExecutionDetails.phase_id details) FAILED
         (PhaseExecutionDetails.agent_id details)
         (PhaseExecutionDetails.start_time details) (Some now)
         (Some "Interrupted by crash")
         (PhaseExecutionDetails.retry_count details)
         (PhaseExecutionDetails.output_files details)
         (PhaseExecutionDetails.metrics details)
  else details.

Definition mark_state (now : datetime) (state : ExecutionState.t) : ExecutionState.t :=
  ExecutionState.mk (mark_interrupted now <$> ExecutionState.phase_states state)
    (ExecutionState.waves state) (ExecutionState.agents state)
    (ExecutionState.start_time state) (ExecutionState.end_time state)
    (ExecutionState.config state).

(** [for backup_file in ...]: a backup that is not JSON raises and the loop
    goes on; a JSON backup is copied over the live state file, which is
    then loaded. *)
Fixpoint try_backups (self : t) (backups : list string) : t * option ExecutionState.t :=
  match backups with
  | [] => (self, None)
  | backup_file :: rest =>
    match Dict.get (backup_dir self) backup_file with
    | Some (Doc backup_data) =>
        let self := set_files self (Some (Doc backup_data)) (temp_state_file self)
                              (backup_dir self) in
        match load_execution_state self with
        | (self, Some state) => (self, Some state)
        | (self, None) => try_backups self rest
        end
    | _ => try_backups self rest
    end
  end.

(** The recovered state is the object [_current_state] refers to, so the
    marking shows there too. *)
Definition recover_from_crash (now : datetime) (self : t) : t * option ExecutionState.t :=
  match load_execution_state self with
  | (self, Some state) =>
      let state := mark_state now state in
      (set_current self (Some state) (_checkpoint_number self), Some state)
  | (self, None) =>
      let backups := reverse (sorted_names (Dict.keys (backup_dir self))) in
      try_backups self (take 3 backups)
  end.

End state_manager.
End StateManager.

(** * Part II: properties *)

(** ** The failure policy of the wave executor *)

Section failure_policy.
Import WaveExecutor.

(** C9: [_handle_phase_failure] answers [RETRY] exactly when the phase has
    a record whose retry count is below the retry limit and the failure
    strategy is "retry"; in every other case it answers the terminal
    strategy that is configured: [SKIP] for "skip", [ABORT_WAVE] for
    "abort_wave", [ABORT_ALL] for "abort_all" (and [SKIP] for any other
    strategy, "retry" with its retries used up included). *)
Theorem handle_phase_failure_policy (self : WaveExecutor.t) (phase_id : string)
    (error : option string) :
  let recorded := ExecutionState.phase_states (execution_state self) !! phase_id in
  let action := _handle_phase_failure self phase_id error in
  (action = RETRY ↔
     (∃ d, recorded = Some d ∧
           PhaseExecutionDetails.retry_count d < retry_limit self) ∧
     failure_strategy self = "retry") ∧
  (action ≠ RETRY →
     (failure_strategy self = "skip" → action = SKIP) ∧
     (failure_strategy self = "abort_wave" → action = ABORT_WAVE) ∧
     (failure_strategy self = "abort_all" → action = ABORT_ALL) ∧
     (failure_strategy self ∉ ["skip"; "abort_wave"; "abort_all"] → action = SKIP)).
Proof.
  intros recorded action. subst action. unfold _handle_phase_failure.
  fold recorded.
  assert (Hin : ∀ s : string, s ∈ ["skip"; "abort_wave"; "abort_all"] ↔
                  s = "skip" ∨ s = "abort_wave" ∨ s = "abort_all") by set_solver.
  setoid_rewrite Hin.
  destruct recorded as [d|]; simpl; repeat case_bool_decide; simpl;
    (split; [split; [try discriminate; intros _; eauto
                    | intros [[d' [Hd ?]] ?]; simplify_eq; congruence || lia]
            | intros ?; repeat split; intros; try congruence; naive_solver]).
Qed.

End failure_policy.

(** ** The lock registry *)

Section lock_registry.
Import LockRegistry.
Variable resolve : string → string.

(** The locks recorded under a key of [_locks], expired ones included. *)
Definition locks_at (reg : LockRegistry.t) (path : string) : list ResourceLock.t :=
  default [] (_locks reg !! path).

(** [phase_id] holds an active lock under [path]. *)
Definition holds_active (now : datetime) (reg : LockRegistry.t)
    (path phase_id : string) : Prop :=
  ∃ l, l ∈ _get_active_locks now reg path ∧ ResourceLock.owner_phase l = phase_id.

(** Every phase has at most one lock under every key. *)
Definition one_lock_per_phase (reg : LockRegistry.t) : Prop :=
  ∀ path phase_id,
    (length (filter (λ l, ResourceLock.owner_phase l = phase_id) (locks_at reg path)) ≤ 1)%nat.

(** Shared locks only, or a single exclusive lock. *)
Definition compatible (ls : list ResourceLock.t) : Prop :=
  Forall (λ l, ResourceLock.lock_type l = SHARED) ls ∨
  ∃ l, ls = [l] ∧ ResourceLock.lock_type l = EXCLUSIVE.

Definition lock_compatibility (now : datetime) (reg : LockRegistry.t) : Prop :=
  ∀ path, compatible (_get_active_locks now reg path).

Lemma active_locks_at now reg path :
  _get_active_locks now reg path =
  filter (λ l, ¬ ResourceLock.is_expired now l) (locks_at reg path).
Proof. reflexivity. Qed.

Lemma remove_locks_at reg path phase_id p :
  locks_at (_remove_phase_lock reg path phase_id) p =
  if decide (p = path)
  then filter (λ l, ResourceLock.owner_phase l ≠ phase_id) (locks_at reg p)
  else locks_at reg p.
Proof.
  unfold locks_at, _remove_phase_lock; simpl.
  destruct (_locks reg !! path) as [ls|] eqn:E.
  - destruct (filter _ ls) as [|x ls'] eqn:F; case_decide; subst.
    + by rewrite lookup_delete_eq, E; simpl; rewrite F.
    + by rewrite lookup_delete_ne.
    + by rewrite lookup_insert_eq, E; simpl; rewrite F.
    + by rewrite lookup_insert_ne.
  - case_decide; subst; [by rewrite E|done].
Qed.

Lemma acquire_lock_result now reg lock :
  (acquire_lock resolve now reg lock).2 =
  can_acquire resolve now reg (ResourceLock.resource_path lock)
    (ResourceLock.owner_phase lock) (ResourceLock.lock_type lock).
Proof. unfold acquire_lock. by destruct (can_acquire _ _ _ _ _ _). Qed.

Lemma acquire_lock_refused now reg lock :
  (acquire_lock resolve now reg lock).2 = false →
  (acquire_lock resolve now reg lock).1 = reg.
Proof. unfold acquire_lock. by destruct (can_acquire _ _ _ _ _ _). Qed.

Lemma acquire_locks_at now reg lock p :
  (acquire_lock resolve now reg lock).2 = true →
  locks_at (acquire_lock resolve now reg lock).1 p =
  if decide (p = ResourceLock.resource_path lock)
  then filter (λ l, ResourceLock.owner_phase l ≠ ResourceLock.owner_phase lock)
              (locks_at reg p) ++ [lock]
  else locks_at reg p.
Proof.
  unfold acquire_lock. destruct (can_acquire _ _ _ _ _ _); [|done]. intros _.
  simpl.
  pose proof (remove_locks_at reg (ResourceLock.resource_path lock)
                (ResourceLock.owner_phase lock)) as Hrem.
  unfold locks_at in *; simpl.
  case_decide; subst.
  - rewrite lookup_insert_eq; simpl. rewrite Hrem. by rewrite decide_True.
  - rewrite lookup_insert_ne by done. rewrite Hrem. by rewrite decide_False.
Qed.

Lemma release_all_locks_at reg phase_id p :
  locks_at (release_all_phase_locks reg phase_id) p = locks_at reg p ∨
  locks_at (release_all_phase_locks reg phase_id) p =
    filter (λ l, ResourceLock.owner_phase l ≠ phase_id) (locks_at reg p).
Proof.
  unfold release_all_phase_locks.
  generalize (elements (default ∅ (_phase_locks reg !! phase_id))).
  intros paths. revert reg. induction paths as [|path paths IH]; intros reg; simpl.
  - by left.
  - destruct (IH (_remove_phase_lock reg path phase_id)) as [-> | ->];
      rewrite remove_locks_at; case_decide; auto.
    right. rewrite list_filter_filter. apply list_filter_iff. tauto.
Qed.

Lemma cleanup_locks_at now reg p :
  locks_at (cleanup_expired_locks now reg) p =
  filter (λ l, ¬ ResourceLock.is_expired now l) (locks_at reg p).
Proof.
  unfold locks_at, cleanup_expired_locks; simpl. rewrite lookup_omap.
  destruct (_locks reg !! p) as [ls|]; simpl; [|done].
  by destruct (filter _ ls).
Qed.


Lemma length_filter_split {A} (P : A → Prop) `{!∀ x, Decision (P x)} (l : list A) :
  length l = (length (filter P l) + length (filter (λ x, ¬ P x) l))%nat.
Proof.
  induction l as [|x l IH]; [done|].
  rewrite !filter_cons.
  destruct (decide (P x)), (decide (¬ P x)); rewrite ?length_cons; try tauto; lia.
Qed.

Lemma length_filter_filter {A} (P Q : A → Prop) `{!∀ x, Decision (P x)}
    `{!∀ x, Decision (Q x)} (l : list A) :
  (length (filter P (filter Q l)) ≤ length (filter P l))%nat.
Proof.
  induction l as [|x l IH]; [done|].
  rewrite (filter_cons Q), (filter_cons P).
  destruct (decide (Q x)); [rewrite (filter_cons P)|];
    destruct (decide (P x)); rewrite ?length_cons; lia.
Qed.

(** Under the registry invariant a phase with an active lock on a path is
    alone there exactly when the path has a single active lock. *)
Lemma others_active_iff now reg path phase_id :
  one_lock_per_phase reg →
  holds_active now reg path phase_id →
  (1 < length (_get_active_locks now reg path))%nat ↔
  ∃ l, l ∈ _get_active_locks now reg path ∧ ResourceLock.owner_phase l ≠ phase_id.
Proof.
  intros Hone [x [Hx Hox]].
  set (a := _get_active_locks now reg path) in *.
  pose proof (length_filter_split (λ l, ResourceLock.owner_phase l = phase_id) a) as Hlen.
  assert (length (filter (λ l, ResourceLock.owner_phase l = phase_id) a) = 1%nat) as Hown.
  { assert (x ∈ filter (λ l, ResourceLock.owner_phase l = phase_id) a) as Hin
      by (by apply list_elem_of_filter).
    pose proof (length_filter_filter (λ l, ResourceLock.owner_phase l = phase_id)
                  (λ l, ¬ ResourceLock.is_expired now l) (locks_at reg path)) as Hle.
    specialize (Hone path phase_id). rewrite <- active_locks_at in Hle.
    fold a in Hle.
    destruct (filter (λ l, ResourceLock.owner_phase l = phase_id) a); simpl in *;
      [by apply not_elem_of_nil in Hin | lia]. }
  rewrite Hlen, Hown. split.
  - intros Hgt.
    destruct (filter (λ l, ¬ ResourceLock.owner_phase l = phase_id) a) as [|y ys] eqn:F;
      simpl in Hgt; [lia|].
    assert (y ∈ filter (λ l, ¬ ResourceLock.owner_phase l = phase_id) a) as Hy
      by (rewrite F; left).
    apply list_elem_of_filter in Hy as [? ?]. eauto.
  - intros [y [Hy Hne]].
    assert (y ∈ filter (λ l, ¬ ResourceLock.owner_phase l = phase_id) a) as Hin
      by (by apply list_elem_of_filter).
    destruct (filter (λ l, ¬ ResourceLock.owner_phase l = phase_id) a); simpl;
      [by apply not_elem_of_nil in Hin | lia].
Qed.

Lemma holds_active_filter now reg path phase_id :
  holds_active now reg path phase_id ↔
  filter (λ l, ResourceLock.owner_phase l = phase_id)
         (_get_active_locks now reg path) ≠ [].
Proof.
  unfold holds_active. split.
  - intros [l [Hl Ho]] Hnil.
    by apply (filter_nil_not_elem_of _ _ l Hnil Ho).
  - intros Hne.
    destruct (filter _ _) as [|l ls] eqn:F; [done|].
    assert (l ∈ filter (λ l, ResourceLock.owner_phase l = phase_id)
                        (_get_active_locks now reg path)) as Hin by (rewrite F; left).
    apply list_elem_of_filter in Hin as [? ?]. eauto.
Qed.

(** The answer of [can_acquire] for a request [(path, phase_id,
    lock_type)], in a registry where every phase has at most one lock per
    path, in terms of the active locks recorded under the resolved path,
    the ones [can_acquire] looks at: [true] when there is none; for a
    phase that holds one, [true] unless the request is exclusive and
    another phase holds one there; for a phase that holds none, [false]
    for an exclusive request whenever there is one, and for a shared
    request [true] exactly when all of them are shared. *)
Theorem can_acquire_spec (now : datetime) (reg : LockRegistry.t)
    (path phase_id : string) (lock_type : LockType) :
  one_lock_per_phase reg →
  let active := _get_active_locks now reg (resolve path) in
  let answer := can_acquire resolve now reg path phase_id lock_type in
  (active = [] → answer = true) ∧
  (holds_active now reg (resolve path) phase_id →
     (answer = false ↔
      lock_type = EXCLUSIVE ∧
      ∃ l, l ∈ active ∧ ResourceLock.owner_phase l ≠ phase_id)) ∧
  (¬ holds_active now reg (resolve path) phase_id →
     active ≠ [] → lock_type = EXCLUSIVE → answer = false) ∧
  (¬ holds_active now reg (resolve path) phase_id →
     lock_type = SHARED →
     (answer = true ↔ Forall (λ l, ResourceLock.lock_type l = SHARED) active)).
Proof.
  intros Hone active answer.
  pose proof (others_active_iff now reg (resolve path) phase_id Hone) as Hothers.
  pose proof (holds_active_filter now reg (resolve path) phase_id) as Hholds.
  subst answer. unfold can_acquire. fold active in Hothers, Hholds |- *.
  split; [by intros ->|].
  split; [|split].
  - intros Hh. pose proof Hh as Hne%Hholds.
    destruct active as [|a0 al] eqn:Ha; [done|].
    destruct (filter _ (a0 :: al)) as [|p0 pl] eqn:Hp; [done|].
    split.
    + intros Hfalse.
      destruct (bool_decide (lock_type = EXCLUSIVE)) eqn:Hk; simpl in Hfalse; [|done].
      split; [by apply bool_decide_eq_true in Hk|].
      apply Hothers; [done|]. case_bool_decide; [done|discriminate].
    + intros [-> Hex]. apply Hothers in Hex; [|done].
      rewrite bool_decide_eq_true_2 by done. by rewrite bool_decide_eq_true_2.
  - intros Hno Hne ->.
    destruct active as [|a0 al] eqn:Ha; [done|].
    destruct (filter _ (a0 :: al)) as [|p0 pl] eqn:Hp; [done|].
    exfalso. apply Hno, Hholds. done.
  - intros Hno ->.
    destruct active as [|a0 al] eqn:Ha; [by split; [constructor|]|].
    destruct (filter _ (a0 :: al)) as [|p0 pl] eqn:Hp;
      [|exfalso; apply Hno, Hholds; done].
    rewrite bool_decide_eq_false_2 by done.
    rewrite <- Is_true_true, forallb_True. apply Forall_proper; [|done].
    intros l. by rewrite bool_decide_spec.
Qed.


Lemma filter_filter_not {A} (P : A → Prop) `{!∀ x, Decision (P x)} (l : list A) :
  filter P (filter (λ x, ¬ P x) l) = [].
Proof.
  induction l as [|x l IH]; [done|].
  rewrite (filter_cons (λ x, ¬ P x)). destruct (decide (¬ P x)); [|done].
  rewrite filter_cons. by destruct (decide (P x)).
Qed.

Lemma filter_comm {A} (P Q : A → Prop) `{!∀ x, Decision (P x)}
    `{!∀ x, Decision (Q x)} (l : list A) :
  filter P (filter Q l) = filter Q (filter P l).
Proof. rewrite !list_filter_filter. apply list_filter_iff. tauto. Qed.

Lemma one_lock_per_phase_empty : one_lock_per_phase LockRegistry.empty.
Proof. intros path phase_id. unfold locks_at. simpl. rewrite lookup_empty. simpl. lia. Qed.

Lemma acquire_lock_one_lock_per_phase now reg lock :
  one_lock_per_phase reg →
  one_lock_per_phase (acquire_lock resolve now reg lock).1.
Proof.
  intros Hone.
  destruct (acquire_lock resolve now reg lock).2 eqn:Hres;
    [|by rewrite acquire_lock_refused].
  intros p ph. rewrite acquire_locks_at by done. case_decide; [|apply Hone].
  subst p. rewrite filter_app, length_app.
  rewrite filter_singleton by exact [].
  destruct (decide (ResourceLock.owner_phase lock = ph)) as [<-|Hne].
  - rewrite filter_filter_not. simpl. lia.
  - pose proof (length_filter_filter (λ l, ResourceLock.owner_phase l = ph)
                  (λ l, ResourceLock.owner_phase l ≠ ResourceLock.owner_phase lock)
                  (locks_at reg (ResourceLock.resource_path lock))).
    specialize (Hone (ResourceLock.resource_path lock) ph). simpl. lia.
Qed.

(** C10: every phase holds at most one lock per resource path, and every
    operation of the registry keeps it so.  A successful [acquire_lock]
    removes the locks the requesting phase had on the path before it
    records the new one, which is then the only lock of that phase there:
    a re-acquisition or an upgrade replaces the previous lock. *)
Theorem one_lock_per_phase_preserved (now : datetime) (reg : LockRegistry.t) :
  one_lock_per_phase reg →
  (∀ lock,
     one_lock_per_phase (acquire_lock resolve now reg lock).1 ∧
     ((acquire_lock resolve now reg lock).2 = true →
      filter (λ l, ResourceLock.owner_phase l = ResourceLock.owner_phase lock)
             (locks_at (acquire_lock resolve now reg lock).1
                       (ResourceLock.resource_path lock)) = [lock])) ∧
  (∀ path phase_id, one_lock_per_phase (release_lock resolve reg path phase_id)) ∧
  (∀ phase_id, one_lock_per_phase (release_all_phase_locks reg phase_id)) ∧
  one_lock_per_phase (cleanup_expired_locks now reg).
Proof.
  intros Hone. split; [|split; [|split]].
  - intros lock. split; [by apply acquire_lock_one_lock_per_phase|].
    intros Hres. rewrite acquire_locks_at by done. rewrite decide_True by done.
    rewrite filter_app, filter_filter_not, filter_singleton by exact [].
    by rewrite decide_True.
  - intros path ph p ph'. unfold release_lock. rewrite remove_locks_at.
    case_decide; [|apply Hone].
    etrans; [apply length_filter_filter; apply _|apply Hone].
  - intros ph p ph'.
    destruct (release_all_locks_at reg ph p) as [-> | ->]; [apply Hone|].
    etrans; [apply length_filter_filter; apply _|apply Hone].
  - intros p ph. rewrite cleanup_locks_at.
    etrans; [apply length_filter_filter; apply _|apply Hone].
Qed.


Lemma compatible_filter (P : ResourceLock.t → Prop) `{!∀ x, Decision (P x)} ls :
  compatible ls → compatible (filter P ls).
Proof.
  intros [Hall | [l [-> Hex]]].
  - left. apply Forall_forall. intros x [_ Hx]%list_elem_of_filter.
    by eapply Forall_forall in Hall.
  - rewrite filter_singleton by exact []. case_decide.
    + right. eauto.
    + left. constructor.
Qed.

Lemma compatible_singleton (P : ResourceLock.t → Prop) `{!∀ x, Decision (P x)} l :
  compatible (filter P [l]).
Proof.
  apply compatible_filter.
  destruct (ResourceLock.lock_type l) eqn:Hk.
  - left. by repeat constructor.
  - right. eauto.
Qed.

(** When [can_acquire] grants a request, what the active locks on the
    resolved path look like. *)
Lemma can_acquire_granted now reg path phase_id lock_type :
  can_acquire resolve now reg path phase_id lock_type = true →
  let active := _get_active_locks now reg (resolve path) in
  let mine := filter (λ l, ResourceLock.owner_phase l = phase_id) active in
  active = [] ∨
  (mine ≠ [] ∧ (lock_type = EXCLUSIVE → (length active ≤ 1)%nat)) ∨
  (mine = [] ∧ lock_type = SHARED ∧
   Forall (λ l, ResourceLock.lock_type l = SHARED) active).
Proof.
  intros Hc active mine. unfold can_acquire in Hc. fold active in Hc. fold mine in Hc.
  destruct active as [|a0 al] eqn:Ha; [by left|]. right.
  destruct mine as [|m0 ml] eqn:Hm.
  - right. case_bool_decide as Hk; [done|].
    split; [done|]. split; [by destruct lock_type|].
    apply Is_true_true, forallb_True in Hc. eapply Forall_impl; [exact Hc|].
    intros l Hl. by apply bool_decide_unpack in Hl.
  - left. split; [done|]. intros ->.
    rewrite bool_decide_eq_true_2 in Hc by done. simpl in Hc.
    case_bool_decide; [done|]. simpl in *. lia.
Qed.

(** X8: the compatibility of the active locks on every path is kept by the
    operations of the registry, by [acquire_lock] for a lock whose path is
    already resolved (as [FileLock] builds it). *)
Lemma lock_compatibility_preserved (now : datetime) (reg : LockRegistry.t) :
  lock_compatibility now reg →
  (∀ lock,
     resolve (ResourceLock.resource_path lock) = ResourceLock.resource_path lock →
     lock_compatibility now (acquire_lock resolve now reg lock).1) ∧
  (∀ path phase_id, lock_compatibility now (release_lock resolve reg path phase_id)) ∧
  (∀ phase_id, lock_compatibility now (release_all_phase_locks reg phase_id)) ∧
  lock_compatibility now (cleanup_expired_locks now reg).
Proof.
  intros Hinv. split; [|split; [|split]].
  - intros lock Hcanon p.
    destruct (acquire_lock resolve now reg lock).2 eqn:Hres;
      [|by rewrite acquire_lock_refused].
    rewrite active_locks_at, acquire_locks_at by done.
    case_decide as Hp; [subst p|apply Hinv].
    rewrite filter_app, filter_comm, <- active_locks_at.
    rewrite acquire_lock_result in Hres.
    apply can_acquire_granted in Hres. rewrite Hcanon in Hres. simpl in Hres.
    specialize (Hinv (ResourceLock.resource_path lock)).
    set (a := _get_active_locks now reg (ResourceLock.resource_path lock)) in *.
    set (o := ResourceLock.owner_phase lock) in *.
    assert (∀ x, a = [x] → ResourceLock.owner_phase x = o →
              filter (λ l, ResourceLock.owner_phase l ≠ o) a = []) as Hsingle.
    { intros x -> Hx. rewrite filter_singleton by exact []. by rewrite decide_False by tauto. }
    assert (filter (λ l, ResourceLock.owner_phase l = o) a ≠ [] →
            ∀ x, a = [x] → ResourceLock.owner_phase x = o) as Hmine.
    { intros Hne x ->. rewrite filter_singleton in Hne by exact [].
      by case_decide. }
    destruct Hres as [Hnil | [[Hne Hex] | (Hnone & Hsh & Hall)]].
    + rewrite Hnil. simpl. apply compatible_singleton.
    + destruct (ResourceLock.lock_type lock) eqn:Hk.
      * destruct Hinv as [Hall | [x [Hx _]]].
        -- left. apply Forall_app. split.
           ++ apply Forall_forall. intros y [_ Hy]%list_elem_of_filter.
              by eapply Forall_forall in Hall.
           ++ apply Forall_forall. intros y [_ Hy]%list_elem_of_filter.
              apply list_elem_of_singleton in Hy. by subst.
        -- rewrite (Hsingle x) by eauto. apply compatible_singleton.
      * specialize (Hex eq_refl).
        destruct a as [|x [|y a']] eqn:Ha; simpl in Hex; [done| |lia].
        rewrite (Hsingle x) by eauto. apply compatible_singleton.
    + left. apply Forall_app. split.
      * apply Forall_forall. intros y [_ Hy]%list_elem_of_filter.
        by eapply Forall_forall in Hall.
      * apply Forall_forall. intros y [_ Hy]%list_elem_of_filter.
        apply list_elem_of_singleton in Hy. by subst.
  - intros path ph p. unfold release_lock.
    rewrite active_locks_at, remove_locks_at. case_decide; [|apply Hinv].
    rewrite filter_comm. apply compatible_filter, Hinv.
  - intros ph p. rewrite active_locks_at.
    destruct (release_all_locks_at reg ph p) as [-> | ->]; [apply Hinv|].
    rewrite filter_comm. apply compatible_filter, Hinv.
  - intros p. rewrite active_locks_at, cleanup_locks_at.
    apply compatible_filter, Hinv.
Qed.

End lock_registry.

(** *** Concrete registries *)

(** [resolve] on a file system without symbolic links whose working
    directory is [/work], for paths without empty, [.] or [..] components
    (which [Path.resolve] would remove as well): an absolute path is kept,
    a relative one is taken from the working directory. *)
Definition resolve_cwd (p : string) : string :=
  if String.prefix "/" p then p else "/work/" +:+ p.

Definition lock_a : ResourceLock.t :=
  ResourceLock.mk "data/out.txt" "phase-1" 0 EXCLUSIVE None.
Definition lock_b : ResourceLock.t :=
  ResourceLock.mk "data/out.txt" "phase-2" 0 EXCLUSIVE None.

(** Two phases ask for an exclusive lock with the same relative path. *)
Definition first_exclusive : LockRegistry.t * bool :=
  LockRegistry.acquire_lock resolve_cwd 0 LockRegistry.empty lock_a.
Definition second_exclusive : LockRegistry.t * bool :=
  LockRegistry.acquire_lock resolve_cwd 0 first_exclusive.1 lock_b.

(** A registry in which phase-1 holds a shared lock on [/work/a.txt]. *)
Definition lock_shared : ResourceLock.t :=
  ResourceLock.mk "/work/a.txt" "phase-1" 0 SHARED None.
Definition reg_shared : LockRegistry.t :=
  (LockRegistry.acquire_lock resolve_cwd 0 LockRegistry.empty lock_shared).1.

(** C4, at a lock whose path is not resolved: [acquire_lock] asks
    [can_acquire], which looks under the resolved path, and records the
    lock under the path as given.  Both exclusive requests are granted and
    the two exclusive locks are active under one key of the registry, so
    the compatibility invariant, which holds in the empty registry, is
    lost. *)
Theorem acquire_lock_unresolved_path :
  lock_compatibility 0 LockRegistry.empty ∧
  first_exclusive.2 = true ∧
  second_exclusive.2 = true ∧
  LockRegistry._get_active_locks 0 second_exclusive.1 "data/out.txt" = [lock_a; lock_b] ∧
  ¬ lock_compatibility 0 second_exclusive.1.
Proof.
  assert (LockRegistry._get_active_locks 0 second_exclusive.1 "data/out.txt"
          = [lock_a; lock_b]) as Hactive by (by vm_compute).
  split; [|split; [by vm_compute|split; [by vm_compute|split; [done|]]]].
  - intros path. left. unfold LockRegistry._get_active_locks. simpl.
    rewrite lookup_empty. constructor.
  - intros Hinv. specialize (Hinv "data/out.txt"). rewrite Hactive in Hinv.
    destruct Hinv as [Hall | [l [[=] _]]].
    by apply Forall_cons in Hall as [[=] _].
Qed.

Lemma reg_shared_one_lock_per_phase : one_lock_per_phase reg_shared.
Proof. apply acquire_lock_one_lock_per_phase, one_lock_per_phase_empty. Qed.

Lemma can_acquire_spec_witness :
  one_lock_per_phase reg_shared ∧
  (holds_active 0 reg_shared (resolve_cwd "a.txt") "phase-1" →
   (LockRegistry.can_acquire resolve_cwd 0 reg_shared "a.txt" "phase-1" EXCLUSIVE = false ↔
    EXCLUSIVE = EXCLUSIVE ∧
    ∃ l, l ∈ LockRegistry._get_active_locks 0 reg_shared (resolve_cwd "a.txt") ∧
         ResourceLock.owner_phase l ≠ "phase-1")).
Proof.
  split; [exact reg_shared_one_lock_per_phase|].
  exact (proj1 (proj2 (can_acquire_spec resolve_cwd 0 reg_shared "a.txt" "phase-1"
                         EXCLUSIVE reg_shared_one_lock_per_phase))).
Defined.

Lemma one_lock_per_phase_preserved_witness :
  one_lock_per_phase reg_shared ∧
  one_lock_per_phase
    (LockRegistry.acquire_lock resolve_cwd 0 reg_shared
       (ResourceLock.mk "/work/a.txt" "phase-1" 1 EXCLUSIVE None)).1.
Proof.
  split; [exact reg_shared_one_lock_per_phase|].
  exact (proj1 (proj1 (one_lock_per_phase_preserved resolve_cwd 0 reg_shared
                         reg_shared_one_lock_per_phase) _)).
Defined.

(** ** The lock registry: the phase index and the queries *)

Section lock_index.
Import LockRegistry.
Variable resolve : string → string.

(** The paths [_phase_locks] records for a phase. *)
Definition paths_of (reg : LockRegistry.t) (phase_id : string) : gset string :=
  default ∅ (_phase_locks reg !! phase_id).

(** [_phase_locks] lists a path for a phase exactly when the phase has a
    lock, expired or not, under that key of [_locks]. *)
Definition phase_index_ok (reg : LockRegistry.t) : Prop :=
  ∀ phase_id path,
    path ∈ paths_of reg phase_id ↔
    ∃ l, l ∈ locks_at reg path ∧ ResourceLock.owner_phase l = phase_id.

Lemma remove_paths_of reg path phase_id ph :
  paths_of (_remove_phase_lock reg path phase_id) ph =
  if decide (ph = phase_id) then paths_of reg ph ∖ {[path]} else paths_of reg ph.
Proof.
  unfold paths_of, _remove_phase_lock; simpl.
  destruct (_phase_locks reg !! phase_id) as [paths|] eqn:E.
  - destruct (decide (paths ∖ {[path]} = ∅)) as [Hempty|Hne];
      destruct (decide (ph = phase_id)) as [->|?].
    + rewrite lookup_delete_eq, E. simpl. by rewrite Hempty.
    + by rewrite lookup_delete_ne.
    + by rewrite lookup_insert_eq, E.
    + by rewrite lookup_insert_ne.
  - destruct (decide (ph = phase_id)) as [->|?]; [|done].
    rewrite E. simpl. set_solver.
Qed.

Lemma phase_index_empty : phase_index_ok LockRegistry.empty.
Proof.
  intros ph path. unfold paths_of, locks_at. simpl. rewrite !lookup_empty. simpl.
  split; [set_solver|]. intros [l [Hl _]]. by apply not_elem_of_nil in Hl.
Qed.

Lemma remove_phase_index reg path phase_id :
  phase_index_ok reg → phase_index_ok (_remove_phase_lock reg path phase_id).
Proof.
  clear resolve.
  intros Hok ph p. rewrite remove_paths_of, remove_locks_at.
  specialize (Hok ph p).
  destruct (decide (ph = phase_id)) as [->|Hph]; destruct (decide (p = path)) as [->|Hp].
  - split; [set_solver|]. intros [l [Hl Ho]].
    apply list_elem_of_filter in Hl as [Hne _]. done.
  - rewrite <- Hok. set_solver.
  - rewrite Hok. split; intros [l [Hl Ho]]; exists l; split; try done.
    + apply list_elem_of_filter. split; [congruence|done].
    + by apply list_elem_of_filter in Hl as [_ ?].
  - done.
Qed.

Lemma acquire_paths_of now reg lock ph :
  (acquire_lock resolve now reg lock).2 = true →
  paths_of (acquire_lock resolve now reg lock).1 ph =
  if decide (ph = ResourceLock.owner_phase lock)
  then paths_of reg ph ∪ {[ResourceLock.resource_path lock]}
  else paths_of reg ph.
Proof.
  unfold acquire_lock. destruct (can_acquire _ _ _ _ _ _); [|done]. intros _. simpl.
  pose proof (remove_paths_of reg (ResourceLock.resource_path lock)
                (ResourceLock.owner_phase lock)) as Hrem.
  unfold paths_of in *. simpl.
  destruct (decide (ph = ResourceLock.owner_phase lock)) as [->|Hne].
  - rewrite lookup_insert_eq. simpl. rewrite Hrem, decide_True by done.
    apply set_eq. intros x. rewrite !elem_of_union, elem_of_difference.
    destruct (decide (x = ResourceLock.resource_path lock)); set_solver.
  - rewrite lookup_insert_ne by done. rewrite Hrem. by rewrite decide_False.
Qed.

Lemma acquire_phase_index now reg lock :
  phase_index_ok reg → phase_index_ok (acquire_lock resolve now reg lock).1.
Proof.
  intros Hok.
  destruct ((acquire_lock resolve now reg lock).2) eqn:Hres;
    [|by rewrite acquire_lock_refused].
  intros ph p. rewrite acquire_paths_of, (acquire_locks_at resolve) by done.
  specialize (Hok ph p).
  destruct (decide (ph = ResourceLock.owner_phase lock)) as [->|Hph];
    destruct (decide (p = ResourceLock.resource_path lock)) as [->|Hp].
  - split; [|set_solver]. intros _. exists lock. split; [|done].
    apply elem_of_app. right. left.
  - rewrite elem_of_union, Hok. set_solver.
  - rewrite Hok. split; intros [l [Hl Ho]]; exists l; split; try done.
    + apply elem_of_app. left. apply list_elem_of_filter. split; [congruence|done].
    + apply elem_of_app in Hl as [Hl|Hl].
      * by apply list_elem_of_filter in Hl as [_ ?].
      * apply list_elem_of_singleton in Hl. congruence.
  - done.
Qed.

Lemma remove_all_phase_index reg phase_id paths :
  phase_index_ok reg →
  phase_index_ok (foldl (λ reg path, _remove_phase_lock reg path phase_id) reg paths).
Proof.
  clear resolve.
  revert reg. induction paths as [|path paths IH]; intros reg Hok; simpl; [done|].
  by apply IH, remove_phase_index.
Qed.

Lemma cleanup_paths_eq now reg ph :
  paths_of (cleanup_expired_locks now reg) ph =
  filter (λ path, Exists (λ l, ResourceLock.owner_phase l = ph)
                         (locks_at (cleanup_expired_locks now reg) path))
         (paths_of reg ph).
Proof.
  unfold paths_of, locks_at, cleanup_expired_locks. simpl.
  rewrite map_lookup_imap.
  destruct (_phase_locks reg !! ph) as [paths|]; simpl.
  - case_decide as Hempty; simpl; [by rewrite Hempty|done].
  - set_solver.
Qed.

Lemma cleanup_paths_of now reg ph path :
  path ∈ paths_of (cleanup_expired_locks now reg) ph ↔
  path ∈ paths_of reg ph ∧
  ∃ l, l ∈ locks_at (cleanup_expired_locks now reg) path ∧
       ResourceLock.owner_phase l = ph.
Proof. rewrite cleanup_paths_eq, elem_of_filter, Exists_exists. tauto. Qed.

Lemma cleanup_phase_index now reg :
  phase_index_ok reg → phase_index_ok (cleanup_expired_locks now reg).
Proof.
  intros Hok ph p. rewrite cleanup_paths_of. split; [tauto|].
  intros [l [Hl Ho]]. split; [|by exists l].
  apply Hok. exists l. split; [|done].
  rewrite cleanup_locks_at in Hl. by apply list_elem_of_filter in Hl as [_ ?].
Qed.

(** X1: the phase index stays in step with the locks: if [_phase_locks]
    lists exactly the paths under which each phase has a lock, it still
    does after [acquire_lock], [release_lock], [release_all_phase_locks]
    and [cleanup_expired_locks]. *)
Theorem phase_index_preserved (now : datetime) (reg : LockRegistry.t) :
  phase_index_ok reg →
  (∀ lock, phase_index_ok (acquire_lock resolve now reg lock).1) ∧
  (∀ path phase_id, phase_index_ok (release_lock resolve reg path phase_id)) ∧
  (∀ phase_id, phase_index_ok (release_all_phase_locks reg phase_id)) ∧
  phase_index_ok (cleanup_expired_locks now reg).
Proof.
  intros Hok. split; [|split; [|split]].
  - intros lock. by apply acquire_phase_index.
  - intros path ph. by apply remove_phase_index.
  - intros ph. by apply remove_all_phase_index.
  - by apply cleanup_phase_index.
Qed.

Lemma filter_others_id (ls : list ResourceLock.t) phase_id :
  (∀ l, l ∈ ls → ResourceLock.owner_phase l ≠ phase_id) →
  filter (λ l, ResourceLock.owner_phase l ≠ phase_id) ls = ls.
Proof.
  induction ls as [|x ls IH]; intros Hall; [done|].
  rewrite filter_cons_True by (apply Hall; left).
  rewrite IH; [done|]. intros l Hl. apply Hall. by right.
Qed.

Lemma remove_all_locks_at reg phase_id paths p :
  locks_at (foldl (λ reg path, _remove_phase_lock reg path phase_id) reg paths) p =
  if decide (p ∈ paths)
  then filter (λ l, ResourceLock.owner_phase l ≠ phase_id) (locks_at reg p)
  else locks_at reg p.
Proof.
  clear resolve.
  revert reg. induction paths as [|path paths IH]; intros reg; cbn [foldl].
  - case_decide as Hin; [by apply not_elem_of_nil in Hin|done].
  - rewrite IH, remove_locks_at.
    destruct (decide (p ∈ path :: paths)) as [Hin|Hnin].
    + destruct (decide (p = path)) as [->|Hne].
      * destruct (decide (path ∈ paths)); [|done].
        rewrite list_filter_filter. apply list_filter_iff. tauto.
      * apply elem_of_cons in Hin as [?|Hin]; [done|]. by rewrite decide_True.
    + apply not_elem_of_cons in Hnin as [? ?].
      by rewrite decide_False, decide_False.
Qed.

Lemma release_all_locks_eq reg phase_id p :
  phase_index_ok reg →
  locks_at (release_all_phase_locks reg phase_id) p =
  filter (λ l, ResourceLock.owner_phase l ≠ phase_id) (locks_at reg p).
Proof.
  clear resolve.
  intros Hok. unfold release_all_phase_locks. rewrite remove_all_locks_at.
  fold (paths_of reg phase_id).
  destruct (decide (p ∈ elements (paths_of reg phase_id))) as [|Hnin]; [done|].
  symmetry. apply filter_others_id. intros l Hl Ho. apply Hnin.
  apply elem_of_elements, Hok. by exists l.
Qed.

(** X2: in a registry whose phase index is in step,
    [release_all_phase_locks] removes every lock of the phase, under every
    path, leaves the locks of the other phases as they are and in their
    order, and empties the phase's entry of the index. *)
Theorem release_all_phase_locks_releases (reg : LockRegistry.t) (phase_id : string) :
  phase_index_ok reg →
  let reg' := release_all_phase_locks reg phase_id in
  (∀ path l, l ∈ locks_at reg' path → ResourceLock.owner_phase l ≠ phase_id) ∧
  (∀ path other, other ≠ phase_id →
     filter (λ l, ResourceLock.owner_phase l = other) (locks_at reg' path) =
     filter (λ l, ResourceLock.owner_phase l = other) (locks_at reg path)) ∧
  paths_of reg' phase_id = ∅.
Proof.
  clear resolve.
  intros Hok reg'. split; [|split].
  - intros path l. unfold reg'. rewrite release_all_locks_eq by done.
    by intros [? _]%list_elem_of_filter.
  - intros path other Hne. unfold reg'. rewrite release_all_locks_eq by done.
    rewrite list_filter_filter. apply list_filter_iff. intros l. split; [tauto|].
    intros <-. done.
  - apply set_eq. intros path. split; [|set_solver].
    intros Hin.
    assert (phase_index_ok reg') as Hok' by by apply remove_all_phase_index.
    apply Hok' in Hin as [l [Hl Ho]]. unfold reg' in Hl.
    rewrite release_all_locks_eq in Hl by done.
    by apply list_elem_of_filter in Hl as [? _].
Qed.

Lemma cleanup_active_locks now reg path :
  _get_active_locks now (cleanup_expired_locks now reg) path
  = _get_active_locks now reg path.
Proof.
  rewrite !active_locks_at, cleanup_locks_at.
  rewrite list_filter_filter. apply list_filter_iff. tauto.
Qed.

Lemma can_acquire_active now reg reg' path phase_id lock_type :
  _get_active_locks now reg' (resolve path) = _get_active_locks now reg (resolve path) →
  can_acquire resolve now reg' path phase_id lock_type
  = can_acquire resolve now reg path phase_id lock_type.
Proof. unfold can_acquire. by intros ->. Qed.

(** X3: [cleanup_expired_locks] leaves no expired lock in the registry and
    changes no answer: the active locks of every path, hence every answer
    of [can_acquire], are the same before and after. *)
Theorem cleanup_expired_locks_transparent (now : datetime) (reg : LockRegistry.t) :
  let reg' := cleanup_expired_locks now reg in
  (∀ path l, l ∈ locks_at reg' path → ResourceLock.is_expired now l = false) ∧
  (∀ path, _get_active_locks now reg' path = _get_active_locks now reg path) ∧
  (∀ path phase_id lock_type,
     can_acquire resolve now reg' path phase_id lock_type
     = can_acquire resolve now reg path phase_id lock_type).
Proof.
  intros reg'. split; [|split].
  - intros path l. unfold reg'. rewrite cleanup_locks_at.
    intros [Hl _]%list_elem_of_filter. by destruct (ResourceLock.is_expired now l).
  - intros path. apply cleanup_active_locks.
  - intros path ph ty. apply can_acquire_active, cleanup_active_locks.
Qed.

Lemma can_acquire_false_nonempty now reg path phase_id lock_type :
  can_acquire resolve now reg path phase_id lock_type = false →
  _get_active_locks now reg (resolve path) ≠ [].
Proof. unfold can_acquire. by intros H Hnil; rewrite Hnil in H. Qed.

Lemma forallb_false_exists {A} (f : A → bool) (l : list A) :
  forallb f l = false → ∃ x, x ∈ l ∧ f x = false.
Proof.
  induction l as [|x l IH]; simpl; [done|].
  destruct (f x) eqn:Hx; simpl.
  - intros [y [? ?]]%IH. exists y. split; [by right|done].
  - intros _. exists x. split; [left|done].
Qed.

(** X4: for a path that is already resolved, in a registry where a phase
    has at most one lock per path, [detect_conflicts] reports no lock
    exactly when [can_acquire] grants the request; every lock it reports
    is an active lock of another phase on the path, and an exclusive one
    when the request is shared. *)
Theorem detect_conflicts_spec (now : datetime) (reg : LockRegistry.t)
    (request : LockRequest.t) :
  one_lock_per_phase reg →
  resolve (LockRequest.resource_path request) = LockRequest.resource_path request →
  let conflicts := detect_conflicts resolve now reg request in
  (conflicts = [] ↔
   can_acquire resolve now reg (LockRequest.resource_path request)
     (LockRequest.phase_id request) (LockRequest.lock_type request) = true) ∧
  (∀ l, l ∈ conflicts →
     l ∈ _get_active_locks now reg (LockRequest.resource_path request) ∧
     ResourceLock.owner_phase l ≠ LockRequest.phase_id request ∧
     (LockRequest.lock_type request = SHARED → ResourceLock.lock_type l = EXCLUSIVE)).
Proof.
  destruct request as [path ph ty tmo]. intros Hone Hres conflicts.
  subst conflicts. unfold detect_conflicts. simpl in *.
  destruct (can_acquire resolve now reg path ph ty) eqn:Hcan.
  { split; [done|]. by intros l ?%not_elem_of_nil. }
  set (a := _get_active_locks now reg path).
  assert (∃ l, l ∈ a ∧ ResourceLock.owner_phase l ≠ ph ∧
               (ty = SHARED → ResourceLock.lock_type l = EXCLUSIVE)) as Hex.
  { unfold can_acquire in Hcan. rewrite Hres in Hcan. fold a in Hcan.
    destruct a as [|x a'] eqn:Ha; [done|]. rewrite <- Ha in *.
    destruct (filter (λ l, ResourceLock.owner_phase l = ph) a) as [|y ys] eqn:Hown.
    - assert (∀ l, l ∈ a → ResourceLock.owner_phase l ≠ ph) as Hothers.
      { intros l Hl Ho. by apply (filter_nil_not_elem_of _ _ l Hown Ho). }
      destruct ty; simpl in Hcan.
      + apply forallb_false_exists in Hcan as [l [Hl Hty]].
        exists l. split; [done|]. split; [by apply Hothers|]. intros _.
        apply bool_decide_eq_false in Hty.
        by destruct (ResourceLock.lock_type l).
      + exists x. split; [rewrite Ha; left|]. split; [|done].
        apply Hothers. rewrite Ha. left.
    - assert (holds_active now reg path ph) as Hholds.
      { apply holds_active_filter. fold a. by rewrite Hown. }
      destruct (bool_decide (ty = EXCLUSIVE)) eqn:Hty; simpl in Hcan; [|done].
      apply bool_decide_eq_true in Hty as ->.
      case_bool_decide as Hlen; [|done].
      apply (others_active_iff now reg path ph Hone Hholds) in Hlen as [l [Hl Ho]].
      exists l. by repeat split. }
  split.
  - split; [|done]. intros Hnil. exfalso. destruct Hex as [l [Hl [Ho Hty]]].
    destruct (decide (ty = SHARED)) as [->|Hne].
    + eapply (filter_nil_not_elem_of _ _ l Hnil); [by apply Hty|].
      by apply list_elem_of_filter.
    + by eapply (filter_nil_not_elem_of _ _ l Hnil).
  - intros l. destruct (decide (ty = SHARED)) as [->|Hne].
    + intros [Hty [Ho Hl]%list_elem_of_filter]%list_elem_of_filter. done.
    + intros [Ho Hl]%list_elem_of_filter. done.
Qed.

(** A lock that has not expired had not expired earlier. *)
Lemma is_expired_mono now now' l :
  now ≤ now' → ¬ ResourceLock.is_expired now' l → ¬ ResourceLock.is_expired now l.
Proof.
  clear resolve. unfold ResourceLock.is_expired. destruct (ResourceLock.expires_at l); [|done].
  intros Hle Hlive Hexp. apply Hlive.
  apply bool_decide_unpack in Hexp. apply bool_decide_pack. lia.
Qed.

Lemma filter_nil_forall {A} (P : A → Prop) `{!∀ x, Decision (P x)} (l : list A) :
  (∀ x, x ∈ l → ¬ P x) → filter P l = [].
Proof.
  clear resolve. induction l as [|x l IH]; intros Hall; [done|].
  rewrite filter_cons_False by (apply Hall; left).
  apply IH. intros y Hy. apply Hall. by right.
Qed.

(** When [acquire_lock] grants an exclusive lock on a resolved path, no
    other phase has an active lock there at that time. *)
Lemma exclusive_grant_alone now reg lock :
  resolve (ResourceLock.resource_path lock) = ResourceLock.resource_path lock →
  ResourceLock.lock_type lock = EXCLUSIVE →
  (acquire_lock resolve now reg lock).2 = true →
  filter (λ l, ResourceLock.owner_phase l ≠ ResourceLock.owner_phase lock)
         (_get_active_locks now reg (ResourceLock.resource_path lock)) = [].
Proof.
  intros Hres Hexcl Hacq.
  set (path := ResourceLock.resource_path lock) in *.
  set (owner := ResourceLock.owner_phase lock) in *.
  rewrite acquire_lock_result in Hacq. unfold can_acquire in Hacq.
  fold path owner in Hacq. rewrite Hres, Hexcl in Hacq.
  destruct (_get_active_locks now reg path) as [|x a'] eqn:Ha; [done|].
  destruct (filter (λ l, ResourceLock.owner_phase l = owner) (x :: a'))
    as [|y ys] eqn:Hown; [done|].
  simpl in Hacq. case_bool_decide as Hlen; [done|].
  destruct a' as [|z a'']; [|simpl in Hlen; lia].
  rewrite filter_singleton in Hown |- * by exact [].
  destruct (decide (ResourceLock.owner_phase x = owner)) as [Hx|?]; [|done].
  by rewrite decide_False by (by intros ?).
Qed.

(** X5: once [acquire_lock] has granted an exclusive lock on an already
    resolved path, [can_acquire] refuses every request of every other
    phase on that path, asked of the registry as the grant left it at the
    time of the grant or at any later time at which the lock has not
    expired. *)
Theorem exclusive_lock_excludes (now now' : datetime) (reg : LockRegistry.t)
    (lock : ResourceLock.t) :
  resolve (ResourceLock.resource_path lock) = ResourceLock.resource_path lock →
  ResourceLock.lock_type lock = EXCLUSIVE →
  (acquire_lock resolve now reg lock).2 = true →
  now ≤ now' →
  ResourceLock.is_expired now' lock = false →
  ∀ phase_id lock_type,
    phase_id ≠ ResourceLock.owner_phase lock →
    can_acquire resolve now' (acquire_lock resolve now reg lock).1
      (ResourceLock.resource_path lock) phase_id lock_type = false.
Proof.
  intros Hres Hexcl Hacq Hlater Hlive ph ty Hph.
  pose proof (exclusive_grant_alone now reg lock Hres Hexcl Hacq) as Halone.
  set (path := ResourceLock.resource_path lock) in *.
  set (owner := ResourceLock.owner_phase lock) in *.
  assert (_get_active_locks now' (acquire_lock resolve now reg lock).1 path = [lock])
    as Hactive.
  { rewrite active_locks_at, (acquire_locks_at resolve) by done.
    fold path owner. rewrite decide_True by done.
    rewrite filter_app, filter_singleton by exact [].
    rewrite decide_True by (rewrite Hlive; exact id).
    rewrite (filter_nil_forall _ (filter _ _)); [done|].
    intros x [Hx Hin]%list_elem_of_filter Hx'.
    assert (x ∈ filter (λ l, ResourceLock.owner_phase l ≠ owner)
                  (_get_active_locks now reg path)) as Hbad.
    { apply list_elem_of_filter. split; [done|].
      rewrite active_locks_at. apply list_elem_of_filter. split; [|done].
      by apply (is_expired_mono now now'). }
    rewrite Halone in Hbad. by apply not_elem_of_nil in Hbad. }
  unfold can_acquire. fold path. rewrite Hres, Hactive.
  rewrite filter_singleton by exact []. fold owner.
  rewrite decide_False by done.
  destruct ty; simpl; [|done]. rewrite Hexcl. done.
Qed.
(** X6: in a registry whose phase index is in step, [get_phase_locks]
    returns exactly the active locks the phase owns, whatever the path. *)
Theorem get_phase_locks_spec (now : datetime) (reg : LockRegistry.t)
    (phase_id : string) (l : ResourceLock.t) :
  phase_index_ok reg →
  l ∈ get_phase_locks now reg phase_id ↔
  ∃ path, l ∈ _get_active_locks now reg path ∧ ResourceLock.owner_phase l = phase_id.
Proof.
  intros Hok. unfold get_phase_locks. fold (paths_of reg phase_id).
  rewrite list_elem_of_bind. split.
  - intros [path [Hl _]]. fold (locks_at reg path) in Hl.
    apply list_elem_of_filter in Hl as [[Ho Hlive] Hl]. exists path.
    split; [|done]. rewrite active_locks_at. by apply list_elem_of_filter.
  - intros [path [Hl Ho]]. exists path. rewrite active_locks_at in Hl.
    apply list_elem_of_filter in Hl as [Hlive Hl]. fold (locks_at reg path). split.
    + by apply list_elem_of_filter.
    + apply elem_of_elements, Hok. by exists l.
Qed.

Lemma length_concat_sum {A} (ls : list (list A)) :
  length (concat ls) = sum_list (length <$> ls).
Proof.
  induction ls as [|l ls IH]; [done|].
  rewrite fmap_cons. cbn [concat]. rewrite length_app, IH. done.
Qed.

Lemma length_le_sum {A} (ls : list (list A)) :
  Forall (λ l, l ≠ []) ls → (length ls ≤ sum_list (length <$> ls))%nat.
Proof.
  induction 1 as [|l ls Hl _ IH]; simpl; [done|].
  change (list_fmap (list A) nat length ls) with (length <$> ls).
  destruct l; [done|]. simpl. lia.
Qed.

Lemma size_list_to_set_le (l : list string) :
  (size (list_to_set l : gset string) ≤ length l)%nat.
Proof.
  induction l as [|x l IH].
  - change (list_to_set [] : gset string) with (∅ : gset string).
    by rewrite size_empty.
  - change (list_to_set (x :: l) : gset string)
      with ({[x]} ∪ list_to_set l : gset string).
    rewrite size_union_alt, size_singleton. simpl.
    pose proof (subseteq_size (list_to_set l ∖ {[x]}) (list_to_set l : gset string)
                  ltac:(set_solver)).
    lia.
Qed.

Lemma elem_of_concat {A} (x : A) (ls : list (list A)) :
  x ∈ concat ls ↔ ∃ l, x ∈ l ∧ l ∈ ls.
Proof.
  induction ls as [|l0 ls IH]; simpl.
  - split; [by intros ?%not_elem_of_nil|]. by intros [l [_ ?%not_elem_of_nil]].
  - rewrite elem_of_app, IH. split.
    + intros [?|[l [? ?]]]; [exists l0|exists l]; split; try done; [left|by right].
    + intros [l [Hx [->|?]%elem_of_cons]]; [by left|]. right. by exists l.
Qed.

Lemma elem_of_values {V} (m : gmap string V) (v : V) :
  v ∈ (map_to_list m).*2 ↔ ∃ k, m !! k = Some v.
Proof.
  rewrite list_elem_of_fmap. split.
  - intros [[k v'] [-> Hin]]. exists k. by apply elem_of_map_to_list.
  - intros [k Hk]. exists (k, v). split; [done|]. by apply elem_of_map_to_list.
Qed.

(** X7: the numbers of [get_stats] are consistent: the shared and the
    exclusive locks add up to the total, none of the three is negative,
    and neither the locked resources nor the phases with locks outnumber
    the active locks. *)
Theorem get_stats_consistent (now : datetime) (reg : LockRegistry.t) :
  let s := (get_stats now reg).2 in
  0 ≤ shared_locks s ∧ 0 ≤ exclusive_locks s ∧
  shared_locks s + exclusive_locks s = total_active_locks s ∧
  locked_resources s ≤ total_active_locks s ∧
  phases_with_locks s ≤ total_active_locks s.
Proof.
  intros s. subst s. unfold get_stats. cbv zeta.
  cbn [snd shared_locks exclusive_locks total_active_locks locked_resources
       phases_with_locks].
  set (reg' := cleanup_expired_locks now reg).
  set (values := (map_to_list (_locks reg')).*2).
  assert (Forall (λ l : list ResourceLock.t, l ≠ []) values) as Hnonempty.
  { apply Forall_forall. intros ls [k Hk]%elem_of_values.
    unfold reg', cleanup_expired_locks in Hk. simpl in Hk.
    apply lookup_omap_Some in Hk as [ls0 [Hf _]].
    destruct (filter _ ls0); [done|]. by injection Hf as <-. }
  pose proof (length_filter (λ lock, ResourceLock.lock_type lock = SHARED)
                (concat values)) as Hshared.
  rewrite length_concat_sum in Hshared.
  pose proof (length_le_sum values Hnonempty) as Hres.
  assert (length values = size (_locks reg')) as Hsize.
  { unfold values. by rewrite length_fmap, length_map_to_list. }
  assert (size (_phase_locks reg') ≤ length (concat values))%nat as Hphases.
  { rewrite <- (size_dom (D := gset string)).
    pose proof (size_list_to_set_le (ResourceLock.owner_phase <$> concat values))
      as Hle.
    rewrite length_fmap in Hle. etrans; [|exact Hle].
    apply subseteq_size. intros ph [paths Hpaths]%elem_of_dom.
    apply elem_of_list_to_set, list_elem_of_fmap.
    unfold reg' in Hpaths. unfold cleanup_expired_locks in Hpaths at 1.
    simpl in Hpaths. rewrite map_lookup_imap in Hpaths.
    destruct (_phase_locks reg !! ph) as [paths0|]; simpl in Hpaths; [|done].
    case_decide as Hempty; [done|]. injection Hpaths as <-.
    apply set_choose_L in Hempty as [path Hpath].
    apply elem_of_filter in Hpath as [Hlock _].
    apply Exists_exists in Hlock as [l [Hl Ho]].
    exists l. split; [done|].
    apply elem_of_concat. exists (default [] (_locks reg' !! path)).
    split; [exact Hl|]. apply elem_of_values.
    unfold reg'. destruct (_locks (cleanup_expired_locks now reg) !! path) eqn:E.
    - by exists path.
    - unfold cleanup_expired_locks in Hl. simpl in *. rewrite E in Hl.
      by apply not_elem_of_nil in Hl. }
  rewrite length_concat_sum in Hphases. lia.
Qed.

End lock_index.

Lemma filter_all_id {A} (P : A → Prop) `{!∀ x, Decision (P x)} (l : list A) :
  (∀ x, x ∈ l → P x) → filter P l = l.
Proof.
  induction l as [|x l IH]; intros Hall; [done|].
  rewrite filter_cons_True by (apply Hall; left).
  rewrite IH; [done|]. intros y Hy. apply Hall. by right.
Qed.

(** X9: in a registry whose phase index is in step,
    [_cleanup_wave_resources] leaves the phase index in step and removes
    exactly the locks owned by the phases of the wave, under every path;
    the locks of all other phases stay, in their order. *)
Theorem cleanup_wave_resources_releases (reg : LockRegistry.t)
    (wave : ExecutionWave.t) :
  phase_index_ok reg →
  let reg' := WaveExecutor._cleanup_wave_resources reg wave in
  phase_index_ok reg' ∧
  ∀ path,
    locks_at reg' path =
    filter (λ l, ResourceLock.owner_phase l ∉ ExecutionWave.phases wave)
           (locks_at reg path).
Proof.
  unfold WaveExecutor._cleanup_wave_resources.
  generalize (ExecutionWave.phases wave). intros phases. revert reg.
  induction phases as [|ph phases IH] using rev_ind; intros reg Hok; simpl.
  - split; [done|]. intros path. symmetry. apply filter_all_id.
    intros l _. apply not_elem_of_nil.
  - rewrite foldl_snoc. destruct (IH reg Hok) as [Hok' Hlocks]. split.
    + by apply remove_all_phase_index.
    + intros path. rewrite release_all_locks_eq, Hlocks by done.
      rewrite list_filter_filter. apply list_filter_iff. intros l.
      rewrite elem_of_app, list_elem_of_singleton. tauto.
Qed.

(** ** The lock registry: the locks on a path *)

Section lock_paths.
Import LockRegistry.
Variable resolve : string → string.

(** Every lock the registry holds, under whatever key. *)
Definition all_locks (reg : LockRegistry.t) : list ResourceLock.t :=
  concat (map_to_list (_locks reg)).*2.

(** The active locks on the file that [path] names: the locks of the
    registry that have not expired and whose own [resource_path] resolves
    to the same file. *)
Definition active_on (now : datetime) (reg : LockRegistry.t) (path : string)
    : list ResourceLock.t :=
  filter (λ l, ¬ ResourceLock.is_expired now l ∧
               resolve (ResourceLock.resource_path l) = resolve path)
         (all_locks reg).

(** Every lock is recorded under its resolved path. *)
Definition keyed_by_resolved (reg : LockRegistry.t) : Prop :=
  ∀ key l, l ∈ locks_at reg key → key = resolve (ResourceLock.resource_path l).

Lemma elem_of_all_locks reg l :
  l ∈ all_locks reg ↔ ∃ key, l ∈ locks_at reg key.
Proof.
  clear resolve. unfold all_locks, locks_at. rewrite elem_of_concat. split.
  - intros [ls [Hl [key Hkey]%elem_of_values]]. exists key. by rewrite Hkey.
  - intros [key Hl]. destruct (_locks reg !! key) as [ls|] eqn:Hkey; simpl in Hl.
    + exists ls. split; [done|]. apply elem_of_values. eauto.
    + by apply not_elem_of_nil in Hl.
Qed.

(** In such a registry the locks [can_acquire] looks at are the active
    locks on the path. *)
Lemma active_on_resolved now reg path l :
  keyed_by_resolved reg →
  l ∈ active_on now reg path ↔ l ∈ _get_active_locks now reg (resolve path).
Proof.
  intros Hkeys. unfold active_on. rewrite active_locks_at, !list_elem_of_filter.
  rewrite elem_of_all_locks. split.
  - intros [[Hlive Hpath] [key Hl]]. split; [done|].
    by rewrite <- Hpath, <- (Hkeys key l Hl).
  - intros [Hlive Hl]. split; [|eauto]. split; [done|]. symmetry. by apply Hkeys.
Qed.

Lemma keyed_by_resolved_empty : keyed_by_resolved LockRegistry.empty.
Proof.
  intros key l. unfold locks_at. simpl. rewrite lookup_empty. simpl.
  by intros ?%not_elem_of_nil.
Qed.

(** The registry stays keyed by resolved paths as long as the locks
    acquired carry a resolved path, as those [FileLock] builds do. *)
Lemma keyed_by_resolved_preserved now reg :
  keyed_by_resolved reg →
  (∀ lock,
     resolve (ResourceLock.resource_path lock) = ResourceLock.resource_path lock →
     keyed_by_resolved (acquire_lock resolve now reg lock).1) ∧
  (∀ path phase_id, keyed_by_resolved (release_lock resolve reg path phase_id)) ∧
  (∀ phase_id, keyed_by_resolved (release_all_phase_locks reg phase_id)) ∧
  keyed_by_resolved (cleanup_expired_locks now reg).
Proof.
  intros Hkeys. split; [|split; [|split]].
  - intros lock Hres.
    destruct (acquire_lock resolve now reg lock).2 eqn:Hacq;
      [|by rewrite acquire_lock_refused].
    intros key l. rewrite (acquire_locks_at resolve) by done.
    case_decide as Hkey; [|apply Hkeys]. subst key.
    intros [[_ Hl]%list_elem_of_filter| ->%list_elem_of_singleton]%elem_of_app;
      [by apply Hkeys|done].
  - intros path ph key l. unfold release_lock. rewrite remove_locks_at.
    case_decide; [|apply Hkeys]. intros [_ Hl]%list_elem_of_filter. by apply Hkeys.
  - intros ph key l.
    destruct (release_all_locks_at resolve reg ph key) as [-> | ->]; [apply Hkeys|].
    intros [_ Hl]%list_elem_of_filter. by apply Hkeys.
  - intros key l. rewrite cleanup_locks_at.
    intros [_ Hl]%list_elem_of_filter. by apply Hkeys.
Qed.

(** What [can_acquire] answers in a registry keyed by resolved paths in
    which every phase has at most one lock per path, in terms of the
    active locks on the path: [true] when there is none; for a phase that
    holds one, [true] unless the request is exclusive and another phase
    holds one too; for a phase that holds none, [false] for an exclusive
    request whenever there is an active lock, and for a shared request
    [true] exactly when all active locks are shared. *)
Lemma can_acquire_resolved_registry (now : datetime) (reg : LockRegistry.t)
    (path phase_id : string) (lock_type : LockType) :
  keyed_by_resolved reg → one_lock_per_phase reg →
  let active l := l ∈ active_on now reg path in
  let holds := ∃ l, active l ∧ ResourceLock.owner_phase l = phase_id in
  let answer := can_acquire resolve now reg path phase_id lock_type in
  ((∀ l, ¬ active l) → answer = true) ∧
  (holds →
     (answer = false ↔
      lock_type = EXCLUSIVE ∧ ∃ l, active l ∧ ResourceLock.owner_phase l ≠ phase_id)) ∧
  (¬ holds → (∃ l, active l) → lock_type = EXCLUSIVE → answer = false) ∧
  (¬ holds → lock_type = SHARED →
     (answer = true ↔ ∀ l, active l → ResourceLock.lock_type l = SHARED)).
Proof.
  intros Hkeys Hone active holds answer.
  destruct (can_acquire_spec resolve now reg path phase_id lock_type Hone)
    as (H1 & H2 & H3 & H4).
  fold answer in H1, H2, H3, H4.
  assert (∀ l, active l ↔ l ∈ _get_active_locks now reg (resolve path)) as Hact
    by (intros l; by apply active_on_resolved).
  assert (holds ↔ holds_active now reg (resolve path) phase_id) as Hholds.
  { unfold holds, holds_active. by setoid_rewrite Hact. }
  split; [|split; [|split]].
  - intros Hnone. apply H1.
    destruct (_get_active_locks now reg (resolve path)) as [|l ls] eqn:Ha; [done|].
    exfalso. apply (Hnone l), Hact. left.
  - intros Hh%Hholds. rewrite (H2 Hh). by setoid_rewrite Hact.
  - intros Hno [l Hl%Hact] Hex. apply H3; [by rewrite <- Hholds| |done].
    intros Hnil. rewrite Hnil in Hl. by apply not_elem_of_nil in Hl.
  - intros Hno Hsh. rewrite H4; [|by rewrite <- Hholds|done].
    rewrite Forall_forall. by setoid_rewrite Hact.
Qed.

End lock_paths.

(** *** Concrete registries, continued *)

(** C3, at a lock recorded under an unresolved path: [acquire_lock] on the
    empty registry grants phase-1 an exclusive lock on "data/out.txt" and
    records it under that key.  The lock is active on the path, phase-2
    holds no lock there, and every phase has at most one lock per path;
    yet [can_acquire] grants phase-2 an exclusive lock on "data/out.txt":
    it looks under the resolved path, where nothing is recorded. *)
Theorem can_acquire_misses_unresolved_lock :
  first_exclusive.2 = true ∧
  one_lock_per_phase first_exclusive.1 ∧
  active_on resolve_cwd 0 first_exclusive.1 "data/out.txt" = [lock_a] ∧
  LockRegistry._get_active_locks 0 first_exclusive.1 "data/out.txt" = [lock_a] ∧
  ResourceLock.owner_phase lock_a = "phase-1" ∧
  ResourceLock.is_expired 0 lock_a = false ∧
  LockRegistry._get_active_locks 0 first_exclusive.1 (resolve_cwd "data/out.txt") = [] ∧
  LockRegistry.can_acquire resolve_cwd 0 first_exclusive.1
    "data/out.txt" "phase-2" EXCLUSIVE = true ∧
  ¬ keyed_by_resolved resolve_cwd first_exclusive.1.
Proof.
  split; [by vm_compute|].
  split; [apply acquire_lock_one_lock_per_phase, one_lock_per_phase_empty|].
  split; [by vm_compute|]. split; [by vm_compute|].
  split; [done|]. split; [done|]. split; [by vm_compute|]. split; [by vm_compute|].
  intros Hkeys. specialize (Hkeys "data/out.txt" lock_a).
  assert (locks_at first_exclusive.1 "data/out.txt" = [lock_a]) as Hat
    by (by vm_compute).
  rewrite Hat in Hkeys. by specialize (Hkeys ltac:(left)).
Qed.

Lemma reg_shared_index : phase_index_ok reg_shared.
Proof. apply acquire_phase_index, phase_index_empty. Qed.

Lemma phase_index_preserved_witness :
  phase_index_ok reg_shared ∧
  phase_index_ok (LockRegistry.release_all_phase_locks reg_shared "phase-1").
Proof.
  split; [exact reg_shared_index|].
  exact (proj1 (proj2 (proj2 (phase_index_preserved resolve_cwd 0 reg_shared
                                reg_shared_index))) "phase-1").
Defined.

Lemma release_all_phase_locks_releases_witness :
  phase_index_ok reg_shared ∧
  paths_of (LockRegistry.release_all_phase_locks reg_shared "phase-1") "phase-1" = ∅.
Proof.
  split; [exact reg_shared_index|].
  exact (proj2 (proj2 (release_all_phase_locks_releases reg_shared "phase-1"
                         reg_shared_index))).
Defined.

(** phase-2 asks for an exclusive lock on the file phase-1 reads. *)
Definition request_exclusive : LockRequest.t :=
  LockRequest.mk "/work/a.txt" "phase-2" EXCLUSIVE None.

Lemma detect_conflicts_spec_witness :
  one_lock_per_phase reg_shared ∧
  resolve_cwd (LockRequest.resource_path request_exclusive)
    = LockRequest.resource_path request_exclusive ∧
  (LockRegistry.detect_conflicts resolve_cwd 0 reg_shared request_exclusive = [] ↔
   LockRegistry.can_acquire resolve_cwd 0 reg_shared "/work/a.txt" "phase-2" EXCLUSIVE
     = true).
Proof.
  split; [exact reg_shared_one_lock_per_phase|]. split; [reflexivity|].
  exact (proj1 (detect_conflicts_spec resolve_cwd 0 reg_shared request_exclusive
                  reg_shared_one_lock_per_phase eq_refl)).
Defined.

Definition lock_exclusive : ResourceLock.t :=
  ResourceLock.mk "/work/b.txt" "phase-1" 0 EXCLUSIVE (Some 300).

Lemma exclusive_lock_excludes_witness :
  resolve_cwd (ResourceLock.resource_path lock_exclusive)
    = ResourceLock.resource_path lock_exclusive ∧
  ResourceLock.lock_type lock_exclusive = EXCLUSIVE ∧
  (LockRegistry.acquire_lock resolve_cwd 10 reg_shared lock_exclusive).2 = true ∧
  10 ≤ 200 ∧
  ResourceLock.is_expired 200 lock_exclusive = false ∧
  "phase-2" ≠ ResourceLock.owner_phase lock_exclusive ∧
  LockRegistry.can_acquire resolve_cwd 200
    (LockRegistry.acquire_lock resolve_cwd 10 reg_shared lock_exclusive).1
    "/work/b.txt" "phase-2" SHARED = false.
Proof.
  assert ("phase-2" ≠ ResourceLock.owner_phase lock_exclusive) as Hne by done.
  assert (10 ≤ 200) as Hlater by lia.
  split; [reflexivity|]. split; [reflexivity|]. split; [reflexivity|].
  split; [exact Hlater|]. split; [reflexivity|]. split; [exact Hne|].
  exact (exclusive_lock_excludes resolve_cwd 10 200 reg_shared lock_exclusive
           eq_refl eq_refl eq_refl Hlater eq_refl "phase-2" SHARED Hne).
Defined.

Lemma get_phase_locks_spec_witness :
  phase_index_ok reg_shared ∧
  (lock_shared ∈ LockRegistry.get_phase_locks 0 reg_shared "phase-1" ↔
   ∃ path, lock_shared ∈ LockRegistry._get_active_locks 0 reg_shared path ∧
           ResourceLock.owner_phase lock_shared = "phase-1").
Proof.
  split; [exact reg_shared_index|].
  exact (get_phase_locks_spec 0 reg_shared "phase-1" lock_shared reg_shared_index).
Defined.

(** phase-1 and phase-2 read two files; the wave of phase-1 ends. *)
Definition wave_one : ExecutionWave.t := ExecutionWave.mk 0 ["phase-1"] None None "completed".

Lemma cleanup_wave_resources_releases_witness :
  phase_index_ok reg_shared ∧
  ∀ path,
    locks_at (WaveExecutor._cleanup_wave_resources reg_shared wave_one) path =
    filter (λ l, ResourceLock.owner_phase l ∉ ExecutionWave.phases wave_one)
           (locks_at reg_shared path).
Proof.
  split; [exact reg_shared_index|].
  exact (proj2 (cleanup_wave_resources_releases reg_shared wave_one reg_shared_index)).
Defined.

Lemma reg_shared_compatible : lock_compatibility 0 reg_shared.
Proof.
  intros path. left. apply Forall_forall. intros l Hl.
  rewrite active_locks_at in Hl. apply list_elem_of_filter in Hl as [_ Hl].
  unfold reg_shared in Hl.
  rewrite (acquire_locks_at resolve_cwd) in Hl by reflexivity.
  case_decide; [|by apply not_elem_of_nil in Hl].
  apply elem_of_app in Hl as [Hl|Hl].
  - apply list_elem_of_filter in Hl as [_ Hl]. by apply not_elem_of_nil in Hl.
  - by apply list_elem_of_singleton in Hl as ->.
Qed.

Lemma lock_compatibility_preserved_witness :
  lock_compatibility 0 reg_shared ∧
  lock_compatibility 0 (LockRegistry.cleanup_expired_locks 0 reg_shared).
Proof.
  split; [exact reg_shared_compatible|].
  exact (proj2 (proj2 (proj2 (lock_compatibility_preserved resolve_cwd 0 reg_shared
                                reg_shared_compatible)))).
Defined.

(** ** The state manager *)

Section state_manager_props.
Import StateManager.
Variable isoformat : datetime → string.
Variable fromisoformat : string → option datetime.
Variable strftime : datetime → string.

(** What loading yields when the live state file holds [f]. *)
Definition file_state (f : file) : option ExecutionState.t :=
  (load_execution_state fromisoformat
     (StateManager.mk "" 0 None None 0 0 (Some f) None [])).2.

Lemma load_result self :
  (load_execution_state fromisoformat self).2 = state_file self ≫= file_state.
Proof.
  unfold file_state, load_execution_state.
  destruct (state_file self) as [[|data]|]; simpl; try done.
  destruct (Json.get_default data "metadata" _) as [md|]; [|done].
  destruct (negb (Json.truthy md)); [done|].
  destruct (metadata_from_dict fromisoformat md); [|done].
  by destruct (_deserialize_state fromisoformat data).
Qed.


(** When the live state file loads, [recover_from_crash] returns its state with
    every phase that was recorded as in progress now failed, with the error
    message "Interrupted by crash" and an end time; no phase of the
    returned state is in progress, and a phase recorded as completed is
    returned unchanged. *)
Theorem recover_from_crash_marks_interrupted (now : datetime)
    (self self' : StateManager.t) (state : ExecutionState.t) :
  load_execution_state fromisoformat self = (self', Some state) →
  ∃ recovered,
    (recover_from_crash fromisoformat now self).2 = Some recovered ∧
    (∀ phase_id d,
       ExecutionState.phase_states state !! phase_id = Some d →
       PhaseExecutionDetails.status d = IN_PROGRESS →
       ∃ d', ExecutionState.phase_states recovered !! phase_id = Some d' ∧
             PhaseExecutionDetails.status d' = FAILED ∧
             PhaseExecutionDetails.error_message d' = Some "Interrupted by crash" ∧
             PhaseExecutionDetails.end_time d' = Some now) ∧
    (∀ phase_id d',
       ExecutionState.phase_states recovered !! phase_id = Some d' →
       PhaseExecutionDetails.status d' ≠ IN_PROGRESS) ∧
    (∀ phase_id d,
       ExecutionState.phase_states state !! phase_id = Some d →
       PhaseExecutionDetails.status d = COMPLETED →
       ExecutionState.phase_states recovered !! phase_id = Some d).
Proof.
  intros Hload. exists (mark_state now state).
  unfold recover_from_crash. rewrite Hload. simpl.
  split; [done|]. split; [|split].
  - intros pid d Hd Hs. rewrite lookup_fmap, Hd. simpl.
    eexists. split; [done|]. unfold mark_interrupted.
    by rewrite decide_True.
  - intros pid d'. rewrite lookup_fmap.
    destruct (ExecutionState.phase_states state !! pid) as [d|]; [|done].
    simpl. intros [= <-]. unfold mark_interrupted. by case_decide.
  - intros pid d Hd Hs. rewrite lookup_fmap, Hd. simpl.
    unfold mark_interrupted. rewrite decide_False; [done|congruence].
Qed.

(** A backup fails to load, or loads as [Some state]. *)
Definition backup_state (self : StateManager.t) (name : string)
    : option ExecutionState.t :=
  Dict.get (backup_dir self) name ≫= file_state.







(** *** Saving and loading *)

(** The record the loader builds under key [k]: the key is the phase id. *)
Definition with_phase_id (k : string) (d : PhaseExecutionDetails.t)
    : PhaseExecutionDetails.t :=
  PhaseExecutionDetails.mk k
    (PhaseExecutionDetails.status d) (PhaseExecutionDetails.agent_id d)
    (PhaseExecutionDetails.start_time d) (PhaseExecutionDetails.end_time d)
    (PhaseExecutionDetails.error_message d) (PhaseExecutionDetails.retry_count d)
    (PhaseExecutionDetails.output_files d) (PhaseExecutionDetails.metrics d).

Definition with_agent_id (k : string) (a : AgentInfo.t) : AgentInfo.t :=
  AgentInfo.mk k (AgentInfo.assigned_phase a) (AgentInfo.status a)
    (AgentInfo.logs a) (AgentInfo.created_at a) (AgentInfo.terminated_at a).

(** A state whose records carry the key they are stored under. *)
Definition rekey (state : ExecutionState.t) : ExecutionState.t :=
  ExecutionState.mk
    (map_imap (λ k d, Some (with_phase_id k d)) (ExecutionState.phase_states state))
    (ExecutionState.waves state)
    (map_imap (λ k a, Some (with_agent_id k a)) (ExecutionState.agents state))
    (ExecutionState.start_time state) (ExecutionState.end_time state)
    (ExecutionState.config state).

Section roundtrip.
Hypothesis fromisoformat_isoformat : ∀ d, fromisoformat (isoformat d) = Some d.
Hypothesis isoformat_nonempty : ∀ d, isoformat d ≠ "".

Lemma time_roundtrip fields key o :
  Dict.get fields key = Some (time_to_json isoformat o) →
  time_of_json fromisoformat (Json.JObj fields) key = Some o.
Proof.
  intros Hget. unfold time_of_json. simpl. rewrite Hget. simpl.
  destruct o as [d|]; simpl; [|done].
  destruct (String.eqb_spec (isoformat d) "") as [Heq|_];
    [by apply isoformat_nonempty in Heq|].
  simpl. by rewrite fromisoformat_isoformat.
Qed.

Lemma str_list_roundtrip l : Json.as_str_list (Json.of_str_list l) = Some l.
Proof.
  unfold Json.as_str_list, Json.of_str_list. simpl.
  by apply mapM_fmap_Some.
Qed.

Lemma opt_str_roundtrip o : Json.as_opt_str (Json.of_opt_str o) = Some o.
Proof. by destruct o. Qed.

Lemma PhaseStatus_roundtrip s : PhaseStatus_of_value (PhaseStatus_value s) = Some s.
Proof. by destruct s; vm_compute. Qed.

Lemma AgentStatus_roundtrip s : AgentStatus_of_value (AgentStatus_value s) = Some s.
Proof. by destruct s; vm_compute. Qed.

Lemma deserialize_details_serialize k d :
  deserialize_details fromisoformat k (serialize_details isoformat d)
  = Some (with_phase_id k d).
Proof.
  unfold deserialize_details, serialize_details.
  rewrite (time_roundtrip _ "start_time" (PhaseExecutionDetails.start_time d)) by done.
  rewrite (time_roundtrip _ "end_time" (PhaseExecutionDetails.end_time d)) by done.
  unfold Json.item_str, Json.get_opt_str. simpl.
  rewrite PhaseStatus_roundtrip, !opt_str_roundtrip, str_list_roundtrip.
  done.
Qed.


Lemma deserialize_wave_serialize w :
  deserialize_wave fromisoformat (serialize_wave isoformat w) = Some w.
Proof.
  unfold deserialize_wave, serialize_wave.
  rewrite (time_roundtrip _ "start_time" (ExecutionWave.start_time w)) by done.
  rewrite (time_roundtrip _ "end_time" (ExecutionWave.end_time w)) by done.
  unfold Json.item_int. simpl. rewrite str_list_roundtrip. simpl. by destruct w.
Qed.

Lemma deserialize_agent_serialize k a :
  deserialize_agent fromisoformat k (serialize_agent isoformat a)
  = Some (with_agent_id k a).
Proof.
  unfold deserialize_agent, serialize_agent.
  rewrite (time_roundtrip _ "terminated_at" (AgentInfo.terminated_at a)) by done.
  unfold Json.item_str, Json.get_opt_str. simpl.
  rewrite AgentStatus_roundtrip, opt_str_roundtrip, fromisoformat_isoformat.
  done.
Qed.

(** Filling a dictionary from the items of a map gives the map back, each
    record rebuilt by [g]. *)
Lemma fill_items {V} (f : string → Json.t → option V) (ser : V → Json.t)
    (g : string → V → V) (m : gmap string V) :
  (∀ k v, f k (ser v) = Some (g k v)) →
  fill f (prod_map id ser <$> map_to_list m) ∅ = Some (map_imap (λ k v, Some (g k v)) m).
Proof.
  intros Hf.
  assert (∀ (l : list (string * V)) (acc : gmap string V),
            NoDup l.*1 →
            ∃ r, fill f (prod_map id ser <$> l) acc = Some r ∧
                 ∀ k, r !! k = match (list_to_map l : gmap string V) !! k with
                                | Some v => Some (g k v)
                                | None => acc !! k
                                end) as Hfill.
  { induction l as [|[k0 v0] l IH]; intros acc Hnd; simpl.
    - eexists. split; [done|]. intros k. by rewrite lookup_empty.
    - apply NoDup_cons in Hnd as [Hk0 Hnd]. rewrite Hf. simpl.
      destruct (IH (<[k0 := g k0 v0]> acc) Hnd) as [r [Hr Hlook]].
      exists r. split; [done|]. intros k. rewrite Hlook.
      destruct (decide (k = k0)) as [->|Hne].
      + rewrite lookup_insert_eq.
        rewrite (not_elem_of_list_to_map_1 _ _ Hk0). by rewrite lookup_insert_eq.
      + by rewrite !(lookup_insert_ne _ k0 k) by congruence. }
  destruct (Hfill (map_to_list m) ∅ (NoDup_fst_map_to_list m)) as [r [-> Hr]].
  f_equal. apply map_eq. intros k. rewrite Hr, list_to_map_to_list, map_lookup_imap.
  rewrite lookup_empty. by destruct (m !! k).
Qed.

Lemma deserialize_serialize state metadata :
  _deserialize_state fromisoformat
    (Json.JObj (Dict.set (_serialize_state isoformat state) "metadata" metadata))
  = Some (rekey state).
Proof.
  unfold _deserialize_state, _serialize_state.
  rewrite (time_roundtrip _ "start_time" (ExecutionState.start_time state)) by done.
  rewrite (time_roundtrip _ "end_time" (ExecutionState.end_time state)) by done.
  simpl.
  rewrite (fill_items _ _ with_phase_id) by apply deserialize_details_serialize.
  simpl.
  rewrite (mapM_fmap_Some _ _ _ deserialize_wave_serialize). simpl.
  rewrite (fill_items _ _ with_agent_id) by apply deserialize_agent_serialize.
  done.
Qed.

Lemma metadata_roundtrip m :
  metadata_from_dict fromisoformat (metadata_to_dict isoformat m) = Some m.
Proof.
  unfold metadata_from_dict, metadata_to_dict, Json.item_str, Json.item_int. simpl.
  rewrite !fromisoformat_isoformat. simpl. by destruct m.
Qed.

Lemma backup_keeps_state_file now self :
  state_file (_backup_current_state strftime now self) = state_file self ∧
  temp_state_file (_backup_current_state strftime now self) = temp_state_file self.
Proof.
  unfold _backup_current_state, _cleanup_old_backups.
  destruct (state_file self) eqn:Hsf; [|done]. simpl.
  by case_bool_decide.
Qed.

(** The live state file after a save: the document serialized from the
    state, with the metadata block. *)
Lemma save_state_file now self state :
  ∃ metadata,
    state_file (save_execution_state isoformat strftime now self state).1 =
    Some (Doc (Json.JObj (Dict.set (_serialize_state isoformat state) "metadata"
                                   (metadata_to_dict isoformat metadata)))).
Proof.
  unfold save_execution_state. simpl.
  match goal with
  | |- context [_backup_current_state strftime now ?s] =>
      destruct (backup_keeps_state_file now s) as [_ Htmp]
  end.
  eexists. rewrite Htmp. simpl. done.
Qed.

Lemma file_state_serialized state metadata :
  file_state (Doc (Json.JObj (Dict.set (_serialize_state isoformat state) "metadata"
                                       (metadata_to_dict isoformat metadata))))
  = Some (rekey state).
Proof.
  unfold file_state, load_execution_state. cbn [state_file].
  pose proof (deserialize_serialize state (metadata_to_dict isoformat metadata)) as Hd.
  pose proof (metadata_roundtrip metadata) as Hm.
  set (doc := Json.JObj _) in *.
  assert (Json.get_default doc "metadata" (Json.JObj [])
          = Some (metadata_to_dict isoformat metadata)) as -> by done.
  assert (Json.truthy (metadata_to_dict isoformat metadata) = true) as -> by done.
  cbn [negb]. rewrite Hm, Hd. done.
Qed.

Lemma load_after_save now self state :
  (load_execution_state fromisoformat
     (save_execution_state isoformat strftime now self state).1).2
  = Some (rekey state).
Proof.
  rewrite load_result.
  destruct (save_state_file now self state) as [metadata ->].
  apply file_state_serialized.
Qed.


(** Two phase records, two agent records that agree on everything but the
    id, which the loader takes from the key. *)
Definition same_phase_record (d d' : PhaseExecutionDetails.t) : Prop :=
  PhaseExecutionDetails.status d' = PhaseExecutionDetails.status d ∧
  PhaseExecutionDetails.agent_id d' = PhaseExecutionDetails.agent_id d ∧
  PhaseExecutionDetails.start_time d' = PhaseExecutionDetails.start_time d ∧
  PhaseExecutionDetails.end_time d' = PhaseExecutionDetails.end_time d ∧
  PhaseExecutionDetails.error_message d' = PhaseExecutionDetails.error_message d ∧
  PhaseExecutionDetails.retry_count d' = PhaseExecutionDetails.retry_count d ∧
  PhaseExecutionDetails.output_files d' = PhaseExecutionDetails.output_files d.

Definition same_agent_record (a a' : AgentInfo.t) : Prop :=
  AgentInfo.assigned_phase a' = AgentInfo.assigned_phase a ∧
  AgentInfo.status a' = AgentInfo.status a ∧
  AgentInfo.created_at a' = AgentInfo.created_at a ∧
  AgentInfo.terminated_at a' = AgentInfo.terminated_at a ∧
  AgentInfo.logs a' = AgentInfo.logs a.

(** C6: after [save_execution_state], [load_execution_state] yields a
    state with the same waves and, under every key, a phase record and an
    agent record with the same status, agent or phase, times, error
    message, retry count, output files and logs as the saved one; saving
    the same state once more and loading yields that same state. *)
Theorem save_load_roundtrip (now now' : datetime) (self : StateManager.t)
    (state : ExecutionState.t) :
  let saved := save_execution_state isoformat strftime now self state in
  let resaved := save_execution_state isoformat strftime now' saved.1 state in
  saved.2 = true ∧
  ∃ loaded,
    (load_execution_state fromisoformat saved.1).2 = Some loaded ∧
    (load_execution_state fromisoformat resaved.1).2 = Some loaded ∧
    ExecutionState.waves loaded = ExecutionState.waves state ∧
    (∀ k, option_Forall2 same_phase_record
            (ExecutionState.phase_states state !! k)
            (ExecutionState.phase_states loaded !! k)) ∧
    (∀ k, option_Forall2 same_agent_record
            (ExecutionState.agents state !! k)
            (ExecutionState.agents loaded !! k)).
Proof.
  intros saved resaved. split; [done|].
  exists (rekey state). subst saved resaved. rewrite !load_after_save.
  split; [done|]. split; [done|]. split; [done|]. split.
  - intros k. simpl. rewrite map_lookup_imap.
    destruct (ExecutionState.phase_states state !! k); constructor.
    by repeat split.
  - intros k. simpl. rewrite map_lookup_imap.
    destruct (ExecutionState.agents state !! k); constructor.
    by repeat split.
Qed.

End roundtrip.
End state_manager_props.

(** *** A concrete clock format and concrete files *)

(** Time stamps written in decimal. *)
Definition isoformat_epoch (d : datetime) : string :=
  DecimalString.NilZero.string_of_int (Z.to_int d).

Definition fromisoformat_epoch (s : string) : option datetime :=
  Z.of_int <$> DecimalString.NilZero.int_of_string s.

Lemma fromisoformat_isoformat_epoch d :
  fromisoformat_epoch (isoformat_epoch d) = Some d.
Proof.
  unfold fromisoformat_epoch, isoformat_epoch.
  rewrite DecimalString.NilZero.isi.
  - simpl. by rewrite DecimalZ.of_to.
  - destruct d; simpl; try done. intros [= H].
    by apply DecimalPos.Unsigned.to_uint_nonnil in H.
  - destruct d; simpl; try done. intros [= H].
    by apply DecimalPos.Unsigned.to_uint_nonnil in H.
Qed.

Lemma isoformat_epoch_nonempty d : isoformat_epoch d ≠ "".
Proof.
  unfold isoformat_epoch.
  destruct (Z.to_int d) as [u|u]; simpl; [|done].
  by destruct u.
Qed.

Definition strftime_epoch (d : datetime) : string := isoformat_epoch d.

Definition demo_state : ExecutionState.t :=
  ExecutionState.mk
    {[ "phase-1" := PhaseExecutionDetails.mk "phase-1" COMPLETED (Some "agent-1")
                      (Some 10) (Some 20) None 0 ["out.txt"] [];
       "phase-2" := PhaseExecutionDetails.mk "phase-2" IN_PROGRESS (Some "agent-2")
                      (Some 20) None None 1 [] [] ]}
    [ExecutionWave.mk 0 ["phase-1"; "phase-2"] (Some 10) None "in_progress"]
    {[ "agent-2" := AgentInfo.mk "agent-2" (Some "phase-2") WORKING [] 20 None ]}
    (Some 10) None [].

Definition fresh_manager : StateManager.t :=
  StateManager.mk "/ws" 5 None None 0 0 None None [].

Definition saved_manager : StateManager.t :=
  (StateManager.save_execution_state isoformat_epoch strftime_epoch 30
     fresh_manager demo_state).1.

(** A backup as a save of [demo_state] writes it. *)
Definition good_backup : StateManager.file :=
  StateManager.Doc
    (Json.JObj
       (Dict.set (StateManager._serialize_state isoformat_epoch demo_state) "metadata"
          (StateManager.metadata_to_dict isoformat_epoch
             (StateMetadata.mk StateManager.CURRENT 30 30 0 "/ws" 2 1)))).


Lemma good_backup_loads :
  file_state fromisoformat_epoch good_backup = Some (rekey demo_state).
Proof.
  apply (file_state_serialized isoformat_epoch fromisoformat_epoch).
  - apply fromisoformat_isoformat_epoch.
  - apply isoformat_epoch_nonempty.
Qed.



Lemma saved_manager_loads :
  StateManager.load_execution_state fromisoformat_epoch saved_manager
  = ((StateManager.load_execution_state fromisoformat_epoch saved_manager).1,
     Some (rekey demo_state)).
Proof.
  unfold saved_manager.
  rewrite (surjective_pairing (StateManager.load_execution_state _ _)) at 1.
  rewrite (load_after_save isoformat_epoch fromisoformat_epoch strftime_epoch
             fromisoformat_isoformat_epoch isoformat_epoch_nonempty).
  reflexivity.
Qed.

Lemma recover_from_crash_marks_interrupted_witness :
  ∃ recovered,
    (StateManager.recover_from_crash fromisoformat_epoch 40 saved_manager).2
      = Some recovered ∧
    ∀ phase_id d',
      ExecutionState.phase_states recovered !! phase_id = Some d' →
      PhaseExecutionDetails.status d' ≠ IN_PROGRESS.
Proof.
  destruct (recover_from_crash_marks_interrupted fromisoformat_epoch 40
              saved_manager _ _ saved_manager_loads) as [r [H1 [_ [H3 _]]]].
  exists r. split; [exact H1|exact H3].
Defined.

Lemma save_load_roundtrip_witness :
  (∀ d, fromisoformat_epoch (isoformat_epoch d) = Some d) ∧
  (∀ d, isoformat_epoch d ≠ "") ∧
  ∃ loaded,
    (StateManager.load_execution_state fromisoformat_epoch saved_manager).2
      = Some loaded ∧
    ExecutionState.waves loaded = ExecutionState.waves demo_state.
Proof.
  split; [exact fromisoformat_isoformat_epoch|].
  split; [exact isoformat_epoch_nonempty|].
  destruct (save_load_roundtrip isoformat_epoch fromisoformat_epoch strftime_epoch
              fromisoformat_isoformat_epoch isoformat_epoch_nonempty
              30 31 fresh_manager demo_state) as [_ [loaded [H1 [_ [H3 _]]]]].
  exists loaded. split; [exact H1|exact H3].
Defined.

(** The live state file is damaged; the only backup is the file a save of
    [demo_state] wrote. *)
Definition crashed_with_backup : StateManager.t :=
  StateManager.mk "/ws" 5 None None 0 0 (Some StateManager.Corrupt) None
    [ ("state_backup_20250101_120001_1.json", good_backup) ].

(** The first backup tried that loads is the state returned. *)
Lemma try_backups_first fromisoformat self name rest f state :
  Dict.get (StateManager.backup_dir self) name = Some f →
  file_state fromisoformat f = Some state →
  (StateManager.try_backups fromisoformat self (name :: rest)).2 = Some state.
Proof.
  intros Hget Hfile. cbn [StateManager.try_backups]. rewrite Hget.
  destruct f as [|data]; [done|].
  match goal with
  | |- context [StateManager.load_execution_state fromisoformat ?s] =>
      pose proof (load_result fromisoformat s) as Hload;
      change (StateManager.state_file s ≫= file_state fromisoformat)
        with (file_state fromisoformat (StateManager.Doc data)) in Hload;
      destruct (StateManager.load_execution_state fromisoformat s) as [self' [st|]]
  end; rewrite Hfile in Hload; simpl in Hload; [|done].
  by injection Hload as ->.
Qed.

Lemma crashed_with_backup_recovers :
  (StateManager.recover_from_crash fromisoformat_epoch 40 crashed_with_backup).2
  = Some (rekey demo_state).
Proof.
  unfold StateManager.recover_from_crash.
  change (StateManager.load_execution_state fromisoformat_epoch crashed_with_backup)
    with (crashed_with_backup, @None ExecutionState.t).
  cbv iota beta.
  assert (take 3 (reverse (StateManager.sorted_names
            (Dict.keys (StateManager.backup_dir crashed_with_backup))))
          = ["state_backup_20250101_120001_1.json"]) as -> by (by vm_compute).
  apply (try_backups_first _ _ _ _ good_backup); [done|apply good_backup_loads].
Qed.

(** C5, on the fallback path: the backup is a file that
    [save_execution_state] wrote, of a state in which "phase-2" is in
    progress, and it loads.  The live state file is damaged, so
    [recover_from_crash] copies the backup over it, loads it and returns
    the state at once: the loop that marks interrupted phases is in the
    other branch.  "phase-2" comes back in progress, with no end time and
    no error message. *)
Theorem recover_from_backup_keeps_in_progress :
  StateManager.state_file saved_manager = Some good_backup ∧
  (StateManager.load_execution_state fromisoformat_epoch crashed_with_backup).2 = None ∧
  backup_state fromisoformat_epoch crashed_with_backup
    "state_backup_20250101_120001_1.json" = Some (rekey demo_state) ∧
  ∃ recovered d,
    (StateManager.recover_from_crash fromisoformat_epoch 40 crashed_with_backup).2
      = Some recovered ∧
    ExecutionState.phase_states recovered !! "phase-2" = Some d ∧
    PhaseExecutionDetails.status d = IN_PROGRESS ∧
    PhaseExecutionDetails.end_time d = None ∧
    PhaseExecutionDetails.error_message d = None.
Proof.
  split; [by vm_compute|]. split; [done|].
  split; [unfold backup_state; simpl; apply good_backup_loads|].
  eexists _, _. split; [exact crashed_with_backup_recovers|].
  split; [by vm_compute|done].
Qed.

(** ** Splitting oversized waves *)

Section wave_distribution.
Import WaveCalculator.
Variable self : WaveCalculator.t.

(** Longest first. *)
Definition longer_first (p q : string) : Prop :=
  (phase_time self q <= phase_time self p)%Q.

Definition longer_first_pair (a b : string * Q) : Prop := (b.2 <= a.2)%Q.

Lemma insert_desc_perm x l : insert_desc x l ≡ₚ x :: l.
Proof.
  induction l as [|y l IH]; simpl; [done|].
  destruct (Qle_bool y.2 x.2); [done|].
  rewrite IH. apply Permutation_swap.
Qed.

Lemma sort_desc_perm l : sort_desc l ≡ₚ l.
Proof.
  induction l as [|x l IH]; simpl; [done|].
  by rewrite insert_desc_perm, IH.
Qed.

Lemma insert_desc_sorted x l :
  StronglySorted longer_first_pair l →
  StronglySorted longer_first_pair (insert_desc x l).
Proof.
  induction l as [|y l IH]; simpl; intros Hs.
  - repeat constructor.
  - apply StronglySorted_cons in Hs as [Hy Hs].
    destruct (Qle_bool y.2 x.2) eqn:Hle.
    + apply Qle_bool_iff in Hle. apply StronglySorted_cons. split.
      * constructor; [done|].
        eapply Forall_impl; [exact Hy|]. intros z Hz.
        unfold longer_first_pair in *. by eapply Qle_trans.
      * by apply StronglySorted_cons.
    + assert (x.2 < y.2)%Q as Hlt.
      { apply Qnot_le_lt. intros Hc. apply Qle_bool_iff in Hc. congruence. }
      apply StronglySorted_cons. split; [|by apply IH].
      rewrite insert_desc_perm. constructor; [|done].
      by apply Qlt_le_weak.
Qed.

Lemma sort_desc_sorted l : StronglySorted longer_first_pair (sort_desc l).
Proof.
  induction l as [|x l IH]; simpl; [constructor|].
  by apply insert_desc_sorted.
Qed.

Lemma StronglySorted_sublist {A} (R : A → A → Prop) (l1 l2 : list A) :
  l1 `sublist_of` l2 → StronglySorted R l2 → StronglySorted R l1.
Proof.
  induction 1 as [|x l1 l2 Hsub IH|x l1 l2 Hsub IH]; intros Hs.
  - constructor.
  - apply StronglySorted_cons in Hs as [Hx Hs]. constructor; [by apply IH|].
    apply Forall_forall. intros y Hy.
    eapply Forall_forall in Hx; [done|]. by eapply sublist_subseteq.
  - apply StronglySorted_cons in Hs as [_ Hs]. by apply IH.
Qed.

(** The phase ids of a wave in the order [_split_wave] chunks them. *)
Definition sorted_phases (wave : ExecutionWave.t) : list string :=
  (sort_desc ((λ p, (p, phase_time self p)) <$> ExecutionWave.phases wave)).*1.

Lemma sorted_phases_perm wave : sorted_phases wave ≡ₚ ExecutionWave.phases wave.
Proof.
  unfold sorted_phases. rewrite sort_desc_perm.
  rewrite <- list_fmap_compose. simpl.
  by rewrite list_fmap_id.
Qed.

Lemma sorted_phases_sorted wave : StronglySorted longer_first (sorted_phases wave).
Proof.
  unfold sorted_phases.
  set (pairs := (λ p, (p, phase_time self p)) <$> ExecutionWave.phases wave).
  assert (Forall (λ x, x.2 = phase_time self x.1) (sort_desc pairs)) as Hkeys.
  { rewrite sort_desc_perm. subst pairs. apply Forall_fmap, Forall_true. done. }
  pose proof (sort_desc_sorted pairs) as Hs.
  induction Hs as [|x l Hs IH Hx]; simpl; [constructor|].
  apply Forall_cons in Hkeys as [Hkx Hkeys].
  constructor; [by apply IH|].
  apply Forall_fmap, Forall_forall. intros y Hy. simpl.
  eapply Forall_forall in Hx; [|done]. eapply Forall_forall in Hkeys; [|done].
  unfold longer_first, longer_first_pair in *. by rewrite <- Hkx, <- Hkeys.
Qed.


(** The phases handed out so far by the loop of [_split_wave]. *)
Definition chunked (st : list ExecutionWave.t * ExecutionWave.t) : list string :=
  concat (ExecutionWave.phases <$> st.1) ++ ExecutionWave.phases st.2.

Definition fits (max_size : Z) (wave : ExecutionWave.t) : Prop :=
  Z.of_nat (length (ExecutionWave.phases wave)) ≤ max_size.

Lemma split_step_chunked n max_size st phase_id :
  0 < max_size → Forall (fits max_size) st.1 → fits max_size st.2 →
  Forall (fits max_size) (split_step n max_size st phase_id).1 ∧
  fits max_size (split_step n max_size st phase_id).2 ∧
  (chunked (split_step n max_size st phase_id) = chunked st ++ [phase_id] ∨
   (chunked (split_step n max_size st phase_id) = chunked st ∧ phase_id ∈ chunked st)).
Proof.
  intros Hmax Hsubs Hcur. unfold split_step, chunked, fits in *.
  destruct st as [subs cur]; simpl in *.
  case_bool_decide as Hfull; simpl.
  - unfold ExecutionWave.add_phase. simpl.
    split; [apply Forall_app; split; [done|by constructor]|].
    split; [lia|]. left.
    rewrite fmap_app, concat_app. simpl. by rewrite app_nil_r.
  - unfold ExecutionWave.add_phase. case_decide as Hin; simpl.
    + split; [done|]. split; [done|]. right. split; [done|].
      apply elem_of_app. by right.
    + split; [done|]. rewrite length_app. simpl. split; [lia|]. left.
      by rewrite (assoc_L (++)).
Qed.

Lemma split_loop_chunked n max_size ids st :
  0 < max_size → Forall (fits max_size) st.1 → fits max_size st.2 →
  let st' := foldl (split_step n max_size) st ids in
  Forall (fits max_size) st'.1 ∧ fits max_size st'.2 ∧
  chunked st' `sublist_of` chunked st ++ ids ∧
  (∀ p, p ∈ chunked st' ↔ p ∈ chunked st ∨ p ∈ ids) ∧
  (NoDup (chunked st ++ ids) → chunked st' = chunked st ++ ids).
Proof.
  intros Hmax. revert st. induction ids as [|pid ids IH]; intros st Hsubs Hcur; simpl.
  - rewrite app_nil_r. split; [done|]. split; [done|]. split; [done|].
    split; [|done]. intros p. rewrite elem_of_nil. tauto.
  - destruct (split_step_chunked n max_size st pid Hmax Hsubs Hcur)
      as (Hsubs1 & Hcur1 & Hch).
    destruct (IH _ Hsubs1 Hcur1) as (Hsubs' & Hcur' & Hsub & Hmem & Hnd).
    split; [done|]. split; [done|]. split; [|split].
    + etrans; [exact Hsub|]. destruct Hch as [-> | [-> _]].
      * by rewrite <- (assoc_L (++)).
      * apply sublist_app; [done|]. by apply sublist_cons.
    + intros p. rewrite Hmem, elem_of_cons.
      destruct Hch as [-> | [-> Hin]].
      * rewrite elem_of_app, list_elem_of_singleton. tauto.
      * split; [tauto|]. intros [?|[->|?]]; tauto.
    + intros Hno. destruct Hch as [Heq | [_ Hin]].
      * rewrite Heq in Hnd. rewrite <- (assoc_L (++)) in Hnd. by apply Hnd.
      * exfalso. apply NoDup_app in Hno as (_ & Hno & _).
        apply (Hno pid Hin). left.
Qed.

Lemma split_wave_chunked wave max_size :
  0 < max_size →
  Forall (fits max_size) (_split_wave self wave max_size) ∧
  concat (ExecutionWave.phases <$> _split_wave self wave max_size)
    `sublist_of` sorted_phases wave ∧
  (∀ p, p ∈ concat (ExecutionWave.phases <$> _split_wave self wave max_size)
        ↔ p ∈ ExecutionWave.phases wave) ∧
  (NoDup (ExecutionWave.phases wave) →
   concat (ExecutionWave.phases <$> _split_wave self wave max_size)
   = sorted_phases wave).
Proof.
  intros Hmax. unfold _split_wave. fold (sorted_phases wave).
  set (n := ExecutionWave.wave_number wave).
  destruct (split_loop_chunked n max_size (sorted_phases wave)
              ([], ExecutionWave.new n) Hmax) as (Hsubs & Hcur & Hsub & Hmem & Hnd).
  { constructor. }
  { unfold fits. simpl. lia. }
  set (st := foldl _ _ _) in *.
  assert (concat (ExecutionWave.phases <$>
            match ExecutionWave.phases st.2 with
            | [] => st.1
            | _ :: _ => st.1 ++ [st.2]
            end) = chunked st) as Hconcat.
  { unfold chunked. destruct (ExecutionWave.phases st.2) eqn:Hp.
    - by rewrite app_nil_r.
    - by rewrite fmap_app, concat_app; simpl; rewrite app_nil_r, Hp. }
  rewrite Hconcat.
  change (chunked ([], ExecutionWave.new n) ++ sorted_phases wave)
    with (sorted_phases wave) in Hsub, Hnd.
  split; [|split; [done|split]].
  - destruct (ExecutionWave.phases st.2); [done|].
    apply Forall_app. split; [done|by constructor].
  - intros p. rewrite Hmem. change (chunked ([], ExecutionWave.new n)) with (@nil string).
    rewrite (sorted_phases_perm wave), elem_of_nil. tauto.
  - intros Hno. apply Hnd. by rewrite sorted_phases_perm.
Qed.


Lemma Forall2_fmap_diag {A B} (P : A → B → Prop) (f : A → B) (l : list A) :
  (∀ x, P x (f x)) → Forall2 P l (f <$> l).
Proof. intros HP. induction l; simpl; constructor; auto. Qed.

(** What a wave becomes: itself, or its sub-waves. *)
Definition piece (max_agents : Z) (wave : ExecutionWave.t) : list ExecutionWave.t :=
  if bool_decide (Z.of_nat (length (ExecutionWave.phases wave)) ≤ max_agents)
  then [wave]
  else _split_wave self wave max_agents.

Lemma optimize_pieces waves max_agents :
  0 < max_agents →
  optimize_wave_distribution self waves max_agents
  = imap (λ i wave, ExecutionWave.set_wave_number wave (Z.of_nat i))
         (concat (piece max_agents <$> waves)).
Proof.
  intros Hmax. unfold optimize_wave_distribution.
  rewrite bool_decide_eq_false_2 by lia. f_equal.
  assert (∀ acc,
            foldl (λ acc wave,
                     if bool_decide (Z.of_nat (length (ExecutionWave.phases wave))
                                     ≤ max_agents)
                     then acc ++ [wave]
                     else acc ++ _split_wave self wave max_agents) acc waves
            = acc ++ concat (piece max_agents <$> waves)) as Hfold.
  { induction waves as [|w waves IH]; intros acc; simpl.
    - by rewrite app_nil_r.
    - rewrite IH. unfold piece at 2. case_bool_decide; by rewrite (assoc_L (++)). }
  apply (Hfold []).
Qed.

(** [optimize_wave_distribution] for a calculator with whatever cache: for
    [max_agents > 0] the result is the
    concatenation, wave by wave and in order, of what each wave becomes,
    renumbered from 0.  A wave with at most [max_agents] phases is kept as
    it is.  A larger wave becomes sub-waves of at most [max_agents] phases
    each; their phases, read in order, follow the wave's phases sorted by
    descending duration (the duration the calculator's cache gives, 1 for a
    phase that is not cached), are the same set of phases, and are exactly
    that sorted list when the wave names no phase twice. *)
Theorem optimize_wave_distribution_spec (waves : list ExecutionWave.t)
    (max_agents : Z) :
  0 < max_agents →
  ∃ pieces : list (list ExecutionWave.t),
    optimize_wave_distribution self waves max_agents
      = imap (λ i wave, ExecutionWave.set_wave_number wave (Z.of_nat i))
             (concat pieces) ∧
    (∀ i wave,
       optimize_wave_distribution self waves max_agents !! i = Some wave →
       ExecutionWave.wave_number wave = Z.of_nat i) ∧
    Forall2 (λ wave piece,
       (fits max_agents wave → piece = [wave]) ∧
       (¬ fits max_agents wave →
          Forall (fits max_agents) piece ∧
          ∃ sorted,
            sorted ≡ₚ ExecutionWave.phases wave ∧
            StronglySorted longer_first sorted ∧
            concat (ExecutionWave.phases <$> piece) `sublist_of` sorted ∧
            (∀ p, p ∈ concat (ExecutionWave.phases <$> piece)
                  ↔ p ∈ ExecutionWave.phases wave) ∧
            (NoDup (ExecutionWave.phases wave) →
             concat (ExecutionWave.phases <$> piece) = sorted)))
      waves pieces.
Proof.
  intros Hmax. exists (piece max_agents <$> waves).
  split; [by apply optimize_pieces|]. split.
  - intros i wave. rewrite optimize_pieces by done.
    rewrite list_lookup_imap. destruct (concat _ !! i); [|done].
    by intros [= <-].
  - apply Forall2_fmap_diag.
    intros wave. unfold piece, fits. case_bool_decide as Hfit.
    + split; [done|tauto].
    + split; [tauto|]. intros _.
      destruct (split_wave_chunked wave max_agents Hmax) as (H1 & H2 & H3 & H4).
      split; [done|]. exists (sorted_phases wave).
      split; [apply sorted_phases_perm|]. split; [apply sorted_phases_sorted|].
      done.
Qed.

End wave_distribution.

(** *** A concrete calculator and concrete waves *)

(** The calculator as the repository builds it: nothing fills its cache. *)
Definition calculator : WaveCalculator.t := WaveCalculator.mk ∅.

Definition wave_aab : ExecutionWave.t :=
  ExecutionWave.mk 0 ["a"; "a"; "b"] None None "pending".

(** A wave that names a phase twice loses an entry: [add_phase] skips a
    phase its sub-wave already has, so the three entries become one
    sub-wave of two phases. *)
Lemma optimize_wave_distribution_drops_repeats :
  WaveCalculator.optimize_wave_distribution calculator [wave_aab] 2
    = [ExecutionWave.mk 0 ["a"; "b"] None None "pending"] ∧
  ¬ (concat (ExecutionWave.phases <$>
               WaveCalculator.optimize_wave_distribution calculator [wave_aab] 2)
     ≡ₚ ExecutionWave.phases wave_aab).
Proof.
  assert (WaveCalculator.optimize_wave_distribution calculator [wave_aab] 2
          = [ExecutionWave.mk 0 ["a"; "b"] None None "pending"]) as Heq
    by (by vm_compute).
  split; [done|]. rewrite Heq. simpl. intros Hperm.
  by apply Permutation_length in Hperm.
Qed.

Definition wave_five : ExecutionWave.t :=
  ExecutionWave.mk 0 ["p1"; "p2"; "p3"; "p4"; "p5"] None None "pending".

Lemma optimize_wave_distribution_spec_witness :
  0 < 2 ∧
  ∀ i wave,
    WaveCalculator.optimize_wave_distribution calculator [wave_five] 2 !! i = Some wave →
    ExecutionWave.wave_number wave = Z.of_nat i.
Proof.
  split; [lia|].
  destruct (optimize_wave_distribution_spec calculator [wave_five] 2 ltac:(lia))
    as [pieces [_ [Hnum _]]].
  exact Hnum.
Defined.


(** ** Wave calculation *)

Section dict_facts.
Context {V : Type}.
Implicit Types (d : Dict.t V) (k : string) (v : V).

Lemma dict_get_set d k v k' :
  Dict.get (Dict.set d k v) k' = if decide (k = k') then Some v else Dict.get d k'.
Proof.
  induction d as [|[k0 v0] d IH]; simpl.
  - by destruct (decide (k = k')).
  - destruct (decide (k0 = k)) as [->|Hne]; simpl.
    + by destruct (decide (k = k')).
    + destruct (decide (k0 = k')) as [->|?]; [by rewrite decide_False|done].
Qed.

Lemma dict_get_Some d k v : Dict.get d k = Some v → (k, v) ∈ d.
Proof.
  induction d as [|[k0 v0] d IH]; simpl; [done|].
  destruct (decide (k0 = k)) as [->|?].
  - intros [= ->]. left.
  - intros ?. right. auto.
Qed.

Lemma dict_get_keys d k : is_Some (Dict.get d k) ↔ k ∈ Dict.keys d.
Proof.
  unfold Dict.keys. induction d as [|[k0 v0] d IH]; simpl.
  - split; [by intros [? ?]|by intros ?%not_elem_of_nil].
  - destruct (decide (k0 = k)) as [->|?].
    + split; [intros _; left|eauto].
    + rewrite IH, elem_of_cons. naive_solver.
Qed.

Lemma dict_get_elem_of d k v :
  NoDup (Dict.keys d) → (k, v) ∈ d → Dict.get d k = Some v.
Proof.
  unfold Dict.keys. induction d as [|[k0 v0] d IH]; simpl.
  - by intros _ ?%not_elem_of_nil.
  - intros [Hk0 Hnd]%NoDup_cons [[= -> ->]|Hin]%elem_of_cons.
    + by rewrite decide_True.
    + rewrite decide_False; [by apply IH|].
      intros ->. apply Hk0. apply list_elem_of_fmap. by exists (k, v).
Qed.

Lemma dict_set_absent d k v : k ∉ Dict.keys d → Dict.set d k v = d ++ [(k, v)].
Proof.
  unfold Dict.keys. induction d as [|[k0 v0] d IH]; simpl; [done|].
  intros Hk. apply not_elem_of_cons in Hk as [? ?].
  rewrite decide_False by done. by rewrite IH.
Qed.

End dict_facts.

Lemma dict_set_present {V} (pre rest : Dict.t V) k v0 v :
  k ∉ Dict.keys pre →
  Dict.set (pre ++ (k, v0) :: rest) k v = pre ++ (k, v) :: rest.
Proof.
  unfold Dict.keys. induction pre as [|[k1 v1] pre IH]; simpl.
  - intros _. by rewrite decide_True.
  - intros [? ?]%not_elem_of_cons. rewrite decide_False by done. by rewrite IH.
Qed.

Lemma dict_get_fmap {V W} (F : V → W) (d : Dict.t V) k :
  Dict.get ((λ kv, (kv.1, F kv.2)) <$> d) k = F <$> Dict.get d k.
Proof.
  induction d as [|[k0 v0] d IH]; simpl; [done|].
  by destruct (decide (k0 = k)).
Qed.

Lemma foldl_set_fresh {V W} (f : string * V → W) (l : list (string * V))
    (acc : Dict.t W) :
  NoDup (Dict.keys acc ++ l.*1) →
  foldl (λ d kv, Dict.set d kv.1 (f kv)) acc l = acc ++ ((λ kv, (kv.1, f kv)) <$> l).
Proof.
  revert acc. induction l as [|x l IH]; intros acc Hnd; simpl.
  - by rewrite app_nil_r.
  - rewrite dict_set_absent.
    + rewrite IH; [by rewrite <- (assoc_L (++))|].
      unfold Dict.keys in *. rewrite fmap_app. simpl.
      by rewrite <- (assoc_L (++)).
    + apply NoDup_app in Hnd as (_ & Hnd & _). intros Hin.
      apply (Hnd _ Hin). simpl. left.
Qed.

Lemma foldl_set_present {V W} (f g : string * V → W) (l : list (string * V))
    (pre : Dict.t W) :
  NoDup (Dict.keys pre ++ l.*1) →
  foldl (λ d kv, Dict.set d kv.1 (g kv)) (pre ++ ((λ kv, (kv.1, f kv)) <$> l)) l
  = pre ++ ((λ kv, (kv.1, g kv)) <$> l).
Proof.
  revert pre. induction l as [|x l IH]; intros pre Hnd; simpl; [done|].
  rewrite dict_set_present.
  - rewrite (cons_middle _ pre), (assoc_L (++)). rewrite IH.
    + by rewrite <- (assoc_L (++)).
    + unfold Dict.keys in *. rewrite fmap_app. simpl.
      by rewrite <- (assoc_L (++)).
  - apply NoDup_app in Hnd as (_ & Hnd & _). intros Hin.
    apply (Hnd _ Hin). simpl. left.
Qed.

Section waves.
Import WaveCalculator.
Variable graph : DependencyGraph.t.

(** The dependencies a phase declares; none for an id that is not a node. *)
Definition deps (p : string) : list string :=
  match DependencyGraph.get_phase graph p with
  | Some phase => PhaseInfo.dependencies phase
  | None => []
  end.

Definition depends_on (p d : string) : Prop := d ∈ deps p.

(** [p] lies on a dependency cycle. *)
Definition on_cycle (p : string) : Prop := tc depends_on p p.

Definition acyclic : Prop := ∀ p, ¬ on_cycle p.

Definition node_ids : list string := Dict.keys (DependencyGraph.nodes graph).

(** What [add_phase] maintains while the phases added have distinct ids
    ([add_phases_wf] below): phase ids are the keys of [nodes], and
    [edges] sends an id to a set of phases that declare it as a
    dependency.  Nothing is asked of the order of a set of dependents, so
    what follows from [graph_wf] holds in whatever order Python iterates
    over the set. *)
Definition graph_wf : Prop :=
  NoDup node_ids ∧
  Forall (λ e, NoDup e.2 ∧ Forall (λ p, depends_on p e.1) e.2)
         (DependencyGraph.edges graph).

(** Every declared dependency is a node, is declared once, and has the
    declaring phase among its dependents. *)
Definition graph_complete : Prop :=
  Forall (λ n, NoDup (PhaseInfo.dependencies n.2) ∧
               Forall (λ d, d ∈ node_ids ∧
                            n.1 ∈ DependencyGraph.get_dependents graph d)
                      (PhaseInfo.dependencies n.2))
         (DependencyGraph.nodes graph).

Lemma dependents_sound d :
  graph_wf →
  NoDup (DependencyGraph.get_dependents graph d) ∧
  ∀ p, p ∈ DependencyGraph.get_dependents graph d → depends_on p d.
Proof.
  intros [_ Hedges]. unfold DependencyGraph.get_dependents.
  destruct (Dict.get (DependencyGraph.edges graph) d) as [ps|] eqn:Hget; simpl.
  - apply dict_get_Some in Hget. eapply Forall_forall in Hedges; [|done].
    simpl in Hedges. destruct Hedges as [Hnd Hall]. split; [done|].
    intros p Hp. by eapply Forall_forall in Hall.
  - split; [constructor|]. by intros p ?%not_elem_of_nil.
Qed.

Lemma depends_on_node p d : depends_on p d → p ∈ node_ids.
Proof.
  unfold depends_on, deps, DependencyGraph.get_phase, node_ids.
  destruct (Dict.get _ p) eqn:Hget; [|by intros ?%not_elem_of_nil].
  intros _. apply dict_get_keys. eauto.
Qed.

Lemma in_degrees_eq :
  NoDup node_ids →
  _calculate_in_degrees graph
  = (λ kv, (kv.1, Z.of_nat (length (PhaseInfo.dependencies kv.2))))
      <$> DependencyGraph.nodes graph.
Proof.
  intros Hnd. unfold _calculate_in_degrees.
  rewrite (foldl_set_fresh (λ _, 0) _ []) by done.
  exact (foldl_set_present (λ _, 0)
           (λ kv, Z.of_nat (length (PhaseInfo.dependencies kv.2)))
           (DependencyGraph.nodes graph) [] Hnd).
Qed.

Lemma in_degrees_get p :
  NoDup node_ids →
  deg_get (_calculate_in_degrees graph) p = Z.of_nat (length (deps p)).
Proof.
  intros Hnd. rewrite in_degrees_eq by done. unfold deg_get, deps.
  rewrite (dict_get_fmap (λ ph, Z.of_nat (length (PhaseInfo.dependencies ph)))).
  unfold DependencyGraph.get_phase. by destruct (Dict.get _ p).
Qed.


(** How many of the handled phases released [p]: the phases of [handled]
    that have [p] among their dependents. *)
Definition released (handled : list string) (p : string) : nat :=
  length (filter (λ d, p ∈ DependencyGraph.get_dependents graph d) handled).

(** The in-degree table after the phases of [handled] were processed. *)
Definition degrees_ok (handled : list string) (in_degree : Dict.t Z) : Prop :=
  ∀ p, deg_get in_degree p
       = Z.of_nat (length (deps p)) - Z.of_nat (released handled p).

Lemma deg_get_set in_degree k v k' :
  deg_get (Dict.set in_degree k v) k'
  = if decide (k = k') then v else deg_get in_degree k'.
Proof. unfold deg_get. rewrite dict_get_set. by case_decide. Qed.

Lemma released_submseteq handled p :
  graph_wf → NoDup handled →
  filter (λ d, p ∈ DependencyGraph.get_dependents graph d) handled ⊆+ deps p.
Proof.
  intros Hwf Hnd. apply NoDup_submseteq; [by apply NoDup_filter|].
  intros d [Hd _]%list_elem_of_filter.
  by apply (dependents_sound d Hwf).
Qed.

Lemma released_bound handled p :
  graph_wf → NoDup handled → (released handled p ≤ length (deps p))%nat.
Proof. intros. by apply submseteq_length, released_submseteq. Qed.

Lemma released_full handled p d :
  graph_wf → NoDup handled →
  released handled p = length (deps p) → depends_on p d → d ∈ handled.
Proof.
  intros Hwf Hnd Hlen Hd.
  pose proof (released_submseteq handled p Hwf Hnd) as Hsub.
  apply submseteq_length_Permutation in Hsub; [|unfold released in Hlen; lia].
  unfold depends_on in Hd. rewrite <- Hsub in Hd.
  by apply list_elem_of_filter in Hd as [_ ?].
Qed.

Lemma released_snoc handled x p :
  released (handled ++ [x]) p
  = (released handled p +
     if decide (p ∈ DependencyGraph.get_dependents graph x) then 1 else 0)%nat.
Proof.
  unfold released. rewrite filter_app, length_app. f_equal.
  rewrite filter_singleton by exact []. by case_decide.
Qed.

(** The loop over the dependents of [x]: [done] have been decremented,
    [todo] are left; [fixed] are the phases processed or in the current
    batch, [q] the queue. *)
Lemma reduce_loop handled x fixed todo done in_degree q :
  graph_wf →
  NoDup (handled ++ [x]) →
  done ++ todo = DependencyGraph.get_dependents graph x →
  (∀ p, deg_get in_degree p
        = Z.of_nat (length (deps p)) - Z.of_nat (released handled p)
          - (if decide (p ∈ done) then 1 else 0)) →
  NoDup (fixed ++ q) →
  (∀ p, p ∈ fixed ++ q → p ∈ node_ids) →
  (∀ p, p ∈ node_ids → deg_get in_degree p = 0 ↔ p ∈ fixed ++ q) →
  let r := foldl reduce_dependent (in_degree, q) todo in
  degrees_ok (handled ++ [x]) r.1 ∧
  NoDup (fixed ++ r.2) ∧
  (∀ p, p ∈ fixed ++ r.2 → p ∈ node_ids) ∧
  (∀ p, p ∈ node_ids → deg_get r.1 p = 0 ↔ p ∈ fixed ++ r.2).
Proof.
  intros Hwf Hndx. revert done in_degree q.
  induction todo as [|p0 todo IH]; intros done in_degree q Hdep Hdeg Hnd Hnodes Hzero; simpl.
  - rewrite app_nil_r in Hdep. subst done. split; [|done].
    intros p. rewrite Hdeg, released_snoc. case_decide; lia.
  - destruct (dependents_sound x Hwf) as [Hndd Hsound].
    rewrite <- Hdep in Hndd, Hsound.
    assert (p0 ∉ done) as Hp0.
    { apply NoDup_app in Hndd as (_ & Hndd & _). intros Hin.
      apply (Hndd _ Hin). left. }
    assert (p0 ∈ node_ids) as Hp0n.
    { eapply depends_on_node, Hsound. apply elem_of_app. right. left. }
    assert (1 ≤ deg_get in_degree p0) as Hpos.
    { rewrite Hdeg, decide_False by done.
      pose proof (released_bound (handled ++ [x]) p0 Hwf Hndx) as Hb.
      rewrite released_snoc in Hb. rewrite decide_True in Hb; [lia|].
      rewrite <- Hdep. apply elem_of_app. right. left. }
    assert (p0 ∉ fixed ++ q) as Hfresh.
    { intros Hin. apply Hzero in Hin; [lia|done]. }
    set (deg' := Dict.set in_degree p0 (deg_get in_degree p0 - 1)).
    assert (reduce_dependent (in_degree, q) p0
            = if decide (deg_get in_degree p0 - 1 = 0)
              then (deg', q ++ [p0]) else (deg', q)) as Hstep.
    { unfold reduce_dependent. simpl. rewrite deg_get_set.
      by destruct (decide (p0 = p0)). }
    rewrite Hstep. clear Hstep.
    assert (∀ p, deg_get deg' p
                 = Z.of_nat (length (deps p)) - Z.of_nat (released handled p)
                   - (if decide (p ∈ done ++ [p0]) then 1 else 0)) as Hdeg'.
    { intros p. subst deg'. rewrite deg_get_set.
      destruct (decide (p0 = p)) as [<-|Hne].
      - rewrite Hdeg, decide_False by done.
        rewrite decide_True; [lia|]. apply elem_of_app. right. left.
      - rewrite Hdeg. destruct (decide (p ∈ done)) as [Hin|Hnin].
        + rewrite decide_True; [done|]. apply elem_of_app. by left.
        + rewrite decide_False; [done|].
          rewrite elem_of_app, list_elem_of_singleton. naive_solver. }
    case_decide as Hz.
    + apply (IH (done ++ [p0])); simpl.
      * by rewrite <- (assoc_L (++)).
      * done.
      * rewrite (assoc_L (++)). apply NoDup_app. split; [done|].
        split; [|apply NoDup_singleton].
        intros p Hp ->%list_elem_of_singleton. done.
      * intros p. rewrite (assoc_L (++)), elem_of_app, list_elem_of_singleton.
        intros [?| ->]; auto.
      * intros p Hp. rewrite (assoc_L (++)), elem_of_app, list_elem_of_singleton.
        subst deg'. rewrite deg_get_set.
        destruct (decide (p0 = p)) as [<-|Hne]; [naive_solver|].
        rewrite Hzero by done. naive_solver.
    + apply (IH (done ++ [p0])); simpl.
      * by rewrite <- (assoc_L (++)).
      * done.
      * done.
      * done.
      * intros p Hp. subst deg'. rewrite deg_get_set.
        destruct (decide (p0 = p)) as [<-|Hne]; [naive_solver|].
        by apply Hzero.
Qed.


(** The wave [calculate_execution_waves] builds for a batch. *)
Definition wave_of (n : Z) (phases : list string) : ExecutionWave.t :=
  ExecutionWave.mk n phases None None "pending".

(** The loop over the current batch: [done] is processed, [batch] is left. *)
Lemma batch_loop n handled batch done st :
  graph_wf →
  processed st = handled ++ done →
  current_wave st = wave_of n done →
  degrees_ok (handled ++ done) (in_degree st) →
  NoDup (handled ++ done ++ batch ++ queue st) →
  (∀ p, p ∈ handled ++ done ++ batch ++ queue st → p ∈ node_ids) →
  (∀ p, p ∈ node_ids →
        deg_get (in_degree st) p = 0 ↔ p ∈ handled ++ done ++ batch ++ queue st) →
  let st' := foldl (process_phase graph) st batch in
  processed st' = handled ++ done ++ batch ∧
  current_wave st' = wave_of n (done ++ batch) ∧
  degrees_ok (handled ++ done ++ batch) (in_degree st') ∧
  NoDup (handled ++ done ++ batch ++ queue st') ∧
  (∀ p, p ∈ handled ++ done ++ batch ++ queue st' → p ∈ node_ids) ∧
  (∀ p, p ∈ node_ids →
        deg_get (in_degree st') p = 0 ↔ p ∈ handled ++ done ++ batch ++ queue st').
Proof.
  intros Hwf. revert done st.
  induction batch as [|x batch IH]; intros done st Hproc Hwave Hdeg Hnd Hnodes Hzero; simpl.
  - rewrite !app_nil_r in *. simpl in *. done.
  - assert (NoDup ((handled ++ done) ++ [x])) as Hndx.
    { assert (handled ++ done ++ (x :: batch) ++ queue st
              = ((handled ++ done) ++ [x]) ++ batch ++ queue st) as E
        by (by rewrite <- !(assoc_L (++))).
      rewrite E in Hnd. by apply NoDup_app in Hnd as (Hnd & _). }
    assert (x ∉ handled ++ done) as Hx.
    { apply NoDup_app in Hndx as (_ & Hndx & _).
      intros Hin. apply (Hndx _ Hin). left. }
    assert (∀ q : list string,
              handled ++ done ++ (x :: batch) ++ q
              = (handled ++ (done ++ [x]) ++ batch) ++ q) as Hre.
    { intros q. by rewrite <- !(assoc_L (++)). }
    rewrite Hre in Hnd. setoid_rewrite Hre in Hnodes. setoid_rewrite Hre in Hzero.
    destruct (reduce_loop (handled ++ done) x (handled ++ (done ++ [x]) ++ batch)
                (DependencyGraph.get_dependents graph x) [] (in_degree st) (queue st)
                Hwf Hndx eq_refl) as (Hdeg1 & Hnd1 & Hnodes1 & Hzero1);
      [intros p; rewrite Hdeg; simpl; lia|done|done|done|].
    set (st1 := process_phase graph st x).
    assert (∀ q : list string,
              handled ++ (done ++ [x]) ++ batch ++ q
              = handled ++ done ++ x :: batch ++ q) as Hre2.
    { intros q. by rewrite <- !(assoc_L (++)). }
    destruct (IH (done ++ [x]) st1) as (R1 & R2 & R3 & R4 & R5 & R6).
    + subst st1. unfold process_phase. simpl. rewrite Hproc.
      unfold set_add. rewrite decide_False by done. by rewrite (assoc_L (++)).
    + subst st1. unfold process_phase. simpl. rewrite Hwave.
      unfold ExecutionWave.add_phase, wave_of. simpl.
      rewrite decide_False; [done|]. intros Hin. apply Hx, elem_of_app. by right.
    + subst st1. unfold process_phase. simpl. by rewrite (assoc_L (++)).
    + subst st1. unfold process_phase. simpl. by rewrite !(assoc_L (++)) in *.
    + subst st1. unfold process_phase. simpl. intros p Hp. apply Hnodes1.
      by rewrite !(assoc_L (++)) in *.
    + subst st1. unfold process_phase. simpl. intros p Hp.
      rewrite (Hzero1 p Hp). by rewrite !(assoc_L (++)).
    + rewrite Hre2 in R4. setoid_rewrite Hre2 in R5. setoid_rewrite Hre2 in R6.
      rewrite <- !(assoc_L (++)) in R1, R2, R3.
      done.
Qed.


(** A processing order in which every phase comes after its dependencies. *)
Inductive topo : list string → Prop :=
  | topo_nil : topo []
  | topo_snoc l p : topo l → (∀ d, depends_on p d → d ∈ l) → topo (l ++ [p]).

Lemma topo_app handled batch :
  topo handled →
  (∀ p d, p ∈ batch → depends_on p d → d ∈ handled) →
  topo (handled ++ batch).
Proof.
  revert handled. induction batch as [|p batch IH]; intros handled Ht Hdeps.
  - by rewrite app_nil_r.
  - rewrite (cons_middle p), (assoc_L (++)). apply IH.
    + constructor; [done|]. intros d. apply Hdeps. left.
    + intros q d Hq Hd. apply elem_of_app. left. eapply Hdeps; [|done]. by right.
Qed.

Lemma topo_step l p d : topo l → p ∈ l → depends_on p d → d ∈ l.
Proof.
  induction 1 as [|l p0 Ht IH Hp0]; [by intros ?%not_elem_of_nil|].
  rewrite !elem_of_app, list_elem_of_singleton. intros [Hp| ->] Hd; left; auto.
Qed.

Lemma topo_closed l p q : topo l → p ∈ l → rtc depends_on p q → q ∈ l.
Proof.
  intros Ht Hp Hpq. induction Hpq as [|p d q Hd _ IH]; [done|].
  apply IH. by eapply topo_step.
Qed.

Lemma topo_no_cycle l p : topo l → p ∈ l → ¬ on_cycle p.
Proof.
  unfold on_cycle. induction 1 as [|l p0 Ht IH Hp0]; [by intros ?%not_elem_of_nil|].
  rewrite elem_of_app, list_elem_of_singleton. intros [Hp| ->]; [by apply IH|].
  intros Hcyc.
  assert (p0 ∈ l) as Hin.
  { inversion Hcyc as [? ? Hd|? d ? Hd Htc]; subst.
    - by apply Hp0.
    - eapply topo_closed; [done|by apply Hp0|by apply tc_rtc]. }
  by apply (IH Hin).
Qed.

(** Waves numbered from 0 in which the dependencies of a phase lie in
    earlier waves. *)
Definition waves_ok (waves : list ExecutionWave.t) : Prop :=
  ∀ i w, waves !! i = Some w →
    ExecutionWave.wave_number w = Z.of_nat i ∧
    ∀ p d, p ∈ ExecutionWave.phases w → depends_on p d →
           d ∈ concat (ExecutionWave.phases <$> take i waves).

(** The invariant of [while queue:]. *)
Definition loop_inv (queue : list string) (in_degree : Dict.t Z)
    (handled : list string) (waves : list ExecutionWave.t) (n : Z) : Prop :=
  NoDup (handled ++ queue) ∧
  (∀ p, p ∈ handled ++ queue → p ∈ node_ids) ∧
  degrees_ok handled in_degree ∧
  (∀ p, p ∈ node_ids → deg_get in_degree p = 0 ↔ p ∈ handled ++ queue) ∧
  handled = concat (ExecutionWave.phases <$> waves) ∧
  waves_ok waves ∧
  n = Z.of_nat (length waves) ∧
  topo handled.

Lemma queue_deps_handled queue in_degree handled waves n p d :
  graph_wf → loop_inv queue in_degree handled waves n →
  p ∈ queue → depends_on p d → d ∈ handled.
Proof.
  intros Hwf (Hnd & Hnodes & Hdeg & Hzero & _) Hp Hd.
  assert (p ∈ handled ++ queue) as Hin by (apply elem_of_app; by right).
  pose proof (proj2 (Hzero p (Hnodes p Hin)) Hin) as Hz.
  apply NoDup_app in Hnd as (Hndh & _).
  rewrite Hdeg in Hz.
  pose proof (released_bound handled p Hwf Hndh).
  eapply released_full; [done|done| |done]. lia.
Qed.

Lemma waves_loop_inv fuel queue in_degree handled waves n :
  graph_wf →
  loop_inv queue in_degree handled waves n →
  (length node_ids - length handled < fuel)%nat →
  ∃ waves' handled' in_degree',
    waves_loop fuel graph queue in_degree handled waves n = Some (waves', handled') ∧
    loop_inv [] in_degree' handled' waves' (Z.of_nat (length waves')).
Proof.
  intros Hwf. revert queue in_degree handled waves n.
  induction fuel as [|fuel IH]; intros queue in_degree handled waves n Hinv Hfuel;
    [lia|].
  destruct (decide (queue = [])) as [->|Hne].
  { simpl. exists waves, handled, in_degree. split; [done|].
    destruct Hinv as (?&?&?&?&?&?&->&?). done. }
  pose proof Hinv as (Hnd & Hnodes & Hdeg & Hzero & Hconcat & Hwaves & Hn & Htopo).
  pose proof (batch_loop n handled queue []
                (mk_state (ExecutionWave.new n) handled in_degree []) Hwf) as Hb.
  simpl in Hb. rewrite !app_nil_r in Hb.
  destruct (Hb eq_refl eq_refl Hdeg Hnd Hnodes Hzero)
    as (R1 & R2 & R3 & R4 & R5 & R6). clear Hb.
  set (st := foldl (process_phase graph) _ queue) in *.
  assert (waves_loop (S fuel) graph queue in_degree handled waves n
          = waves_loop fuel graph (WaveCalculator.queue st) (WaveCalculator.in_degree st)
              (handled ++ queue) (waves ++ [wave_of n queue]) (n + 1)) as ->.
  { subst st. destruct queue as [|x queue']; [done|].
    cbn [waves_loop]. rewrite R2, R1. done. }
  apply IH.
  - split; [by rewrite <- (assoc_L (++))|].
    split; [intros p; rewrite <- (assoc_L (++)); apply R5|].
    split; [done|].
    split; [intros p; rewrite <- (assoc_L (++)); apply R6|].
    split; [by rewrite fmap_app, concat_app, <- Hconcat; simpl; rewrite app_nil_r|].
    split; [|split; [rewrite length_app; simpl; lia|]].
    + intros i w Hi.
      destruct (decide (i < length waves)%nat) as [Hlt|Hge].
      * rewrite lookup_app_l in Hi by done.
        destruct (Hwaves i w Hi) as [Hnum Hdeps]. split; [done|].
        by rewrite take_app_le by lia.
      * rewrite lookup_app_r in Hi by lia.
        destruct (i - length waves)%nat as [|k] eqn:Hk; simpl in Hi; [|done].
        injection Hi as <-. assert (i = length waves) as -> by lia.
        split; [done|]. rewrite take_app_length, <- Hconcat. simpl.
        intros p d Hp Hd. by eapply queue_deps_handled.
    + apply topo_app; [done|]. intros p d Hp Hd. by eapply queue_deps_handled.
  - rewrite length_app.
    assert (length (handled ++ queue) ≤ length node_ids)%nat as Hle.
    { apply submseteq_length, NoDup_submseteq; [|done].
      rewrite (assoc_L (++)) in R4. by apply NoDup_app in R4 as (R4 & _). }
    rewrite length_app in Hle.
    assert (0 < length queue)%nat by (destruct queue; [done|simpl; lia]).
    lia.
Qed.


Lemma in_degrees_keys :
  NoDup node_ids → Dict.keys (_calculate_in_degrees graph) = node_ids.
Proof.
  intros Hnd. rewrite in_degrees_eq by done. unfold node_ids, Dict.keys.
  rewrite <- list_fmap_compose. done.
Qed.

Lemma initial_inv :
  graph_wf →
  loop_inv (filter (λ kv, kv.2 = 0) (_calculate_in_degrees graph)).*1
           (_calculate_in_degrees graph) [] [] 0.
Proof.
  intros Hwf. pose proof Hwf as [Hnd _].
  pose proof (in_degrees_keys Hnd) as Hkeys.
  set (deg0 := _calculate_in_degrees graph) in *.
  assert (∀ p, p ∈ (filter (λ kv, kv.2 = 0) deg0).*1
               ↔ p ∈ node_ids ∧ deg_get deg0 p = 0) as Hq.
  { intros p. rewrite list_elem_of_fmap. split.
    - intros [[k v] [-> [Hv Hin]%list_elem_of_filter]]. simpl in *.
      assert (Dict.get deg0 k = Some v) as Hget.
      { apply dict_get_elem_of; [by rewrite Hkeys|done]. }
      split.
      + rewrite <- Hkeys. apply dict_get_keys. eauto.
      + unfold deg_get. by rewrite Hget.
    - intros [Hp Hz]. rewrite <- Hkeys in Hp.
      apply dict_get_keys in Hp as [v Hget].
      exists (p, v). split; [done|]. apply list_elem_of_filter. simpl.
      unfold deg_get in Hz. rewrite Hget in Hz. simpl in Hz.
      split; [done|]. by apply dict_get_Some. }
  unfold loop_inv. simpl.
  split; [|split; [|split; [|split; [|split; [|split; [|split]]]]]].
  - apply (sublist_NoDup _ node_ids); [exact Hnd|]. rewrite <- Hkeys.
    unfold Dict.keys. apply fmap_sublist, sublist_filter.
  - intros p Hp. by apply Hq in Hp as [? _].
  - intros p. subst deg0. rewrite in_degrees_get by done.
    unfold released. simpl. lia.
  - intros p Hp. rewrite Hq. tauto.
  - done.
  - intros i w Hi. by rewrite lookup_nil in Hi.
  - done.
  - constructor.
Qed.

(** The loop ends within the fuel [calculate_execution_waves] gives it, in
    a state that satisfies the invariant with an empty queue. *)
Lemma waves_loop_result :
  graph_wf →
  ∃ waves handled in_degree,
    waves_loop (S (length (DependencyGraph.nodes graph))) graph
      (filter (λ kv, kv.2 = 0) (_calculate_in_degrees graph)).*1
      (_calculate_in_degrees graph) [] [] 0 = Some (waves, handled) ∧
    loop_inv [] in_degree handled waves (Z.of_nat (length waves)).
Proof.
  intros Hwf. apply waves_loop_inv; [done|by apply initial_inv|].
  unfold node_ids, Dict.keys. rewrite length_fmap. simpl. lia.
Qed.

Lemma on_cycle_node c : on_cycle c → c ∈ node_ids.
Proof.
  intros Hc. inversion Hc; subst; by eapply depends_on_node.
Qed.

(** Cycles on a graph whose dependents index records declared dependencies
    only: [calculate_execution_waves] raises its error, and every phase on
    a cycle is among the unprocessed phase ids it reports. *)
Theorem calculate_execution_waves_cycle (c : string) :
  graph_wf → on_cycle c →
  ∃ unprocessed,
    calculate_execution_waves graph = Some (inl (CircularDependency unprocessed)) ∧
    c ∈ unprocessed.
Proof.
  intros Hwf Hc.
  destruct (waves_loop_result Hwf) as (waves & handled & deg & Hloop & Hinv).
  destruct Hinv as (Hnd & Hnodes & _ & _ & _ & _ & _ & Htopo).
  rewrite app_nil_r in Hnd. setoid_rewrite app_nil_r in Hnodes.
  assert (c ∉ handled) as Hnot by (intros Hin; by apply (topo_no_cycle _ _ Htopo Hin)).
  pose proof (on_cycle_node c Hc) as Hnode.
  assert (length handled ≠ length (DependencyGraph.nodes graph)) as Hlen.
  { assert (length (c :: handled) ≤ length node_ids)%nat as Hle.
    { apply submseteq_length, NoDup_submseteq.
      - by constructor.
      - intros p [->|Hp]%elem_of_cons; auto. }
    unfold node_ids, Dict.keys in Hle. rewrite length_fmap in Hle. simpl in Hle. lia. }
  unfold calculate_execution_waves, calculate_execution_waves_fuel.
  rewrite Hloop. simpl. rewrite decide_True by done.
  eexists. split; [done|].
  apply list_elem_of_filter. done.
Qed.


Lemma complete_dep p d :
  graph_complete → depends_on p d →
  NoDup (deps p) ∧ d ∈ node_ids ∧ p ∈ DependencyGraph.get_dependents graph d.
Proof.
  unfold graph_complete, depends_on, deps, DependencyGraph.get_phase.
  intros Hc Hd.
  destruct (Dict.get (DependencyGraph.nodes graph) p) as [ph|] eqn:Hget;
    [|by apply not_elem_of_nil in Hd].
  apply dict_get_Some in Hget. eapply Forall_forall in Hc; [|done].
  simpl in Hc. destruct Hc as [Hnd Hall]. split; [done|].
  by eapply Forall_forall in Hall.
Qed.

(** A transitive, irreflexive relation has no finite set in which every
    element has a successor. *)
Lemma no_descent (T : relation string) `{!Transitive T} `{!Irreflexive T}
    (U : list string) :
  (∀ p, p ∈ U → ∃ d, d ∈ U ∧ T p d) → U = [].
Proof.
  remember (length U) as n eqn:Hn. revert U Hn.
  induction n as [n IH] using lt_wf_ind. intros U -> Hsucc.
  destruct U as [|x U]; [done|]. exfalso.
  destruct (Hsucc x) as [e [He Hxe]]; [left|].
  assert (e ≠ x) as Hex by (intros ->; by apply (irreflexivity T x)).
  set (U' := filter (λ p, p ≠ x) U).
  assert (e ∈ U') as He'.
  { apply list_elem_of_filter. split; [done|].
    by apply elem_of_cons in He as [?|?]. }
  assert (U' = []) as Hnil.
  { apply (IH (length U')); [|done|].
    - simpl. pose proof (length_filter (λ p, p ≠ x) U). subst U'. lia.
    - intros p [Hpx Hp]%list_elem_of_filter.
      destruct (Hsucc p) as [d [Hd Hpd]]; [by right|].
      destruct (decide (d = x)) as [->|Hdx].
      + exists e. split; [done|]. by trans x.
      + exists d. split; [|done]. apply list_elem_of_filter. split; [done|].
        by apply elem_of_cons in Hd as [?|?]. }
  rewrite Hnil in He'. by apply not_elem_of_nil in He'.
Qed.

(** With all invariants at the end of the loop, a node that was not
    processed has a dependency that was not processed. *)
Lemma unprocessed_has_pending in_degree handled waves n p :
  graph_wf → graph_complete →
  loop_inv [] in_degree handled waves n →
  p ∈ node_ids → p ∉ handled →
  ∃ d, depends_on p d ∧ d ∈ node_ids ∧ d ∉ handled.
Proof.
  intros Hwf Hc (Hnd & _ & Hdeg & Hzero & _) Hp Hnot.
  rewrite app_nil_r in Hnd. setoid_rewrite app_nil_r in Hzero.
  destruct (decide (Forall (λ d, d ∈ handled) (deps p))) as [Hall|Hex].
  - exfalso. apply Hnot, Hzero; [done|]. rewrite Hdeg.
    pose proof (released_bound handled p Hwf Hnd) as Hb.
    assert (length (deps p) ≤ released handled p)%nat; [|lia].
    destruct (deps p) as [|d0 ds] eqn:Hdeps; [simpl; lia|].
    assert (depends_on p d0) as Hd0 by (unfold depends_on; rewrite Hdeps; left).
    destruct (complete_dep p d0 Hc Hd0) as (Hndd & _).
    rewrite <- Hdeps in *. unfold released.
    apply submseteq_length, NoDup_submseteq; [done|].
    intros d Hd. apply list_elem_of_filter. split.
    + by apply (complete_dep p d Hc).
    + by eapply Forall_forall in Hall.
  - apply not_Forall_Exists in Hex; [|apply _].
    apply Exists_exists in Hex as [d [Hd Hnin]].
    exists d. split; [done|]. split; [|done]. by apply (complete_dep p d Hc).
Qed.

Lemma elem_of_concat_take (waves : list ExecutionWave.t) i d :
  d ∈ concat (ExecutionWave.phases <$> take i waves) →
  ∃ j w, (j < i)%nat ∧ waves !! j = Some w ∧ d ∈ ExecutionWave.phases w.
Proof.
  revert i. induction waves as [|w waves IH]; intros i.
  - rewrite take_nil. by intros ?%not_elem_of_nil.
  - destruct i as [|i]; simpl; [by intros ?%not_elem_of_nil|].
    rewrite elem_of_app. intros [Hd|Hd].
    + exists 0%nat, w. split; [lia|done].
    + destruct (IH i Hd) as (j & w' & Hj & Hw & Hin).
      exists (S j), w'. split; [lia|done].
Qed.

(** On an acyclic graph whose edges mirror the declared dependencies, each
    declared once and each a node, [calculate_execution_waves] returns
    waves numbered from 0 in which every phase of the graph occurs once and
    every dependency of a phase lies in an earlier wave. *)
Lemma calculate_execution_waves_acyclic :
  graph_wf → graph_complete → acyclic →
  ∃ waves,
    calculate_execution_waves graph = Some (inr waves) ∧
    concat (ExecutionWave.phases <$> waves) ≡ₚ node_ids ∧
    (∀ i w, waves !! i = Some w → ExecutionWave.wave_number w = Z.of_nat i) ∧
    (∀ i w p d,
       waves !! i = Some w → p ∈ ExecutionWave.phases w → depends_on p d →
       ∃ j w', (j < i)%nat ∧ waves !! j = Some w' ∧ d ∈ ExecutionWave.phases w').
Proof.
  intros Hwf Hc Hacyc.
  destruct (waves_loop_result Hwf) as (waves & handled & deg & Hloop & Hinv).
  pose proof Hinv as (Hnd & Hnodes & _ & _ & Hconcat & Hwaves & _ & _).
  rewrite app_nil_r in Hnd. setoid_rewrite app_nil_r in Hnodes.
  assert (filter (λ p, p ∉ handled) node_ids = []) as Hnone.
  { assert (Irreflexive (tc depends_on)) as Hirr by exact Hacyc.
    apply (no_descent (tc depends_on)).
    intros p [Hnot Hp]%list_elem_of_filter.
      destruct (unprocessed_has_pending _ _ _ _ p Hwf Hc Hinv Hp Hnot)
        as (d & Hd & Hdn & Hdh).
      exists d. split; [by apply list_elem_of_filter|by apply tc_once]. }
  assert (handled ≡ₚ node_ids) as Hperm.
  { apply NoDup_Permutation; [done|by destruct Hwf|].
    intros p. split; [by apply Hnodes|]. intros Hp.
    destruct (decide (p ∈ handled)) as [|Hnot]; [done|].
    assert (p ∈ filter (λ p, p ∉ handled) node_ids) as Hin
      by (by apply list_elem_of_filter).
    rewrite Hnone in Hin. by apply not_elem_of_nil in Hin. }
  exists waves. split; [|split; [by rewrite <- Hconcat|split]].
  - unfold calculate_execution_waves, calculate_execution_waves_fuel.
    rewrite Hloop. simpl. rewrite decide_False; [done|].
    apply Permutation_length in Hperm. unfold node_ids, Dict.keys in Hperm.
    rewrite length_fmap in Hperm. intros Hne. by apply Hne.
  - intros i w Hi. by apply (Hwaves i w).
  - intros i w p d Hi Hp Hd. apply elem_of_concat_take.
    by apply (proj2 (Hwaves i w Hi) p d).
Qed.

Lemma acyclic_by_rank (rank : string → nat) :
  Forall (λ n, Forall (λ d, (rank d < rank n.1)%nat) (PhaseInfo.dependencies n.2))
         (DependencyGraph.nodes graph) →
  acyclic.
Proof.
  intros Hrank.
  assert (∀ p d, depends_on p d → (rank d < rank p)%nat) as Hstep.
  { unfold depends_on, deps, DependencyGraph.get_phase. intros p d Hd.
    destruct (Dict.get (DependencyGraph.nodes graph) p) as [ph|] eqn:Hget;
      [|by apply not_elem_of_nil in Hd].
    apply dict_get_Some in Hget. eapply Forall_forall in Hrank; [|done].
    simpl in Hrank. by eapply Forall_forall in Hrank. }
  assert (∀ p q, tc depends_on p q → (rank q < rank p)%nat) as Htc.
  { induction 1 as [p q Hd|p d q Hd _ IH]; [by apply Hstep|].
    apply Hstep in Hd. lia. }
  intros p Hp. apply Htc in Hp. lia.
Qed.

End waves.

#[global] Instance depends_on_dec graph p d : Decision (depends_on graph p d).
Proof. unfold depends_on. apply _. Defined.

#[global] Instance graph_wf_dec graph : Decision (graph_wf graph).
Proof. unfold graph_wf. apply _. Defined.

#[global] Instance graph_complete_dec graph : Decision (graph_complete graph).
Proof. unfold graph_complete. apply _. Defined.

(** *** Graphs as [build_dependency_graph] builds them *)

Lemma set_add_NoDup x s : NoDup s → NoDup (set_add x s).
Proof.
  intros Hs. unfold set_add. destruct (decide (x ∈ s)); [done|].
  apply NoDup_app. split; [done|]. split; [|apply NoDup_singleton].
  intros y Hy ->%list_elem_of_singleton. done.
Qed.

Lemma elem_of_set_add x y s : y ∈ set_add x s ↔ y = x ∨ y ∈ s.
Proof.
  unfold set_add. destruct (decide (x ∈ s)).
  - split; [by right|]. by intros [->|?].
  - rewrite elem_of_app, list_elem_of_singleton. tauto.
Qed.

Lemma dict_set_keys_NoDup {V} (d : Dict.t V) k v :
  NoDup (Dict.keys d) → NoDup (Dict.keys (Dict.set d k v)).
Proof.
  intros Hnd. destruct (decide (k ∈ Dict.keys d)) as [Hin|Hnin].
  - assert (Dict.keys (Dict.set d k v) = Dict.keys d) as ->; [|done].
    clear Hnd. unfold Dict.keys in *. induction d as [|[k0 v0] d IH]; simpl.
    + by apply not_elem_of_nil in Hin.
    + destruct (decide (k0 = k)) as [->|Hne]; [done|].
      rewrite !fmap_cons. cbn [fst]. f_equal. apply IH.
      rewrite fmap_cons in Hin. by apply elem_of_cons in Hin as [?|?].
  - rewrite dict_set_absent by done. unfold Dict.keys in *. rewrite fmap_app.
    apply NoDup_app. split; [done|]. split; [|apply NoDup_singleton].
    intros x Hx ->%list_elem_of_singleton. done.
Qed.

Lemma dict_set_Forall {V} (P : string * V → Prop) (d : Dict.t V) k v :
  Forall P d → P (k, v) → Forall P (Dict.set d k v).
Proof.
  intros Hd Hkv. induction d as [|[k0 v0] d IH]; simpl.
  - by constructor.
  - apply Forall_cons in Hd as [? ?].
    destruct (decide (k0 = k)); constructor; auto.
Qed.

(** The dependents recorded under [k], as [get_dependents] reads them. *)
Definition dependents_at (e : Dict.t (list string)) (k : string) : list string :=
  default [] (Dict.get e k).

Lemma ensure_key_at e k k' :
  dependents_at (DependencyGraph.ensure_key e k) k' = dependents_at e k'.
Proof.
  unfold DependencyGraph.ensure_key, Dict.contains, dependents_at.
  case_bool_decide as Hk; [done|].
  rewrite dict_get_set. destruct (decide (k = k')) as [<-|?]; [|done].
  destruct (Dict.get e k) eqn:E; [|done]. destruct Hk. by eexists.
Qed.

Lemma add_to_at e k x k' :
  dependents_at (DependencyGraph.add_to e k x) k'
  = if decide (k = k') then set_add x (dependents_at e k) else dependents_at e k'.
Proof.
  unfold DependencyGraph.add_to, dependents_at. rewrite dict_get_set.
  by destruct (decide (k = k')).
Qed.

Lemma add_dependency_at pid er dep_id k :
  dependents_at (DependencyGraph.add_dependency pid er dep_id).1 k
  = if decide (dep_id = k) then set_add pid (dependents_at er.1 k)
    else dependents_at er.1 k.
Proof.
  unfold DependencyGraph.add_dependency. simpl. rewrite add_to_at.
  destruct (decide (dep_id = k)) as [->|?]; by rewrite ensure_key_at.
Qed.

Lemma add_dependencies_at pid deps er k p :
  p ∈ dependents_at (foldl (DependencyGraph.add_dependency pid) er deps).1 k
  ↔ p ∈ dependents_at er.1 k ∨ (p = pid ∧ k ∈ deps).
Proof.
  revert er. induction deps as [|d deps IH]; intros er; simpl.
  - split; [by left|]. intros [?|[_ ?%not_elem_of_nil]]; done.
  - rewrite IH, add_dependency_at, elem_of_cons.
    destruct (decide (d = k)) as [->|Hne].
    + rewrite elem_of_set_add. naive_solver.
    + naive_solver.
Qed.

(** Every entry of the dependents index is duplicate-free and relates its
    members to its key by [R]. *)
Definition edges_ok (R : string → string → Prop) (e : Dict.t (list string)) : Prop :=
  Forall (λ kv, NoDup kv.2 ∧ Forall (λ p, R p kv.1) kv.2) e.

Lemma edges_ok_at R e k :
  edges_ok R e → NoDup (dependents_at e k) ∧ Forall (λ p, R p k) (dependents_at e k).
Proof.
  intros He. unfold dependents_at. destruct (Dict.get e k) as [ps|] eqn:E; simpl.
  - apply dict_get_Some in E. unfold edges_ok in He. rewrite Forall_forall in He.
    exact (He _ E).
  - split; constructor.
Qed.

Lemma ensure_key_ok R e k : edges_ok R e → edges_ok R (DependencyGraph.ensure_key e k).
Proof.
  intros He. unfold DependencyGraph.ensure_key, Dict.contains.
  case_bool_decide; [done|].
  apply dict_set_Forall; [done|]. split; constructor.
Qed.

Lemma add_to_ok R e k x : edges_ok R e → R x k → edges_ok R (DependencyGraph.add_to e k x).
Proof.
  intros He Hx. unfold DependencyGraph.add_to. apply dict_set_Forall; [done|].
  destruct (edges_ok_at R e k He) as [Hnd Hall]. simpl. split.
  - by apply set_add_NoDup.
  - apply Forall_forall. intros p [->|Hp]%elem_of_set_add; [done|].
    rewrite Forall_forall in Hall. auto.
Qed.

Lemma add_dependencies_ok R pid deps er :
  edges_ok R er.1 → Forall (R pid) deps →
  edges_ok R (foldl (DependencyGraph.add_dependency pid) er deps).1.
Proof.
  revert er. induction deps as [|d deps IH]; intros er He Hdeps; simpl; [done|].
  apply Forall_cons in Hdeps as [Hd Hdeps]. apply IH; [|done].
  unfold DependencyGraph.add_dependency. simpl.
  apply add_to_ok; [|done]. by apply ensure_key_ok.
Qed.

Lemma add_phases_snoc phases phase :
  DependencyAnalyzer.add_phases (phases ++ [phase])
  = DependencyGraph.add_phase (DependencyAnalyzer.add_phases phases) phase.
Proof. unfold DependencyAnalyzer.add_phases. by rewrite foldl_snoc. Qed.

Lemma add_phases_nodes phases :
  NoDup (PhaseInfo.id <$> phases) →
  DependencyGraph.nodes (DependencyAnalyzer.add_phases phases)
  = (λ phase, (PhaseInfo.id phase, phase)) <$> phases.
Proof.
  induction phases as [|phase phases IH] using rev_ind; [done|].
  rewrite fmap_app. intros [Hnd [Hfresh _]]%NoDup_app.
  rewrite add_phases_snoc. simpl. rewrite IH by done.
  rewrite dict_set_absent; [by rewrite fmap_app|].
  unfold Dict.keys. rewrite <- list_fmap_compose. simpl.
  intros Hin. apply (Hfresh _ Hin). simpl. left.
Qed.

Lemma add_phases_deps phases phase :
  NoDup (PhaseInfo.id <$> phases) → phase ∈ phases →
  deps (DependencyAnalyzer.add_phases phases) (PhaseInfo.id phase)
  = PhaseInfo.dependencies phase.
Proof.
  intros Hnd Hin. unfold deps, DependencyGraph.get_phase.
  rewrite (dict_get_elem_of _ (PhaseInfo.id phase) phase); [done| |].
  - unfold Dict.keys. rewrite add_phases_nodes by done.
    by rewrite <- list_fmap_compose.
  - rewrite add_phases_nodes by done.
    apply list_elem_of_fmap. by exists phase.
Qed.

Lemma add_phases_deps_inv phases p d :
  NoDup (PhaseInfo.id <$> phases) →
  depends_on (DependencyAnalyzer.add_phases phases) p d →
  ∃ phase, phase ∈ phases ∧ PhaseInfo.id phase = p ∧ d ∈ PhaseInfo.dependencies phase.
Proof.
  intros Hnd Hdep. unfold depends_on, deps, DependencyGraph.get_phase in Hdep.
  destruct (Dict.get _ p) as [phase|] eqn:E; [|by apply not_elem_of_nil in Hdep].
  apply dict_get_Some in E. rewrite add_phases_nodes in E by done.
  apply list_elem_of_fmap in E as [phase' [[= -> ->] Hin]]. by exists phase'.
Qed.

(** The dependents index after the first pass holds exactly the declared
    dependencies. *)
Lemma add_phases_dependents phases p d :
  p ∈ DependencyGraph.get_dependents (DependencyAnalyzer.add_phases phases) d
  ↔ ∃ phase, phase ∈ phases ∧ PhaseInfo.id phase = p ∧ d ∈ PhaseInfo.dependencies phase.
Proof.
  change (DependencyGraph.get_dependents ?g d)
    with (dependents_at (DependencyGraph.edges g) d).
  induction phases as [|phase phases IH] using rev_ind.
  - simpl. split; [by intros ?%not_elem_of_nil|].
    by intros [? [?%not_elem_of_nil _]].
  - rewrite add_phases_snoc. simpl.
    rewrite add_dependencies_at. simpl. rewrite ensure_key_at, IH.
    setoid_rewrite elem_of_app. setoid_rewrite list_elem_of_singleton.
    naive_solver.
Qed.

(** [p] is a phase of the list and declares [d] among its dependencies. *)
Definition declared (phases : list PhaseInfo.t) (p d : string) : Prop :=
  ∃ phase, phase ∈ phases ∧ PhaseInfo.id phase = p ∧ d ∈ PhaseInfo.dependencies phase.

Lemma edges_ok_impl (R R' : string → string → Prop) e :
  (∀ p k, R p k → R' p k) → edges_ok R e → edges_ok R' e.
Proof.
  intros HR He. unfold edges_ok in *.
  eapply Forall_impl; [exact He|]. intros [k ps] [? Hps]. split; [done|].
  eapply Forall_impl; [exact Hps|]. simpl. auto.
Qed.

Lemma add_phases_edges_ok phases :
  edges_ok (declared phases)
           (DependencyGraph.edges (DependencyAnalyzer.add_phases phases)).
Proof.
  induction phases as [|phase phases IH] using rev_ind; [constructor|].
  rewrite add_phases_snoc. simpl.
  apply add_dependencies_ok; simpl.
  - apply ensure_key_ok. eapply edges_ok_impl; [|exact IH].
    intros p k [ph [Hin ?]]. exists ph. split; [|done]. apply elem_of_app. by left.
  - apply Forall_forall. intros d Hd. exists phase. split; [|done].
    apply elem_of_app. right. left.
Qed.

(** Phases with distinct ids give a graph whose dependents index records
    declared dependencies only. *)
Lemma add_phases_wf phases :
  NoDup (PhaseInfo.id <$> phases) → graph_wf (DependencyAnalyzer.add_phases phases).
Proof.
  intros Hnd. split.
  - unfold node_ids, Dict.keys. rewrite add_phases_nodes by done.
    by rewrite <- list_fmap_compose.
  - eapply (edges_ok_impl (declared phases)); [|apply add_phases_edges_ok].
    intros p k [phase [Hin [<- Hd]]].
    unfold depends_on. by rewrite add_phases_deps.
Qed.

(** When, besides, no phase repeats a dependency and every dependency is a
    phase of the list (the second pass checks the latter), the index records
    every declared dependency. *)
Lemma add_phases_complete phases :
  NoDup (PhaseInfo.id <$> phases) →
  Forall (λ phase, NoDup (PhaseInfo.dependencies phase)) phases →
  Forall (λ phase, Forall (λ d, d ∈ PhaseInfo.id <$> phases)
                          (PhaseInfo.dependencies phase)) phases →
  graph_complete (DependencyAnalyzer.add_phases phases).
Proof.
  intros Hnd Hdeps Hex. unfold graph_complete.
  rewrite add_phases_nodes by done. apply Forall_fmap, Forall_forall.
  intros phase Hin. simpl. rewrite Forall_forall in Hdeps, Hex.
  split; [by apply Hdeps|]. apply Forall_forall. intros d Hd. split.
  - unfold node_ids, Dict.keys. rewrite add_phases_nodes by done.
    rewrite <- list_fmap_compose. specialize (Hex _ Hin).
    rewrite Forall_forall in Hex. by apply Hex.
  - apply add_phases_dependents. by exists phase.
Qed.

Lemma first_missing_None phase_ids phases :
  DependencyAnalyzer.first_missing phase_ids phases = None →
  Forall (λ phase, Forall (λ d, d ∈ phase_ids) (PhaseInfo.dependencies phase)) phases.
Proof.
  unfold DependencyAnalyzer.first_missing. intros Hhead.
  apply head_None in Hhead.
  apply Forall_forall. intros phase Hin. apply Forall_forall. intros d Hd.
  destruct (decide (d ∈ phase_ids)) as [|Hno]; [done|].
  assert (DependencyAnalyzer.NonExistentPhase (PhaseInfo.id phase) d ∈ @nil _) as Habs;
    [|by apply not_elem_of_nil in Habs].
  rewrite <- Hhead. apply list_elem_of_bind. exists phase. split; [|done].
  apply list_elem_of_bind. exists d. split; [|done].
  rewrite decide_False by done. left.
Qed.

(** A graph [build_dependency_graph] returns for phases with distinct ids
    and duplicate-free dependency lists meets both conditions. *)
Lemma build_dependency_graph_wf phases graph :
  DependencyAnalyzer.build_dependency_graph phases = inr graph →
  NoDup (PhaseInfo.id <$> phases) →
  graph_wf graph ∧
  (Forall (λ phase, NoDup (PhaseInfo.dependencies phase)) phases → graph_complete graph).
Proof.
  unfold DependencyAnalyzer.build_dependency_graph.
  destruct (DependencyAnalyzer.first_missing _ _) eqn:E; [done|].
  intros [= <-] Hnd. split; [by apply add_phases_wf|].
  intros Hdeps. apply add_phases_complete; [done..|].
  by apply first_missing_None.
Qed.

(** *** Concrete graphs *)

Definition phase (id : string) (dependencies : list string) : PhaseInfo.t :=
  PhaseInfo.mk id id dependencies [] 1 "".

(** The graph [add_phase] builds from a list of phases. *)
Definition graph_of (phases : list PhaseInfo.t) : DependencyGraph.t :=
  DependencyAnalyzer.add_phases phases.

(** A depends on nothing, B names A twice. *)
Definition graph_repeated : DependencyGraph.t :=
  graph_of [phase "A" []; phase "B" ["A"; "A"]].

(** A and B depend on each other, C is independent. *)
Definition graph_cycle : DependencyGraph.t :=
  graph_of [phase "A" ["B"]; phase "B" ["A"]; phase "C" []].

(** The scenario of the specification: C depends on A and B. *)
Definition graph_abc : DependencyGraph.t :=
  graph_of [phase "A" []; phase "B" []; phase "C" ["A"; "B"]].

(** C1, at a phase that names a dependency twice: the graph, which
    [build_dependency_graph] accepts, is well formed and has no cycle, yet
    [calculate_execution_waves] raises its circular-dependency error.  The in-degree of B is the length of its
    dependency list, 2, while A has B once among its dependents, so the
    in-degree of B never reaches 0. *)
Theorem calculate_execution_waves_repeated_dependency :
  DependencyAnalyzer.build_dependency_graph [phase "A" []; phase "B" ["A"; "A"]]
    = inr graph_repeated ∧
  graph_wf graph_repeated ∧
  acyclic graph_repeated ∧
  WaveCalculator.calculate_execution_waves graph_repeated
    = Some (inl (WaveCalculator.CircularDependency ["B"])).
Proof.
  split; [by vm_compute|].
  split; [by apply (bool_decide_unpack _); vm_compute|].
  split; [|by vm_compute].
  apply (acyclic_by_rank _ (λ p, if decide (p = "B") then 1 else 0)%nat).
  by apply (bool_decide_unpack _); vm_compute.
Qed.

Lemma graph_cycle_wf : graph_wf graph_cycle.
Proof. by apply (bool_decide_unpack _); vm_compute. Qed.

Lemma graph_cycle_on_cycle : on_cycle graph_cycle "A".
Proof.
  apply (tc_l _ _ "B"); [|apply tc_once];
    by apply (bool_decide_unpack _); vm_compute.
Qed.

Lemma calculate_execution_waves_cycle_witness :
  graph_wf graph_cycle ∧ on_cycle graph_cycle "A" ∧
  ∃ unprocessed,
    WaveCalculator.calculate_execution_waves graph_cycle
      = Some (inl (WaveCalculator.CircularDependency unprocessed)) ∧
    "A" ∈ unprocessed.
Proof.
  split; [exact graph_cycle_wf|]. split; [exact graph_cycle_on_cycle|].
  exact (calculate_execution_waves_cycle graph_cycle "A"
           graph_cycle_wf graph_cycle_on_cycle).
Defined.

(** The scenario of the specification: wave 0 holds A and B, wave 1 holds C. *)
Lemma calculate_execution_waves_abc :
  graph_wf graph_abc ∧ graph_complete graph_abc ∧ acyclic graph_abc ∧
  WaveCalculator.calculate_execution_waves graph_abc
    = Some (inr [wave_of 0 ["A"; "B"]; wave_of 1 ["C"]]).
Proof.
  split; [by apply (bool_decide_unpack _); vm_compute|].
  split; [by apply (bool_decide_unpack _); vm_compute|].
  split; [|by vm_compute].
  apply (acyclic_by_rank _ (λ p, if decide (p = "C") then 1 else 0)%nat).
  by apply (bool_decide_unpack _); vm_compute.
Qed.

(** X10: scheduling a graph [build_dependency_graph] returns: when the
    phases have distinct ids, repeat no dependency and form no cycle, every
    phase is in exactly one wave and every dependency in an earlier one. *)
Lemma calculate_execution_waves_built phases graph :
  DependencyAnalyzer.build_dependency_graph phases = inr graph →
  NoDup (PhaseInfo.id <$> phases) →
  Forall (λ phase, NoDup (PhaseInfo.dependencies phase)) phases →
  acyclic graph →
  ∃ waves,
    WaveCalculator.calculate_execution_waves graph = Some (inr waves) ∧
    concat (ExecutionWave.phases <$> waves) ≡ₚ PhaseInfo.id <$> phases ∧
    (∀ i w, waves !! i = Some w → ExecutionWave.wave_number w = Z.of_nat i) ∧
    (∀ i w p d, waves !! i = Some w → p ∈ ExecutionWave.phases w →
       depends_on graph p d →
       ∃ j w', (j < i)%nat ∧ waves !! j = Some w' ∧ d ∈ ExecutionWave.phases w').
Proof.
  intros Hbuild Hnd Hdeps Hacyc.
  destruct (build_dependency_graph_wf phases graph Hbuild Hnd) as [Hwf Hcomplete].
  destruct (calculate_execution_waves_acyclic graph Hwf (Hcomplete Hdeps) Hacyc)
    as [waves [Hrun [Hperm Hrest]]].
  exists waves. split; [done|]. split; [|done].
  rewrite Hperm. unfold DependencyAnalyzer.build_dependency_graph in Hbuild.
  destruct (DependencyAnalyzer.first_missing _ _); [done|].
  injection Hbuild as <-. unfold node_ids, Dict.keys.
  rewrite add_phases_nodes by done. by rewrite <- list_fmap_compose.
Qed.

(** A graph to which a phase id was added twice: the first "A" declared a
    dependency on "C", the second one depends on "B".  The dependents of
    "C" still list "A". *)
Definition graph_readded : DependencyGraph.t :=
  graph_of [phase "A" ["C"]; phase "A" ["B"]; phase "B" ["A"]; phase "C" []].

(** C2, at a phase id that is added twice: [build_dependency_graph]
    accepts the phases, and in the graph it returns "A" and "B" depend on
    each other, so the graph contains a cycle.  [add_phase] has replaced
    the node "A" and kept the edge from "C" to "A" that the first "A"
    declared; the in-degree of "A", counted from the new node, is 1, and
    processing "C" brings it to 0.  [calculate_execution_waves] raises no
    error: it returns three waves, with "A" in a wave before "B", on which
    it depends. *)
Theorem calculate_execution_waves_readded_phase :
  DependencyAnalyzer.build_dependency_graph
    [phase "A" ["C"]; phase "A" ["B"]; phase "B" ["A"]; phase "C" []]
    = inr graph_readded ∧
  depends_on graph_readded "A" "B" ∧ depends_on graph_readded "B" "A" ∧
  on_cycle graph_readded "A" ∧
  DependencyGraph.get_dependents graph_readded "C" = ["A"] ∧
  ¬ depends_on graph_readded "A" "C" ∧
  ¬ graph_wf graph_readded ∧
  WaveCalculator.calculate_execution_waves graph_readded
    = Some (inr [wave_of 0 ["C"]; wave_of 1 ["A"]; wave_of 2 ["B"]]).
Proof.
  assert (depends_on graph_readded "A" "B") as HAB
    by (by apply (bool_decide_unpack _); vm_compute).
  assert (depends_on graph_readded "B" "A") as HBA
    by (by apply (bool_decide_unpack _); vm_compute).
  split; [by vm_compute|].
  split; [exact HAB|]. split; [exact HBA|].
  split; [by apply (tc_l _ _ "B"); [|apply tc_once]|].
  split; [by vm_compute|].
  split; [by apply (bool_decide_unpack _); vm_compute|].
  split; [by apply (bool_decide_unpack _); vm_compute|].
  by vm_compute.
Qed.

(** ** Wave calculation: what holds whenever waves are returned *)

Section wave_numbers.
Import WaveCalculator.

Lemma add_phases_wave_number (w : ExecutionWave.t) (batch : list string) :
  ExecutionWave.wave_number (foldl ExecutionWave.add_phase w batch)
  = ExecutionWave.wave_number w.
Proof.
  revert w. induction batch as [|p batch IH]; intros w; [done|].
  simpl. rewrite IH. unfold ExecutionWave.add_phase. by case_decide.
Qed.

(** The wave and the processed set after a batch do not depend on the graph. *)
Lemma process_batch_wave graph (batch : list string) (st : loop_state) :
  current_wave (foldl (process_phase graph) st batch)
  = foldl ExecutionWave.add_phase (current_wave st) batch ∧
  processed (foldl (process_phase graph) st batch)
  = foldl (λ s p, set_add p s) (processed st) batch.
Proof.
  revert st. induction batch as [|p batch IH]; intros st; [done|].
  simpl. destruct (IH (process_phase graph st p)) as [-> ->]. done.
Qed.

Lemma add_phases_fresh (n : Z) (done batch : list string) :
  NoDup (done ++ batch) →
  foldl ExecutionWave.add_phase (ExecutionWave.mk n done None None "pending") batch
  = ExecutionWave.mk n (done ++ batch) None None "pending".
Proof.
  revert done. induction batch as [|p batch IH]; intros done Hnd; simpl.
  - by rewrite app_nil_r.
  - unfold ExecutionWave.add_phase at 2. simpl.
    rewrite decide_False.
    + rewrite IH; [by rewrite <- (assoc_L (++))|]. by rewrite <- (assoc_L (++)).
    + apply NoDup_app in Hnd as (_ & Hnd & _). intros Hin. apply (Hnd p Hin). left.
Qed.

(** The numbering of the waves, whatever the graph. *)
Lemma waves_loop_numbered graph fuel queue in_degree processed waves n waves' processed' :
  n = Z.of_nat (length waves) →
  (∀ i w, waves !! i = Some w → ExecutionWave.wave_number w = Z.of_nat i) →
  waves_loop fuel graph queue in_degree processed waves n = Some (waves', processed') →
  ∀ i w, waves' !! i = Some w → ExecutionWave.wave_number w = Z.of_nat i.
Proof.
  revert queue in_degree processed waves n.
  induction fuel as [|fuel IH]; intros queue deg processed waves n Hn Hnum Hloop.
  - destruct queue; simpl in Hloop; [|done]. by injection Hloop as <- _.
  - destruct queue as [|q queue]; [simpl in Hloop; by injection Hloop as <- _|].
    cbn [waves_loop] in Hloop.
    set (st := foldl _ _ _) in Hloop.
    assert (ExecutionWave.wave_number (current_wave st) = n) as Hwn.
    { subst st. rewrite (proj1 (process_batch_wave graph _ _)).
      by rewrite add_phases_wave_number. }
    destruct (ExecutionWave.phases (current_wave st)).
    + by eapply IH.
    + eapply IH; [| |exact Hloop].
      * rewrite length_app. simpl. lia.
      * intros i w Hi. apply lookup_app_Some in Hi as [Hi|[Hge Hi]]; [by apply Hnum|].
        apply list_lookup_singleton_Some in Hi as [Hi <-]. rewrite Hwn. lia.
Qed.

Lemma returned_waves_numbered graph waves :
  calculate_execution_waves graph = Some (inr waves) →
  ∀ i w, waves !! i = Some w → ExecutionWave.wave_number w = Z.of_nat i.
Proof.
  unfold calculate_execution_waves, calculate_execution_waves_fuel. intros Hret.
  destruct (waves_loop _ _ _ _ _ _ _) as [[ws processed]|] eqn:Hloop; [|done].
  simpl in Hret. destruct (decide _); [done|]. injection Hret as ->.
  eapply waves_loop_numbered; [| |exact Hloop]; [done|].
  intros i w Hi. by rewrite lookup_nil in Hi.
Qed.

End wave_numbers.

Section schedule.
Variable graph : DependencyGraph.t.

Lemma calculate_result_inv :
  graph_wf graph →
  ∃ waves handled in_degree,
    loop_inv graph [] in_degree handled waves (Z.of_nat (length waves)) ∧
    WaveCalculator.calculate_execution_waves graph =
      Some (if decide (length handled ≠ length (DependencyGraph.nodes graph))
            then inl (WaveCalculator.CircularDependency
                        (filter (λ k, k ∉ handled) (node_ids graph)))
            else inr waves).
Proof.
  intros Hwf.
  destruct (waves_loop_result graph Hwf) as (waves & handled & deg & Hloop & Hinv).
  exists waves, handled, deg. split; [done|].
  unfold WaveCalculator.calculate_execution_waves,
    WaveCalculator.calculate_execution_waves_fuel.
  rewrite Hloop. simpl. by destruct (decide _).
Qed.

Lemma returned_waves_inv waves :
  graph_wf graph →
  WaveCalculator.calculate_execution_waves graph = Some (inr waves) →
  waves_ok graph waves ∧ topo graph (concat (ExecutionWave.phases <$> waves)) ∧
  NoDup (concat (ExecutionWave.phases <$> waves)) ∧
  concat (ExecutionWave.phases <$> waves) ≡ₚ node_ids graph.
Proof.
  intros Hwf Hret.
  destruct (calculate_result_inv Hwf) as (waves0 & handled & deg & Hinv & Hcalc).
  rewrite Hcalc in Hret. destruct (decide _) as [|Hlen]; [done|].
  injection Hret as ->. apply dec_stable in Hlen.
  destruct Hinv as (Hnd & Hnodes & _ & _ & Hconcat & Hwaves & _ & Htopo).
  rewrite app_nil_r in Hnd. setoid_rewrite app_nil_r in Hnodes.
  rewrite <- Hconcat. split; [done|]. split; [done|]. split; [done|].
  apply submseteq_length_Permutation.
  - by apply NoDup_submseteq.
  - unfold node_ids, Dict.keys. rewrite length_fmap. lia.
Qed.

Lemma waves_loop_nonempty fuel queue in_degree processed waves n waves' processed' :
  Forall (λ w, ExecutionWave.phases w ≠ []) waves →
  WaveCalculator.waves_loop fuel graph queue in_degree processed waves n
    = Some (waves', processed') →
  Forall (λ w, ExecutionWave.phases w ≠ []) waves'.
Proof.
  revert queue in_degree processed waves n.
  induction fuel as [|fuel IH]; intros queue deg processed waves n Hne Hloop.
  - destruct queue; simpl in Hloop; [|done]. by injection Hloop as <- _.
  - destruct queue as [|q queue]; [simpl in Hloop; by injection Hloop as <- _|].
    cbn [WaveCalculator.waves_loop] in Hloop.
    set (st := foldl _ _ _) in Hloop.
    destruct (ExecutionWave.phases (WaveCalculator.current_wave st)) eqn:Hphases.
    + by apply IH in Hloop.
    + apply IH in Hloop; [done|]. apply Forall_app. split; [done|].
      constructor; [|done]. by rewrite Hphases.
Qed.

(** X11: on a graph whose dependents index records declared dependencies
    only, [calculate_execution_waves] always comes to a result, and
    whenever that result is a list of waves, the waves are a schedule:
    every phase of the graph occurs in exactly one wave, no wave is empty,
    the waves are numbered 0, 1, 2, ... and every dependency of a phase
    lies in a strictly earlier wave. *)
Theorem calculate_execution_waves_sound :
  graph_wf graph →
  (∃ result, WaveCalculator.calculate_execution_waves graph = Some result) ∧
  ∀ waves,
    WaveCalculator.calculate_execution_waves graph = Some (inr waves) →
    concat (ExecutionWave.phases <$> waves) ≡ₚ node_ids graph ∧
    Forall (λ w, ExecutionWave.phases w ≠ []) waves ∧
    (∀ i w, waves !! i = Some w → ExecutionWave.wave_number w = Z.of_nat i) ∧
    (∀ i w p d,
       waves !! i = Some w → p ∈ ExecutionWave.phases w → depends_on graph p d →
       ∃ j w', (j < i)%nat ∧ waves !! j = Some w' ∧ d ∈ ExecutionWave.phases w').
Proof.
  intros Hwf. split.
  { destruct (calculate_result_inv Hwf) as (waves & handled & deg & _ & Hcalc).
    eauto. }
  intros waves Hret.
  destruct (returned_waves_inv waves Hwf Hret) as (Hok & _ & _ & Hperm).
  split; [done|]. split; [|split].
  - unfold WaveCalculator.calculate_execution_waves,
      WaveCalculator.calculate_execution_waves_fuel in Hret.
    destruct (WaveCalculator.waves_loop _ _ _ _ _ _ _) as [[ws processed]|] eqn:Hloop;
      [|done].
    simpl in Hret. destruct (decide _); [done|]. injection Hret as ->.
    eapply waves_loop_nonempty; [|exact Hloop]. constructor.
  - intros i w Hi. by apply (Hok i w).
  - intros i w p d Hi Hp Hd. apply elem_of_concat_take.
    by apply (proj2 (Hok i w Hi) p d).
Qed.

(** X12: on a graph whose dependents index mirrors the declared
    dependencies, each declared once and each a node,
    [calculate_execution_waves] returns waves exactly when the graph has no
    dependency cycle. *)
Theorem calculate_execution_waves_returns_iff_acyclic :
  graph_wf graph → graph_complete graph →
  (∃ waves, WaveCalculator.calculate_execution_waves graph = Some (inr waves))
  ↔ acyclic graph.
Proof.
  intros Hwf Hcomplete. split.
  - intros [waves Hret] p Hcycle.
    destruct (returned_waves_inv waves Hwf Hret) as (_ & Htopo & _ & Hperm).
    apply (topo_no_cycle graph _ p Htopo); [|done].
    rewrite Hperm. by apply on_cycle_node.
  - intros Hacyc.
    destruct (calculate_execution_waves_acyclic graph Hwf Hcomplete Hacyc)
      as [waves [Hret _]].
    by exists waves.
Qed.

(** X13: on a graph whose dependents index records declared dependencies
    only ([graph_wf], as [add_phase] builds it from phases with distinct
    ids), a phase scheduled by [calculate_execution_waves] can execute once
    the earlier waves are done: if every phase of every earlier wave has
    status [COMPLETED] in the execution state, [_can_execute_phase] holds
    for every phase of the wave.  Without [graph_wf] this fails: on
    [graph_readded] "A" is scheduled before "B", on which it depends. *)
Theorem scheduled_phase_can_execute (waves : list ExecutionWave.t)
    (execution_state : ExecutionState.t) (i : nat) (w : ExecutionWave.t)
    (p : string) :
  graph_wf graph →
  WaveCalculator.calculate_execution_waves graph = Some (inr waves) →
  waves !! i = Some w → p ∈ ExecutionWave.phases w →
  (∀ j w' q, (j < i)%nat → waves !! j = Some w' → q ∈ ExecutionWave.phases w' →
             ExecutionState.get_phase_status execution_state q = COMPLETED) →
  WaveExecutor._can_execute_phase graph execution_state p = true.
Proof.
  intros Hwf Hret Hi Hp Hdone.
  destruct (returned_waves_inv waves Hwf Hret) as (Hok & _ & _ & Hperm).
  assert (p ∈ node_ids graph) as Hnode.
  { rewrite <- Hperm. apply elem_of_concat. exists (ExecutionWave.phases w).
    split; [done|]. apply list_elem_of_fmap. exists w. split; [done|].
    by eapply list_elem_of_lookup_2. }
  unfold WaveExecutor._can_execute_phase.
  apply dict_get_keys in Hnode as [phase Hphase].
  unfold DependencyGraph.get_phase. rewrite Hphase.
  apply Is_true_true, forallb_True, Forall_forall. intros d Hd.
  apply bool_decide_pack.
  assert (depends_on graph p d) as Hdep.
  { unfold depends_on, deps, DependencyGraph.get_phase. by rewrite Hphase. }
  apply (proj2 (Hok i w Hi)) in Hdep; [|done].
  apply elem_of_concat_take in Hdep as (j & w' & Hj & Hw' & Hin).
  by apply (Hdone j w' d).
Qed.

(** X14: with the waves [calculate_execution_waves] returns, for whatever
    graph, stored in the execution state, [transition_to_next_wave] answers
    the wave that follows the current one in the list, and nothing after
    the last. *)
Theorem transition_to_next_wave_spec (lock_registry : LockRegistry.t)
    (execution_state : ExecutionState.t) (i : nat) (w : ExecutionWave.t) :
  WaveCalculator.calculate_execution_waves graph
    = Some (inr (ExecutionState.waves execution_state)) →
  ExecutionState.waves execution_state !! i = Some w →
  (WaveExecutor.transition_to_next_wave lock_registry execution_state w).2
  = ExecutionState.waves execution_state !! S i.
Proof.
  intros Hret Hi.
  pose proof (returned_waves_numbered graph _ Hret) as Hok.
  unfold WaveExecutor.transition_to_next_wave. simpl.
  rewrite (Hok i w Hi).
  set (waves := ExecutionState.waves execution_state) in *.
  destruct (waves !! S i) as [w'|] eqn:Hnext.
  - assert (list_find
              (λ wave, ExecutionWave.wave_number wave = Z.of_nat i + 1) waves
            = Some (S i, w')) as ->; [|done].
    apply list_find_Some. split; [done|]. split.
    + rewrite (Hok (S i) w' Hnext). lia.
    + intros j y Hj Hlt. rewrite (Hok j y Hj). lia.
  - assert (list_find
              (λ wave, ExecutionWave.wave_number wave = Z.of_nat i + 1) waves
            = None) as ->; [|done].
    apply list_find_None, Forall_forall. intros y Hy.
    apply list_elem_of_lookup in Hy as [j Hj].
    rewrite (Hok j y Hj). intros Heq.
    assert (j = S i) as -> by lia. congruence.
Qed.

End schedule.

(** *** The scenario graph, continued *)

Definition phases_abc : list PhaseInfo.t :=
  [phase "A" []; phase "B" []; phase "C" ["A"; "B"]].

Definition waves_abc : list ExecutionWave.t := [wave_of 0 ["A"; "B"]; wave_of 1 ["C"]].

Lemma graph_abc_wf : graph_wf graph_abc.
Proof. exact (proj1 calculate_execution_waves_abc). Qed.

Lemma graph_abc_complete : graph_complete graph_abc.
Proof. exact (proj1 (proj2 calculate_execution_waves_abc)). Qed.

Lemma graph_abc_acyclic : acyclic graph_abc.
Proof. exact (proj1 (proj2 (proj2 calculate_execution_waves_abc))). Qed.

Lemma graph_abc_waves :
  WaveCalculator.calculate_execution_waves graph_abc = Some (inr waves_abc).
Proof. exact (proj2 (proj2 (proj2 calculate_execution_waves_abc))). Qed.

Lemma calculate_execution_waves_built_witness :
  DependencyAnalyzer.build_dependency_graph phases_abc = inr graph_abc ∧
  NoDup (PhaseInfo.id <$> phases_abc) ∧
  Forall (λ phase, NoDup (PhaseInfo.dependencies phase)) phases_abc ∧
  acyclic graph_abc ∧
  ∃ waves,
    WaveCalculator.calculate_execution_waves graph_abc = Some (inr waves) ∧
    concat (ExecutionWave.phases <$> waves) ≡ₚ PhaseInfo.id <$> phases_abc ∧
    (∀ i w, waves !! i = Some w → ExecutionWave.wave_number w = Z.of_nat i) ∧
    (∀ i w p d, waves !! i = Some w → p ∈ ExecutionWave.phases w →
       depends_on graph_abc p d →
       ∃ j w', (j < i)%nat ∧ waves !! j = Some w' ∧ d ∈ ExecutionWave.phases w').
Proof.
  assert (DependencyAnalyzer.build_dependency_graph phases_abc = inr graph_abc)
    as Hbuild by (by vm_compute).
  assert (NoDup (PhaseInfo.id <$> phases_abc)) as Hids
    by (apply (bool_decide_unpack _); by vm_compute).
  assert (Forall (λ phase, NoDup (PhaseInfo.dependencies phase)) phases_abc) as Hdeps
    by (apply (bool_decide_unpack _); by vm_compute).
  split; [exact Hbuild|]. split; [exact Hids|]. split; [exact Hdeps|].
  split; [exact graph_abc_acyclic|].
  exact (calculate_execution_waves_built phases_abc graph_abc Hbuild Hids Hdeps
           graph_abc_acyclic).
Defined.

Lemma calculate_execution_waves_sound_witness :
  graph_wf graph_abc ∧
  ∃ result, WaveCalculator.calculate_execution_waves graph_abc = Some result.
Proof.
  split; [exact graph_abc_wf|].
  exact (proj1 (calculate_execution_waves_sound graph_abc graph_abc_wf)).
Defined.

Lemma calculate_execution_waves_returns_iff_acyclic_witness :
  graph_wf graph_abc ∧ graph_complete graph_abc ∧
  ((∃ waves, WaveCalculator.calculate_execution_waves graph_abc = Some (inr waves))
   ↔ acyclic graph_abc).
Proof.
  split; [exact graph_abc_wf|]. split; [exact graph_abc_complete|].
  exact (calculate_execution_waves_returns_iff_acyclic graph_abc graph_abc_wf
           graph_abc_complete).
Defined.

(** A and B are completed, C has not started. *)
Definition state_ab_done : ExecutionState.t :=
  ExecutionState.mk
    (<["A" := PhaseExecutionDetails.set_status (PhaseExecutionDetails.new "A") COMPLETED]>
       (<["B" := PhaseExecutionDetails.set_status (PhaseExecutionDetails.new "B") COMPLETED]>
          ∅))
    waves_abc ∅ None None [].

Lemma state_ab_done_earlier :
  ∀ j w' q, (j < 1)%nat → waves_abc !! j = Some w' → q ∈ ExecutionWave.phases w' →
            ExecutionState.get_phase_status state_ab_done q = COMPLETED.
Proof.
  intros j w' q Hj Hw Hq. destruct j as [|j]; [|lia].
  injection Hw as <-. simpl in Hq.
  apply elem_of_cons in Hq as [->|Hq]; [by vm_compute|].
  apply list_elem_of_singleton in Hq as ->. by vm_compute.
Qed.

Lemma scheduled_phase_can_execute_witness :
  graph_wf graph_abc ∧
  WaveCalculator.calculate_execution_waves graph_abc = Some (inr waves_abc) ∧
  waves_abc !! 1%nat = Some (wave_of 1 ["C"]) ∧
  "C" ∈ ExecutionWave.phases (wave_of 1 ["C"]) ∧
  WaveExecutor._can_execute_phase graph_abc state_ab_done "C" = true.
Proof.
  assert ("C" ∈ ExecutionWave.phases (wave_of 1 ["C"])) as Hin by (simpl; left).
  split; [exact graph_abc_wf|]. split; [exact graph_abc_waves|].
  split; [reflexivity|]. split; [exact Hin|].
  exact (scheduled_phase_can_execute graph_abc waves_abc state_ab_done 1
           (wave_of 1 ["C"]) "C" graph_abc_wf graph_abc_waves eq_refl Hin
           state_ab_done_earlier).
Defined.

Lemma transition_to_next_wave_spec_witness :
  WaveCalculator.calculate_execution_waves graph_abc
    = Some (inr (ExecutionState.waves state_ab_done)) ∧
  ExecutionState.waves state_ab_done !! 0%nat = Some (wave_of 0 ["A"; "B"]) ∧
  (WaveExecutor.transition_to_next_wave LockRegistry.empty state_ab_done
     (wave_of 0 ["A"; "B"])).2
  = Some (wave_of 1 ["C"]).
Proof.
  split; [exact graph_abc_waves|]. split; [reflexivity|].
  exact (transition_to_next_wave_spec graph_abc LockRegistry.empty state_ab_done 0
           (wave_of 0 ["A"; "B"]) graph_abc_waves eq_refl).
Defined.

(** ** Splitting oversized waves: the order of the phases *)

(** With every duration equal the sort of [_split_wave] changes nothing. *)
Lemma sort_desc_constant (l : list (string * Q)) (t : Q) :
  Forall (λ x, x.2 = t) l → WaveCalculator.sort_desc l = l.
Proof.
  induction 1 as [|x l Hx Hl IH]; [done|].
  simpl. rewrite IH. destruct l as [|y l']; [done|]. simpl.
  apply Forall_cons in Hl as [Hy _]. rewrite Hx, Hy.
  assert (Qle_bool t t = true) as -> by (apply Qle_bool_iff, Qle_refl). done.
Qed.

(** The calculator of the repository has an empty cache, so that
    [_split_wave] reads the duration 1.0 for every phase and chunks the
    phases of the wave in the order in which the wave lists them. *)
Lemma sorted_phases_calculator (wave : ExecutionWave.t) :
  sorted_phases calculator wave = ExecutionWave.phases wave.
Proof.
  unfold sorted_phases. rewrite (sort_desc_constant _ 1%Q).
  - rewrite <- list_fmap_compose. apply list_fmap_id.
  - apply Forall_fmap, Forall_true. intros p. reflexivity.
Qed.

Definition timed_phase (id : string) (estimated_time : Q) : PhaseInfo.t :=
  PhaseInfo.mk id id [] [] estimated_time "".

(** Three independent phases: "a" takes 1 hour, "b" 5 hours, "c" 3 hours. *)
Definition phases_timed : list PhaseInfo.t :=
  [timed_phase "a" 1; timed_phase "b" 5; timed_phase "c" 3].

Definition graph_timed : DependencyGraph.t := graph_of phases_timed.

(** C8, at a wave whose phases differ in estimated duration:
    [build_dependency_graph] and [calculate_execution_waves] put the three
    phases in one wave, "a" (1 hour) before "b" (5 hours) and "c" (3
    hours).  With a limit of 2 the wave is split, and the sub-waves hold
    "a", "b" and then "c": the order of the wave, not the descending order
    of the durations, which would give "b", "c" and then "a".  The sort
    of [_split_wave] reads the durations from the calculator's cache,
    which nothing fills, so it compares 1.0 with 1.0 throughout and, for
    every wave, hands the phases out in the order the wave lists them. *)
Theorem optimize_wave_distribution_ignores_estimated_time :
  (∀ wave max_size,
     0 < max_size → NoDup (ExecutionWave.phases wave) →
     concat (ExecutionWave.phases <$> WaveCalculator._split_wave calculator wave max_size)
     = ExecutionWave.phases wave) ∧
  DependencyAnalyzer.build_dependency_graph phases_timed = inr graph_timed ∧
  WaveCalculator.calculate_execution_waves graph_timed
    = Some (inr [wave_of 0 ["a"; "b"; "c"]]) ∧
  PhaseInfo.estimated_time <$> DependencyGraph.get_phase graph_timed "a" = Some 1%Q ∧
  PhaseInfo.estimated_time <$> DependencyGraph.get_phase graph_timed "b" = Some 5%Q ∧
  PhaseInfo.estimated_time <$> DependencyGraph.get_phase graph_timed "c" = Some 3%Q ∧
  WaveCalculator.optimize_wave_distribution calculator [wave_of 0 ["a"; "b"; "c"]] 2
    = [wave_of 0 ["a"; "b"]; wave_of 1 ["c"]].
Proof.
  split.
  { intros wave max_size Hmax Hnd.
    destruct (split_wave_chunked calculator wave max_size Hmax) as (_ & _ & _ & Heq).
    rewrite Heq by done. apply sorted_phases_calculator. }
  repeat split; by vm_compute.
Qed.

(** ** The dependency graph: what [add_phase] records *)

Lemma add_dependency_rev_at pid er dep_id k :
  dependents_at (DependencyGraph.add_dependency pid er dep_id).2 k
  = if decide (pid = k) then set_add dep_id (dependents_at er.2 k)
    else dependents_at er.2 k.
Proof.
  unfold DependencyGraph.add_dependency. simpl. rewrite add_to_at.
  destruct (decide (pid = k)) as [->|?]; by rewrite ensure_key_at.
Qed.

Lemma add_dependencies_rev_at pid deps er k d :
  d ∈ dependents_at (foldl (DependencyGraph.add_dependency pid) er deps).2 k
  ↔ d ∈ dependents_at er.2 k ∨ (k = pid ∧ d ∈ deps).
Proof.
  revert er. induction deps as [|d0 deps IH]; intros er; simpl.
  - split; [by left|]. intros [?|[_ ?%not_elem_of_nil]]; done.
  - rewrite IH, add_dependency_rev_at, elem_of_cons.
    destruct (decide (pid = k)) as [->|Hne].
    + rewrite elem_of_set_add. naive_solver.
    + naive_solver.
Qed.

Lemma add_phases_dependencies phases p d :
  d ∈ DependencyGraph.get_dependencies (DependencyAnalyzer.add_phases phases) p
  ↔ declared phases p d.
Proof.
  unfold declared.
  change (DependencyGraph.get_dependencies ?g p)
    with (dependents_at (DependencyGraph.reverse_edges g) p).
  induction phases as [|phase phases IH] using rev_ind.
  - simpl. split; [by intros ?%not_elem_of_nil|].
    by intros [? [?%not_elem_of_nil _]].
  - rewrite add_phases_snoc. simpl.
    rewrite add_dependencies_rev_at. simpl. rewrite ensure_key_at, IH.
    setoid_rewrite elem_of_app. setoid_rewrite list_elem_of_singleton.
    naive_solver.
Qed.

(** X15: in a graph built by [add_phase] from the empty graph, whatever
    the phases, [get_dependents] and [get_dependencies] are converse to
    each other: [p] is a dependent of [d] exactly when [d] is a dependency
    of [p], which is exactly when some phase added under the id [p]
    declares [d]. *)
Theorem dependents_dependencies_converse (phases : list PhaseInfo.t) (p d : string) :
  let graph := DependencyAnalyzer.add_phases phases in
  (p ∈ DependencyGraph.get_dependents graph d
   ↔ d ∈ DependencyGraph.get_dependencies graph p) ∧
  (p ∈ DependencyGraph.get_dependents graph d
   ↔ ∃ phase, phase ∈ phases ∧ PhaseInfo.id phase = p ∧
              d ∈ PhaseInfo.dependencies phase).
Proof.
  intros graph. split.
  - unfold graph. by rewrite add_phases_dependents, add_phases_dependencies.
  - apply add_phases_dependents.
Qed.

(** X16: [get_phase] on a graph built by [add_phase]: the phase found
    under an id is the last phase added with that id, and there is none
    when no phase with that id was added. *)
Theorem get_phase_add_phases (phases : list PhaseInfo.t) (phase_id : string) :
  DependencyGraph.get_phase (DependencyAnalyzer.add_phases phases) phase_id
  = last (filter (λ phase, PhaseInfo.id phase = phase_id) phases).
Proof.
  unfold DependencyGraph.get_phase.
  induction phases as [|phase phases IH] using rev_ind; [done|].
  rewrite add_phases_snoc. simpl. rewrite dict_get_set, filter_app.
  rewrite filter_singleton by exact [].
  destruct (decide (PhaseInfo.id phase = phase_id)) as [Heq|Hne].
  - by rewrite last_snoc.
  - by rewrite app_nil_r.
Qed.

Lemma first_missing_Some phase_ids phases phase_id dep_id :
  DependencyAnalyzer.first_missing phase_ids phases
    = Some (DependencyAnalyzer.NonExistentPhase phase_id dep_id) →
  declared phases phase_id dep_id ∧ dep_id ∉ phase_ids.
Proof.
  unfold DependencyAnalyzer.first_missing. intros Hhead.
  apply head_Some_elem_of in Hhead.
  apply list_elem_of_bind in Hhead as [phase [Hdep Hphase]].
  apply list_elem_of_bind in Hdep as [d [He Hd]].
  destruct (decide (d ∈ phase_ids)) as [|Hno]; [by apply not_elem_of_nil in He|].
  apply list_elem_of_singleton in He. injection He as -> ->.
  split; [|done]. by exists phase.
Qed.

Lemma first_missing_complete phase_ids phases :
  Forall (λ phase, Forall (λ d, d ∈ phase_ids) (PhaseInfo.dependencies phase)) phases →
  DependencyAnalyzer.first_missing phase_ids phases = None.
Proof.
  intros Hall. unfold DependencyAnalyzer.first_missing. apply head_None.
  induction Hall as [|phase phases Hphase _ IH]; [done|].
  change (phase :: phases) with ([phase] ++ phases).
  rewrite bind_app, IH, app_nil_r. simpl. rewrite app_nil_r.
  induction Hphase as [|d deps Hd _ IHd]; [done|].
  simpl. by rewrite decide_True.
Qed.

(** X17: [build_dependency_graph] returns a graph, which is then the graph
    [add_phase] builds from the phases in order, exactly when every
    dependency of every phase is the id of one of the phases; when it
    raises instead, the error names a phase of the list and a dependency
    it declares that is the id of no phase. *)
Theorem build_dependency_graph_spec (phases : list PhaseInfo.t) :
  let phase_ids := PhaseInfo.id <$> phases in
  let known :=
    Forall (λ phase, Forall (λ d, d ∈ phase_ids) (PhaseInfo.dependencies phase)) phases in
  (known ↔
   DependencyAnalyzer.build_dependency_graph phases
     = inr (DependencyAnalyzer.add_phases phases)) ∧
  (∀ graph, DependencyAnalyzer.build_dependency_graph phases = inr graph → known) ∧
  (∀ phase_id dep_id,
     DependencyAnalyzer.build_dependency_graph phases
       = inl (DependencyAnalyzer.NonExistentPhase phase_id dep_id) →
     (∃ phase, phase ∈ phases ∧ PhaseInfo.id phase = phase_id ∧
               dep_id ∈ PhaseInfo.dependencies phase) ∧
     dep_id ∉ phase_ids).
Proof.
  intros phase_ids known. unfold DependencyAnalyzer.build_dependency_graph.
  fold phase_ids.
  destruct (DependencyAnalyzer.first_missing phase_ids phases) as [e|] eqn:E.
  - split; [|split]; [|done|].
    + split; [|done]. intros Hknown.
      by rewrite (first_missing_complete _ _ Hknown) in E.
    + intros ph d [= ->]. by apply first_missing_Some in E.
  - split; [|split]; [|by intros _ _; apply first_missing_None|done].
    split; [done|]. intros _. by apply first_missing_None.
Qed.

(** ** The first wave *)

Lemma waves_loop_prefix graph fuel queue in_degree processed waves n waves' processed' :
  WaveCalculator.waves_loop fuel graph queue in_degree processed waves n
    = Some (waves', processed') →
  waves `prefix_of` waves'.
Proof.
  revert queue in_degree processed waves n.
  induction fuel as [|fuel IH]; intros queue deg processed waves n Hloop.
  - destruct queue; simpl in Hloop; [|done]. by injection Hloop as <- _.
  - destruct queue as [|q queue]; [simpl in Hloop; by injection Hloop as <- _|].
    cbn [WaveCalculator.waves_loop] in Hloop.
    set (st := foldl _ _ _) in Hloop.
    destruct (ExecutionWave.phases (WaveCalculator.current_wave st)).
    + by apply IH in Hloop.
    + apply IH in Hloop. etrans; [|exact Hloop]. by apply prefix_app_r.
Qed.

Lemma root_keys_queue (nodes : Dict.t PhaseInfo.t) :
  (filter (λ kv : string * Z, kv.2 = 0)
     ((λ kv, (kv.1, Z.of_nat (length (PhaseInfo.dependencies kv.2)))) <$> nodes)).*1
  = (filter (λ kv, PhaseInfo.dependencies kv.2 = []) nodes).*1.
Proof.
  induction nodes as [|[k phase] nodes IH]; [done|].
  rewrite fmap_cons.
  destruct (PhaseInfo.dependencies phase) as [|d deps] eqn:Hdeps.
  - rewrite filter_cons_True by (simpl; by rewrite Hdeps).
    rewrite (filter_cons_True _ (k, phase)) by done.
    rewrite !fmap_cons. f_equal. exact IH.
  - rewrite filter_cons_False by (simpl; rewrite Hdeps; simpl; lia).
    rewrite (filter_cons_False _ (k, phase)) by (simpl; by rewrite Hdeps).
    exact IH.
Qed.

Lemma root_keys_ids (nodes : Dict.t PhaseInfo.t) :
  Forall (λ kv, PhaseInfo.id kv.2 = kv.1) nodes →
  (filter (λ kv, PhaseInfo.dependencies kv.2 = []) nodes).*1
  = PhaseInfo.id <$> filter (λ phase, PhaseInfo.dependencies phase = []) nodes.*2.
Proof.
  induction 1 as [|[k phase] nodes Hk _ IH]; [done|]. simpl in Hk.
  rewrite (fmap_cons snd). simpl.
  destruct (decide (PhaseInfo.dependencies phase = [])) as [He|He].
  - rewrite (filter_cons_True _ (k, phase)) by done.
    rewrite (filter_cons_True _ phase) by done.
    rewrite !fmap_cons. simpl. rewrite Hk. f_equal. exact IH.
  - rewrite (filter_cons_False _ (k, phase)) by done.
    rewrite (filter_cons_False _ phase) by done. exact IH.
Qed.

(** The first wave of a graph whose node keys are distinct and are the ids
    of the phases stored under them. *)
Lemma first_wave_roots_of (graph : DependencyGraph.t) (waves : list ExecutionWave.t) :
  NoDup (node_ids graph) →
  Forall (λ kv, PhaseInfo.id kv.2 = kv.1) (DependencyGraph.nodes graph) →
  WaveCalculator.calculate_execution_waves graph = Some (inr waves) →
  head waves =
  match DependencyGraph.get_root_phases graph with
  | [] => None
  | roots => Some (wave_of 0 (PhaseInfo.id <$> roots))
  end.
Proof.
  intros Hnd Hkeys Hret.
  unfold WaveCalculator.calculate_execution_waves,
    WaveCalculator.calculate_execution_waves_fuel in Hret.
  destruct (WaveCalculator.waves_loop _ _ _ _ _ _ _) as [[ws processed]|] eqn:Hloop;
    [|done].
  simpl in Hret. destruct (decide _); [done|]. injection Hret as ->.
  set (in_degree := WaveCalculator._calculate_in_degrees graph) in *.
  set (queue := (filter (λ kv, kv.2 = 0) in_degree).*1) in *.
  assert (queue = PhaseInfo.id <$> DependencyGraph.get_root_phases graph) as Hqueue.
  { unfold queue, in_degree. rewrite (in_degrees_eq graph) by done.
    rewrite root_keys_queue. by apply root_keys_ids. }
  assert (NoDup queue) as Hq.
  { unfold queue, in_degree. rewrite (in_degrees_eq graph) by done.
    rewrite root_keys_queue.
    eapply sublist_NoDup; [exact Hnd|]. apply fmap_sublist, sublist_filter. }
  destruct (DependencyGraph.get_root_phases graph) as [|r roots] eqn:Hroots.
  - simpl in Hqueue. rewrite Hqueue in Hloop. simpl in Hloop.
    by injection Hloop as <- _.
  - rewrite <- Hqueue.
    destruct queue as [|x queue'] eqn:Hx; [done|]. rewrite <- Hx in *.
    rewrite Hx in Hloop at 1. cbn [WaveCalculator.waves_loop] in Hloop.
    rewrite <- Hx in Hloop.
    set (st := foldl (WaveCalculator.process_phase graph) _ queue) in *.
    assert (WaveCalculator.current_wave st = wave_of 0 queue) as Hwave.
    { subst st. rewrite (proj1 (process_batch_wave graph _ _)). simpl.
      by apply (add_phases_fresh 0 []). }
    rewrite Hwave in Hloop. simpl in Hloop. rewrite Hx in Hloop at 1.
    apply waves_loop_prefix in Hloop as [rest ->]. done.
Qed.

Lemma add_phases_node_keys phases :
  NoDup (node_ids (DependencyAnalyzer.add_phases phases)) ∧
  Forall (λ kv, PhaseInfo.id kv.2 = kv.1)
         (DependencyGraph.nodes (DependencyAnalyzer.add_phases phases)).
Proof.
  induction phases as [|phase phases [IH1 IH2]] using rev_ind.
  - split; constructor.
  - rewrite add_phases_snoc. unfold node_ids in *. simpl. split.
    + by apply dict_set_keys_NoDup.
    + by apply dict_set_Forall.
Qed.

(** X18: wave 0 is made of the root phases: for a graph that [add_phase]
    builds from the empty graph, whatever the phases, when
    [calculate_execution_waves] returns waves the first wave holds exactly
    the ids of [get_root_phases], in the order of the nodes, and there is
    no wave at all when there is no root phase. *)
Theorem first_wave_is_roots (phases : list PhaseInfo.t) (waves : list ExecutionWave.t) :
  let graph := DependencyAnalyzer.add_phases phases in
  WaveCalculator.calculate_execution_waves graph = Some (inr waves) →
  head waves =
  match DependencyGraph.get_root_phases graph with
  | [] => None
  | roots => Some (wave_of 0 (PhaseInfo.id <$> roots))
  end.
Proof.
  intros graph Hret.
  destruct (add_phases_node_keys phases) as [Hnd Hkeys].
  by apply first_wave_roots_of.
Qed.

Lemma graph_readded_waves :
  WaveCalculator.calculate_execution_waves graph_readded
  = Some (inr [wave_of 0 ["C"]; wave_of 1 ["A"]; wave_of 2 ["B"]]).
Proof. by vm_compute. Qed.

Lemma first_wave_is_roots_witness :
  WaveCalculator.calculate_execution_waves graph_readded
    = Some (inr [wave_of 0 ["C"]; wave_of 1 ["A"]; wave_of 2 ["B"]]) ∧
  head [wave_of 0 ["C"]; wave_of 1 ["A"]; wave_of 2 ["B"]] =
  match DependencyGraph.get_root_phases graph_readded with
  | [] => None
  | roots => Some (wave_of 0 (PhaseInfo.id <$> roots))
  end.
Proof.
  split; [exact graph_readded_waves|].
  exact (first_wave_is_roots
           [phase "A" ["C"]; phase "A" ["B"]; phase "B" ["A"]; phase "C" []]
           _ graph_readded_waves).
Defined.

(** ** Splitting oversized waves: sizes, idempotence, order *)

Section wave_pieces.
Variable self : WaveCalculator.t.

Lemma pieces_fit waves max_agents :
  0 < max_agents →
  Forall (fits max_agents) (concat (piece self max_agents <$> waves)).
Proof.
  intros Hmax. induction waves as [|w waves IH]; [constructor|].
  rewrite fmap_cons. cbn [concat].
  apply Forall_app. split; [|done]. unfold piece.
  case_bool_decide as Hfit; [by repeat constructor|].
  by destruct (split_wave_chunked self w max_agents Hmax) as [? _].
Qed.

Lemma pieces_of_fitting waves max_agents :
  Forall (fits max_agents) waves → concat (piece self max_agents <$> waves) = waves.
Proof.
  induction 1 as [|w waves Hw _ IH]; [done|].
  rewrite fmap_cons. cbn [concat]. rewrite IH. unfold piece.
  by rewrite bool_decide_eq_true_2 by exact Hw.
Qed.

Definition renumber (waves : list ExecutionWave.t) : list ExecutionWave.t :=
  imap (λ i wave, ExecutionWave.set_wave_number wave (Z.of_nat i)) waves.

Lemma renumber_phases waves :
  ExecutionWave.phases <$> renumber waves = ExecutionWave.phases <$> waves.
Proof.
  apply list_eq. intros i. unfold renumber.
  rewrite !list_lookup_fmap, list_lookup_imap. by destruct (waves !! i).
Qed.

Lemma renumber_idemp waves : renumber (renumber waves) = renumber waves.
Proof.
  apply list_eq. intros i. unfold renumber.
  rewrite !list_lookup_imap. by destruct (waves !! i).
Qed.

Lemma renumber_fits waves max_agents :
  Forall (fits max_agents) waves → Forall (fits max_agents) (renumber waves).
Proof.
  rewrite !Forall_lookup. intros Hall i w. unfold renumber.
  rewrite list_lookup_imap. destruct (waves !! i) as [w0|] eqn:E; [|done].
  intros [= <-]. exact (Hall i w0 E).
Qed.

(** X19: [optimize_wave_distribution] is idempotent: optimizing its result
    once more, with the same limit, changes nothing. *)
Theorem optimize_wave_distribution_idempotent (waves : list ExecutionWave.t)
    (max_agents : Z) :
  WaveCalculator.optimize_wave_distribution self
    (WaveCalculator.optimize_wave_distribution self waves max_agents) max_agents
  = WaveCalculator.optimize_wave_distribution self waves max_agents.
Proof.
  destruct (decide (max_agents ≤ 0)) as [Hle|Hgt].
  - unfold WaveCalculator.optimize_wave_distribution.
    by rewrite !bool_decide_eq_true_2.
  - assert (0 < max_agents) as Hmax by lia.
    rewrite !optimize_pieces by done. fold (renumber (concat (piece self max_agents <$> waves))).
    rewrite pieces_of_fitting by (by apply renumber_fits, pieces_fit).
    apply renumber_idemp.
Qed.

(** The sub-waves closed so far are full, the open one is within the limit. *)
Definition sizes_ok (n max_size : Z) (st : list ExecutionWave.t * ExecutionWave.t)
    : Prop :=
  Forall (λ w, Z.of_nat (length (ExecutionWave.phases w)) = max_size ∧
               ExecutionWave.wave_number w = n) st.1 ∧
  Z.of_nat (length (ExecutionWave.phases st.2)) ≤ max_size ∧
  ExecutionWave.wave_number st.2 = n.

Lemma split_step_sizes n max_size st phase_id :
  0 < max_size → sizes_ok n max_size st →
  sizes_ok n max_size (WaveCalculator.split_step n max_size st phase_id) ∧
  ExecutionWave.phases (WaveCalculator.split_step n max_size st phase_id).2 ≠ [].
Proof.
  intros Hmax (Hfull & Hcur & Hnum). destruct st as [subs cur]. simpl in *.
  unfold WaveCalculator.split_step, sizes_ok. simpl.
  case_bool_decide as Hclose; simpl.
  - unfold ExecutionWave.add_phase. simpl. split; [|done].
    split; [|simpl; split; [lia|done]].
    apply Forall_app. split; [done|]. constructor; [|done]. split; [lia|done].
  - unfold ExecutionWave.add_phase. case_decide as Hin; simpl.
    + split; [split; [done|split; [lia|done]]|].
      intros Hnil. rewrite Hnil in Hin. by apply not_elem_of_nil in Hin.
    + split; [|by destruct (ExecutionWave.phases cur)].
      split; [done|]. rewrite length_app. simpl. split; [lia|done].
Qed.

Lemma split_loop_sizes n max_size ids st :
  0 < max_size → sizes_ok n max_size st →
  let st' := foldl (WaveCalculator.split_step n max_size) st ids in
  sizes_ok n max_size st' ∧ (ids ≠ [] → ExecutionWave.phases st'.2 ≠ []).
Proof.
  intros Hmax. revert st.
  induction ids as [|p ids IH] using rev_ind; intros st Hok; simpl; [done|].
  rewrite foldl_snoc.
  destruct (IH st Hok) as [Hok' _].
  destruct (split_step_sizes n max_size _ p Hmax Hok') as [? ?]. done.
Qed.

(** X20: for a limit [max_size > 0], a wave that names each of its [n ≥ 1]
    phases once is split by [_split_wave] into ⌈n / max_size⌉ sub-waves:
    all but the last hold exactly [max_size] phases, the last one between 1
    and [max_size], and every sub-wave carries the wave number of the
    wave. *)
Theorem split_wave_sizes (wave : ExecutionWave.t) (max_size : Z) :
  0 < max_size → ExecutionWave.phases wave ≠ [] → NoDup (ExecutionWave.phases wave) →
  ∃ full last,
    WaveCalculator._split_wave self wave max_size = full ++ [last] ∧
    Forall (λ w, Z.of_nat (length (ExecutionWave.phases w)) = max_size) full ∧
    1 ≤ Z.of_nat (length (ExecutionWave.phases last)) ≤ max_size ∧
    Forall (λ w, ExecutionWave.wave_number w = ExecutionWave.wave_number wave)
           (full ++ [last]) ∧
    Z.of_nat (length (full ++ [last]))
    = (Z.of_nat (length (ExecutionWave.phases wave)) + max_size - 1) / max_size.
Proof.
  intros Hmax Hne Hnd.
  destruct (split_wave_chunked self wave max_size Hmax) as (_ & _ & _ & Hall).
  specialize (Hall Hnd).
  assert (length (concat (ExecutionWave.phases <$>
                            WaveCalculator._split_wave self wave max_size))
          = length (ExecutionWave.phases wave)) as Hlen.
  { rewrite Hall. apply Permutation_length, sorted_phases_perm. }
  clear Hall. revert Hlen. unfold WaveCalculator._split_wave.
  fold (sorted_phases self wave).
  set (n := ExecutionWave.wave_number wave).
  destruct (split_loop_sizes n max_size (sorted_phases self wave)
              ([], ExecutionWave.new n) Hmax) as [(Hfull & Hcur & Hnum) Hlast].
  { split; [constructor|]. simpl. split; [lia|done]. }
  set (st := foldl _ _ _) in *.
  assert (sorted_phases self wave ≠ []) as Hsorted.
  { intros Hnil. apply Hne. apply Permutation_nil_r.
    rewrite <- Hnil. symmetry. apply sorted_phases_perm. }
  specialize (Hlast Hsorted).
  destruct (ExecutionWave.phases st.2) as [|x xs] eqn:Hphases; [done|].
  intros Hlen. exists st.1, st.2. split; [done|].
  split; [eapply Forall_impl; [exact Hfull|]; by intros w [? _]|].
  rewrite Hphases in *. split; [simpl in *; lia|]. split.
  - apply Forall_app. split; [|by repeat constructor].
    eapply Forall_impl; [exact Hfull|]. by intros w [_ ?].
  - rewrite fmap_app, concat_app, length_app in Hlen. simpl in Hlen.
    rewrite app_nil_r, Hphases in Hlen.
    assert (Z.of_nat (length (concat (ExecutionWave.phases <$> st.1)))
            = Z.of_nat (length st.1) * max_size) as Hsum.
    { clear -Hfull. induction Hfull as [|w ws [Hw _] _ IH]; [simpl; lia|].
      rewrite fmap_cons. cbn [concat]. rewrite length_app, length_cons. lia. }
    rewrite length_app. simpl.
    apply (Z.div_unique _ _ _ (Z.of_nat (length (x :: xs)) - 1));
      [left; simpl in *; lia|].
    apply (f_equal Z.of_nat) in Hlen. rewrite Nat2Z.inj_add in Hlen.
    rewrite Nat2Z.inj_add. simpl in *. nia.
Qed.

(** Every dependency, in the sense of [R], of a phase of a wave lies in an
    earlier wave. *)
Definition earlier (R : string → string → Prop) (waves : list ExecutionWave.t)
    : Prop :=
  ∀ i w p d, waves !! i = Some w → p ∈ ExecutionWave.phases w → R p d →
             d ∈ concat (ExecutionWave.phases <$> take i waves).

Lemma piece_phases max_agents wave p :
  0 < max_agents →
  p ∈ concat (ExecutionWave.phases <$> piece self max_agents wave)
  ↔ p ∈ ExecutionWave.phases wave.
Proof.
  intros Hmax. unfold piece. case_bool_decide.
  - simpl. by rewrite app_nil_r.
  - by destruct (split_wave_chunked self wave max_agents Hmax) as (_ & _ & ? & _).
Qed.

Lemma pieces_phases max_agents waves p :
  0 < max_agents →
  p ∈ concat (ExecutionWave.phases <$> concat (piece self max_agents <$> waves))
  ↔ p ∈ concat (ExecutionWave.phases <$> waves).
Proof.
  intros Hmax. induction waves as [|w waves IH]; [done|].
  rewrite !fmap_cons. cbn [concat].
  rewrite fmap_app, concat_app, !elem_of_app, IH, piece_phases by done. done.
Qed.

Lemma pieces_earlier R max_agents waves :
  0 < max_agents → earlier R waves →
  earlier R (concat (piece self max_agents <$> waves)).
Proof.
  intros Hmax. induction waves as [|wv waves IH] using rev_ind; intros Hearl.
  - intros i w p d Hi. done.
  - assert (earlier R waves) as Hpre.
    { intros i w p d Hi Hp Hd.
      pose proof (lookup_lt_Some _ _ _ Hi) as Hlt.
      rewrite <- (take_app_le waves [wv]) by lia.
      apply (Hearl i w p d); [|done..]. by rewrite lookup_app_l. }
    specialize (IH Hpre).
    rewrite fmap_app, concat_app. simpl. rewrite app_nil_r.
    set (P := concat (piece self max_agents <$> waves)) in *.
    intros i w p d Hi Hp Hd.
    destruct (decide (i < length P)%nat) as [Hlt|Hge].
    + rewrite lookup_app_l in Hi by done. rewrite take_app_le by lia.
      by apply (IH i w p d).
    + rewrite lookup_app_r in Hi by lia.
      assert (p ∈ ExecutionWave.phases wv) as Hpw.
      { apply (piece_phases max_agents); [done|]. apply elem_of_concat.
        exists (ExecutionWave.phases w). split; [done|].
        apply list_elem_of_fmap. exists w. split; [done|].
        by eapply list_elem_of_lookup_2. }
      assert (d ∈ concat (ExecutionWave.phases <$> waves)) as Hdw.
      { rewrite <- (take_app_length waves [wv]).
        apply (Hearl (length waves) wv p d); [|done..].
        by rewrite lookup_app_r, Nat.sub_diag. }
      rewrite take_app, fmap_app, concat_app, elem_of_app. left.
      rewrite take_ge by lia. by apply pieces_phases.
Qed.

(** X21: optimizing a calculated schedule keeps it a schedule: on a graph
    whose dependents index records declared dependencies only
    ([graph_wf], as [add_phase] builds it from phases with distinct ids)
    and for a limit [max_agents > 0], the waves
    [optimize_wave_distribution] makes of the waves
    [calculate_execution_waves] returned are numbered 0, 1, 2, ..., hold
    at most [max_agents] phases each, name exactly the phases of the
    graph, and still have every dependency of a phase in a strictly
    earlier wave. *)
Theorem optimized_schedule_sound (graph : DependencyGraph.t)
    (waves : list ExecutionWave.t) (max_agents : Z) :
  graph_wf graph →
  WaveCalculator.calculate_execution_waves graph = Some (inr waves) →
  0 < max_agents →
  let optimized := WaveCalculator.optimize_wave_distribution self waves max_agents in
  (∀ i w, optimized !! i = Some w →
          ExecutionWave.wave_number w = Z.of_nat i ∧
          Z.of_nat (length (ExecutionWave.phases w)) ≤ max_agents) ∧
  (∀ p, p ∈ concat (ExecutionWave.phases <$> optimized) ↔ p ∈ node_ids graph) ∧
  (∀ i w p d,
     optimized !! i = Some w → p ∈ ExecutionWave.phases w → depends_on graph p d →
     ∃ j w', (j < i)%nat ∧ optimized !! j = Some w' ∧ d ∈ ExecutionWave.phases w').
Proof.
  intros Hwf Hret Hmax optimized. unfold optimized.
  rewrite optimize_pieces by done.
  fold (renumber (concat (piece self max_agents <$> waves))).
  set (pieces := concat (piece self max_agents <$> waves)).
  destruct (returned_waves_inv graph waves Hwf Hret) as (Hok & _ & _ & Hperm).
  assert (earlier (depends_on graph) pieces) as Hearl.
  { apply pieces_earlier; [done|]. intros i w p d Hi Hp Hd.
    by apply (proj2 (Hok i w Hi) p d). }
  assert (∀ i w, renumber pieces !! i = Some w →
            ∃ w0, pieces !! i = Some w0 ∧
                  w = ExecutionWave.set_wave_number w0 (Z.of_nat i)) as Hlookup.
  { intros i w. unfold renumber. rewrite list_lookup_imap.
    destruct (pieces !! i) as [w0|]; [|done]. intros [= <-]. by exists w0. }
  split; [|split].
  - intros i w Hi. destruct (Hlookup i w Hi) as (w0 & Hw0 & ->).
    split; [done|]. simpl.
    pose proof (pieces_fit waves max_agents Hmax) as Hfit.
    rewrite Forall_lookup in Hfit. exact (Hfit i w0 Hw0).
  - intros p. rewrite renumber_phases. unfold pieces.
    rewrite pieces_phases by done. by rewrite Hperm.
  - intros i w p d Hi Hp Hd. destruct (Hlookup i w Hi) as (w0 & Hw0 & ->).
    simpl in Hp.
    destruct (elem_of_concat_take pieces i d (Hearl i w0 p d Hw0 Hp Hd))
      as (j & w' & Hj & Hw' & Hin).
    exists j, (ExecutionWave.set_wave_number w' (Z.of_nat j)).
    split; [done|]. split; [|done].
    unfold renumber. by rewrite list_lookup_imap, Hw'.
Qed.

End wave_pieces.

(** *** Concrete waves, continued *)

Lemma split_wave_sizes_witness :
  0 < 2 ∧ ExecutionWave.phases wave_five ≠ [] ∧ NoDup (ExecutionWave.phases wave_five) ∧
  ∃ full last,
    WaveCalculator._split_wave calculator wave_five 2 = full ++ [last] ∧
    Forall (λ w, Z.of_nat (length (ExecutionWave.phases w)) = 2) full ∧
    1 ≤ Z.of_nat (length (ExecutionWave.phases last)) ≤ 2 ∧
    Forall (λ w, ExecutionWave.wave_number w = ExecutionWave.wave_number wave_five)
           (full ++ [last]) ∧
    Z.of_nat (length (full ++ [last]))
    = (Z.of_nat (length (ExecutionWave.phases wave_five)) + 2 - 1) / 2.
Proof.
  assert (ExecutionWave.phases wave_five ≠ []) as Hne by done.
  assert (NoDup (ExecutionWave.phases wave_five)) as Hnd
    by (apply (bool_decide_unpack _); by vm_compute).
  split; [lia|]. split; [exact Hne|]. split; [exact Hnd|].
  exact (split_wave_sizes calculator wave_five 2 ltac:(lia) Hne Hnd).
Defined.

Lemma optimized_schedule_sound_witness :
  graph_wf graph_abc ∧
  WaveCalculator.calculate_execution_waves graph_abc = Some (inr waves_abc) ∧
  0 < 1 ∧
  ∀ p, p ∈ concat (ExecutionWave.phases <$>
                     WaveCalculator.optimize_wave_distribution calculator waves_abc 1)
       ↔ p ∈ node_ids graph_abc.
Proof.
  split; [exact graph_abc_wf|]. split; [exact graph_abc_waves|]. split; [lia|].
  exact (proj1 (proj2 (optimized_schedule_sound calculator graph_abc waves_abc 1
                         graph_abc_wf graph_abc_waves ltac:(lia)))).
Defined.

(** ** The wave executor and the execution state *)

Section executor.
Import WaveExecutor.

(** A run that [_execute_phase] records as a failure. *)
Definition failing (run : agent_run) : Prop :=
  match run with
  | SpawnFailed _ => True
  | Monitored _ success _ _ => success = false
  end.

(** [_execute_phase] for the same phase, once per run, each at its time. *)
Definition execute_runs (dependency_graph : DependencyGraph.t)
    (execution_state : ExecutionState.t) (phase_id : string)
    (runs : list (datetime * agent_run)) : ExecutionState.t :=
  foldl (λ st run, (_execute_phase dependency_graph st run.1 phase_id run.2).1)
        execution_state runs.

(** The retry count recorded for a phase, 0 without a record. *)
Definition retries (execution_state : ExecutionState.t) (phase_id : string) : Z :=
  match ExecutionState.phase_states execution_state !! phase_id with
  | Some d => PhaseExecutionDetails.retry_count d
  | None => 0
  end.

Lemma execute_phase_failing dependency_graph st now phase_id run :
  is_Some (DependencyGraph.get_phase dependency_graph phase_id) →
  failing run →
  ∃ d, ExecutionState.phase_states
         (_execute_phase dependency_graph st now phase_id run).1 !! phase_id = Some d ∧
       PhaseExecutionDetails.status d = FAILED ∧
       PhaseExecutionDetails.retry_count d = retries st phase_id + 1.
Proof.
  intros [phase Hphase] Hfail. unfold _execute_phase, retries. rewrite Hphase.
  destruct run as [error|agent success outputs error]; simpl in Hfail.
  - simpl. rewrite lookup_insert_eq. eexists. split; [done|]. simpl.
    by destruct (ExecutionState.phase_states st !! phase_id).
  - subst success. simpl. rewrite lookup_insert_eq. eexists. split; [done|]. simpl.
    by destruct (ExecutionState.phase_states st !! phase_id).
Qed.

(** X22: every failed run of [_execute_phase] leaves the phase [FAILED]
    and raises its retry count by one; so after a phase of the graph has
    failed [k ≥ 1] times in a row, [_handle_phase_failure] answers [RETRY]
    exactly when the strategy is "retry" and the retry count reached, the
    earlier count plus [k], is still below the retry limit. *)
Theorem retry_after_failures (dependency_graph : DependencyGraph.t)
    (execution_state : ExecutionState.t) (phase_id : string)
    (runs : list (datetime * agent_run)) (retry_limit : Z) (failure_strategy : string)
    (error : option string) :
  is_Some (DependencyGraph.get_phase dependency_graph phase_id) →
  runs ≠ [] → Forall (λ run, failing run.2) runs →
  let state' := execute_runs dependency_graph execution_state phase_id runs in
  ExecutionState.get_phase_status state' phase_id = FAILED ∧
  retries state' phase_id = retries execution_state phase_id + Z.of_nat (length runs) ∧
  (_handle_phase_failure (WaveExecutor.mk state' retry_limit failure_strategy)
     phase_id error = RETRY
   ↔ retries execution_state phase_id + Z.of_nat (length runs) < retry_limit ∧
     failure_strategy = "retry").
Proof.
  intros Hphase Hne Hfail state'.
  assert (∃ d, ExecutionState.phase_states state' !! phase_id = Some d ∧
               PhaseExecutionDetails.status d = FAILED ∧
               PhaseExecutionDetails.retry_count d
               = retries execution_state phase_id + Z.of_nat (length runs))
    as (d & Hd & Hstatus & Hcount).
  { unfold state', execute_runs. clear state'.
    induction runs as [|run runs IH] using rev_ind; [done|].
    apply Forall_app in Hfail as [Hfail Hrun]. apply Forall_cons in Hrun as [Hrun _].
    rewrite foldl_snoc, length_app. simpl.
    set (st := foldl _ execution_state runs) in *.
    destruct (execute_phase_failing dependency_graph st run.1 phase_id run.2
                Hphase Hrun) as (d & Hd & Hs & Hc).
    exists d. split; [done|]. split; [done|]. rewrite Hc.
    destruct runs as [|r0 runs0]; [subst st; simpl; lia|].
    destruct (IH ltac:(done) Hfail) as (d0 & Hd0 & _ & Hc0).
    unfold retries at 1. rewrite Hd0, Hc0. lia. }
  split; [|split].
  - unfold ExecutionState.get_phase_status. by rewrite Hd.
  - unfold retries at 1. by rewrite Hd.
  - unfold _handle_phase_failure. simpl. rewrite Hd, Hcount.
    repeat case_bool_decide; simpl; split; try done; try tauto; try lia;
      intros [? ?]; try congruence; try lia.
Qed.

Lemma wave_progress_acc execution_state phases acc :
  let pr := foldl (classify execution_state) acc phases in
  completed pr = completed acc ++
    filter (λ p, ExecutionState.get_phase_status execution_state p = COMPLETED) phases ∧
  in_progress pr = in_progress acc ++
    filter (λ p, ExecutionState.get_phase_status execution_state p = IN_PROGRESS) phases ∧
  failed pr = failed acc ++
    filter (λ p, ExecutionState.get_phase_status execution_state p = FAILED) phases ∧
  pending pr = pending acc ++
    filter (λ p, ExecutionState.get_phase_status execution_state p
                 ∉ [COMPLETED; IN_PROGRESS; FAILED]) phases.
Proof.
  revert acc. induction phases as [|p phases IH]; intros acc; simpl.
  - by rewrite !app_nil_r.
  - destruct (IH (classify execution_state acc p)) as (H1 & H2 & H3 & H4).
    rewrite H1, H2, H3, H4. clear IH H1 H2 H3 H4.
    rewrite !filter_cons. unfold classify.
    destruct (ExecutionState.get_phase_status execution_state p) eqn:Hs;
      simpl; rewrite <- ?(assoc_L (++)); simpl;
      repeat (rewrite decide_True by set_solver ||
              rewrite decide_False by set_solver); done.
Qed.

(** X23: [get_wave_progress] for the current wave sorts every phase of the
    wave into exactly one of its four lists, by the status the execution
    state gives it ([pending] is every status other than completed, in
    progress and failed), keeping the order of the wave; so the four
    counts add up to the number of phases of the wave. *)
Theorem get_wave_progress_partition (execution_state : ExecutionState.t)
    (wave : ExecutionWave.t) :
  let pr := get_wave_progress execution_state wave in
  completed pr =
    filter (λ p, ExecutionState.get_phase_status execution_state p = COMPLETED)
           (ExecutionWave.phases wave) ∧
  in_progress pr =
    filter (λ p, ExecutionState.get_phase_status execution_state p = IN_PROGRESS)
           (ExecutionWave.phases wave) ∧
  failed pr =
    filter (λ p, ExecutionState.get_phase_status execution_state p = FAILED)
           (ExecutionWave.phases wave) ∧
  pending pr =
    filter (λ p, ExecutionState.get_phase_status execution_state p
                 ∉ [COMPLETED; IN_PROGRESS; FAILED]) (ExecutionWave.phases wave) ∧
  (length (completed pr) + length (in_progress pr) + length (pending pr)
   + length (failed pr))%nat = length (ExecutionWave.phases wave).
Proof.
  intros pr. subst pr. unfold get_wave_progress.
  destruct (wave_progress_acc execution_state (ExecutionWave.phases wave)
              (mk_progress [] [] [] [])) as (H1 & H2 & H3 & H4).
  simpl in H1, H2, H3, H4.
  split; [done|]. split; [done|]. split; [done|]. split; [done|].
  rewrite H1, H2, H3, H4. clear.
  induction (ExecutionWave.phases wave) as [|p phases IH]; [done|].
  rewrite !filter_cons.
  destruct (ExecutionState.get_phase_status execution_state p) eqn:Hs;
    repeat (rewrite decide_True by set_solver ||
            rewrite decide_False by set_solver); simpl in *; lia.
Qed.

(** X24: what the execution state answers about a phase changes only by
    [update_phase_status] on a tracked phase: [add_phase] changes no
    answer of [get_phase_status], [update_phase_status] on a phase that is
    not tracked changes nothing at all, and on a tracked phase it sets the
    status of that phase and of no other. *)
Theorem phase_status_updates (self : ExecutionState.t) (phase_id : string)
    (status : PhaseStatus) :
  (∀ q, ExecutionState.get_phase_status (ExecutionState.add_phase self phase_id) q
        = ExecutionState.get_phase_status self q) ∧
  (ExecutionState.phase_states self !! phase_id = None →
   ExecutionState.update_phase_status self phase_id status = self) ∧
  (is_Some (ExecutionState.phase_states self !! phase_id) →
   ExecutionState.get_phase_status
     (ExecutionState.update_phase_status self phase_id status) phase_id = status) ∧
  (∀ q, q ≠ phase_id →
        ExecutionState.get_phase_status
          (ExecutionState.update_phase_status self phase_id status) q
        = ExecutionState.get_phase_status self q).
Proof.
  unfold ExecutionState.get_phase_status, ExecutionState.add_phase,
    ExecutionState.update_phase_status.
  split; [|split; [|split]].
  - intros q. destruct (ExecutionState.phase_states self !! phase_id) eqn:E; [done|].
    simpl. destruct (decide (q = phase_id)) as [->|Hne].
    + by rewrite lookup_insert_eq, E.
    + by rewrite lookup_insert_ne.
  - by intros ->.
  - intros [d ->]. simpl. by rewrite lookup_insert_eq.
  - intros q Hne. destruct (ExecutionState.phase_states self !! phase_id); [|done].
    simpl. by rewrite lookup_insert_ne.
Qed.

End executor.

(** A spawn failure, then a run that ends in an error. *)
Definition failed_runs : list (datetime * WaveExecutor.agent_run) :=
  [(1, WaveExecutor.SpawnFailed "no agent available");
   (2, WaveExecutor.Monitored "agent-1" false [] None)].

Lemma retry_after_failures_witness :
  is_Some (DependencyGraph.get_phase graph_abc "A") ∧
  failed_runs ≠ [] ∧
  Forall (λ run, failing run.2) failed_runs ∧
  (WaveExecutor._handle_phase_failure
     (WaveExecutor.mk (execute_runs graph_abc ExecutionState.empty "A" failed_runs)
                      2 "retry") "A" None = RETRY
   ↔ retries ExecutionState.empty "A" + Z.of_nat (length failed_runs) < 2 ∧
     "retry" = "retry").
Proof.
  assert (is_Some (DependencyGraph.get_phase graph_abc "A")) as Hphase
    by (by eexists; vm_compute).
  assert (failed_runs ≠ []) as Hne by done.
  assert (Forall (λ run, failing run.2) failed_runs) as Hfail
    by (repeat constructor).
  split; [exact Hphase|]. split; [exact Hne|]. split; [exact Hfail|].
  exact (proj2 (proj2 (retry_after_failures graph_abc ExecutionState.empty "A"
                         failed_runs 2 "retry" None Hphase Hne Hfail))).
Defined.

(** ** The state manager: recovery, backups and counters *)

Section state_manager_more.
Import StateManager.
Variable isoformat : datetime → string.
Variable fromisoformat : string → option datetime.
Variable strftime : datetime → string.

Lemma elem_of_by_status (m : gmap string PhaseExecutionDetails.t) (s : PhaseStatus)
    (p : string) :
  p ∈ (filter (λ kv, PhaseExecutionDetails.status kv.2 = s) (map_to_list m)).*1
  ↔ ∃ d, m !! p = Some d ∧ PhaseExecutionDetails.status d = s.
Proof.
  rewrite list_elem_of_fmap. split.
  - intros [[k d] [-> [Hs Hin]%list_elem_of_filter]].
    exists d. split; [|done]. by apply elem_of_map_to_list.
  - intros [d [Hd Hs]]. exists (p, d). split; [done|].
    apply list_elem_of_filter. split; [done|]. by apply elem_of_map_to_list.
Qed.

Lemma load_keeps_files self :
  state_file (load_execution_state fromisoformat self).1 = state_file self ∧
  backup_dir (load_execution_state fromisoformat self).1 = backup_dir self.
Proof.
  unfold load_execution_state.
  destruct (state_file self) as [[|data]|] eqn:E; simpl; try done.
  destruct (Json.get_default data "metadata" _) as [md|]; [|done].
  destruct (negb (Json.truthy md)); [done|].
  destruct (metadata_from_dict fromisoformat md); [|done].
  by destruct (_deserialize_state fromisoformat data).
Qed.

(** X25: after [recover_from_crash] has loaded the live state file, no
    phase of the returned state is listed by [get_active_phases]; its
    failed phases are those that were failed or in progress, its completed
    phases those that were completed; and nothing is written: the state
    file and the backups are as before. *)
Theorem recover_from_crash_no_active_phase (now : datetime)
    (self self' : StateManager.t) (state : ExecutionState.t) :
  load_execution_state fromisoformat self = (self', Some state) →
  ∃ recovered,
    (recover_from_crash fromisoformat now self).2 = Some recovered ∧
    ExecutionState.get_active_phases recovered = [] ∧
    (∀ p, p ∈ ExecutionState.get_failed_phases recovered ↔
          p ∈ ExecutionState.get_failed_phases state ∨
          p ∈ ExecutionState.get_active_phases state) ∧
    (∀ p, p ∈ ExecutionState.get_completed_phases recovered ↔
          p ∈ ExecutionState.get_completed_phases state) ∧
    state_file (recover_from_crash fromisoformat now self).1 = state_file self ∧
    backup_dir (recover_from_crash fromisoformat now self).1 = backup_dir self.
Proof.
  intros Hload. exists (mark_state now state).
  pose proof (load_keeps_files self) as [Hsf Hbd]. rewrite Hload in Hsf, Hbd.
  unfold recover_from_crash. rewrite Hload. simpl.
  split; [done|].
  assert (∀ s p,
            (∃ d, (mark_interrupted now <$> ExecutionState.phase_states state) !! p
                  = Some d ∧ PhaseExecutionDetails.status d = s)
            ↔ ∃ d0, ExecutionState.phase_states state !! p = Some d0 ∧
                    PhaseExecutionDetails.status (mark_interrupted now d0) = s)
    as Hmark.
  { intros s p. rewrite lookup_fmap. split.
    - intros [d [Hd Hs]].
      destruct (ExecutionState.phase_states state !! p) as [d0|]; [|done].
      injection Hd as <-. by exists d0.
    - intros [d0 [-> Hs]]. by eexists. }
  split; [|split; [|split; [|done]]].
  - unfold ExecutionState.get_active_phases. simpl.
    destruct (filter _ _).*1 as [|p ps] eqn:E; [done|]. exfalso.
    assert (p ∈ (filter (λ kv, PhaseExecutionDetails.status kv.2 = IN_PROGRESS)
                   (map_to_list (mark_interrupted now
                                   <$> ExecutionState.phase_states state))).*1) as Hp
      by (rewrite E; left).
    apply elem_of_by_status, Hmark in Hp as [d0 [_ Hs]].
    unfold mark_interrupted in Hs. by case_decide.
  - intros p. unfold ExecutionState.get_failed_phases, ExecutionState.get_active_phases.
    simpl. rewrite !elem_of_by_status, Hmark. unfold mark_interrupted. split.
    + intros [d0 [Hd Hs]]. case_decide; [right|left]; by exists d0.
    + intros [[d0 [Hd Hs]]|[d0 [Hd Hs]]]; exists d0; split; try done.
      * rewrite decide_False; [done|congruence].
      * by rewrite decide_True.
  - intros p. unfold ExecutionState.get_completed_phases. simpl.
    rewrite !elem_of_by_status, Hmark. unfold mark_interrupted. split.
    + intros [d0 [Hd Hs]]. exists d0. split; [done|]. by case_decide.
    + intros [d0 [Hd Hs]]. exists d0. split; [done|].
      rewrite decide_False; [done|congruence].
Qed.

Lemma keys_filter {V} (P : string → Prop) `{!∀ k, Decision (P k)} (d : Dict.t V) :
  Dict.keys (filter (λ kv, P kv.1) d) = filter P (Dict.keys d).
Proof.
  unfold Dict.keys, Dict.t in *. induction d as [|[k v] d IH]; [done|].
  rewrite fmap_cons. cbn [fst]. rewrite (filter_cons P).
  destruct (decide (P k)) as [Hk|Hk].
  - rewrite filter_cons_True by done. rewrite fmap_cons. cbn [fst]. by rewrite IH.
  - by rewrite filter_cons_False.
Qed.

Lemma filter_not_in_prefix (a b : list string) :
  NoDup (a ++ b) → filter (λ x, x ∉ a) (a ++ b) = b.
Proof.
  intros [_ [Hdisj _]]%NoDup_app. rewrite filter_app.
  assert (filter (λ x, x ∉ a) a = []) as ->.
  { clear. induction a as [|x a IH]; [done|].
    rewrite filter_cons_False by (intros Hx; apply Hx; left).
    destruct (filter (λ y, y ∉ x :: a) a) as [|y l] eqn:E; [done|]. exfalso.
    assert (y ∈ filter (λ y, y ∉ x :: a) a) as Hy by (rewrite E; left).
    apply list_elem_of_filter in Hy as [Hn Hy]. apply Hn. by right. }
  simpl. apply filter_all_id. intros x Hx Ha. by apply (Hdisj x).
Qed.

Lemma sorted_names_perm names : sorted_names names ≡ₚ names.
Proof. apply merge_sort_Permutation. Qed.

(** The names [_cleanup_old_backups] keeps when the limit is positive. *)
Lemma cleanup_keys self :
  NoDup (Dict.keys (backup_dir self)) → 0 < max_backups self →
  let names := sorted_names (Dict.keys (backup_dir self)) in
  Dict.keys (backup_dir (_cleanup_old_backups self))
  ≡ₚ drop (length names - Z.to_nat (max_backups self)) names.
Proof.
  intros Hnd Hmax names. unfold _cleanup_old_backups. fold names.
  case_bool_decide as Hlen; simpl.
  - unfold slice_to. rewrite bool_decide_eq_true_2 by lia.
    assert (Z.to_nat (Z.of_nat (length names) + - max_backups self)
            = (length names - Z.to_nat (max_backups self))%nat) as -> by lia.
    set (k := (length names - Z.to_nat (max_backups self))%nat).
    pose proof (keys_filter (λ name, name ∉ take k names) (backup_dir self)) as Hk.
    cbv beta in Hk. rewrite Hk. clear Hk.
    rewrite <- (sorted_names_perm (Dict.keys (backup_dir self))) at 1. fold names.
    pose proof (filter_not_in_prefix (take k names) (drop k names)) as Hf.
    rewrite take_drop in Hf. rewrite Hf; [done|].
    unfold names. by rewrite sorted_names_perm.
  - assert ((length names - Z.to_nat (max_backups self))%nat = 0%nat) as -> by lia.
    rewrite drop_0. unfold names. by rewrite sorted_names_perm.
Qed.

(** X26: [_cleanup_old_backups] with a positive limit keeps exactly the
    [max_backups] backups whose names sort last (all of them when there
    are no more than that), each with its contents. *)
Theorem cleanup_old_backups_keeps_newest (self : StateManager.t) :
  NoDup (Dict.keys (backup_dir self)) → 0 < max_backups self →
  let names := sorted_names (Dict.keys (backup_dir self)) in
  let self' := _cleanup_old_backups self in
  Dict.keys (backup_dir self')
    ≡ₚ drop (length names - Z.to_nat (max_backups self)) names ∧
  Z.of_nat (length (backup_dir self'))
    = Z.min (Z.of_nat (length (backup_dir self))) (max_backups self) ∧
  ∀ name, name ∈ Dict.keys (backup_dir self') →
          Dict.get (backup_dir self') name = Dict.get (backup_dir self) name.
Proof.
  intros Hnd Hmax names self'.
  pose proof (cleanup_keys self Hnd Hmax) as Hkeys. fold names in Hkeys.
  split; [exact Hkeys|]. split.
  - apply Permutation_length in Hkeys. unfold Dict.keys in Hkeys.
    rewrite length_fmap, length_drop in Hkeys. fold self' in Hkeys. rewrite Hkeys.
    assert (length names = length (backup_dir self)) as ->.
    { unfold names. rewrite (Permutation_length (sorted_names_perm _)).
      unfold Dict.keys. by rewrite length_fmap. }
    lia.
  - unfold self', _cleanup_old_backups. fold names. case_bool_decide; [|done].
    simpl. intros name Hname.
    apply dict_get_keys in Hname as [f Hf]. rewrite Hf. symmetry.
    apply dict_get_Some, list_elem_of_filter in Hf as [_ Hf].
    by apply dict_get_elem_of.
Qed.

Lemma cleanup_zero_limit self :
  max_backups self = 0 → _cleanup_old_backups self = self.
Proof.
  intros Hzero. unfold _cleanup_old_backups. case_bool_decide; [|done].
  rewrite Hzero. unfold slice_to. cbv zeta.
  rewrite bool_decide_eq_false_2 by lia. change (Z.to_nat (- 0)) with 0%nat.
  rewrite take_0.
  pose proof (filter_all_id (λ kv : string * file, kv.1 ∉ @nil string)
                (backup_dir self)) as Hall.
  unfold Dict.t in *. rewrite Hall by (intros kv _; apply not_elem_of_nil).
  by destruct self.
Qed.

Lemma cleanup_keeps_limit self :
  max_backups (_cleanup_old_backups self) = max_backups self.
Proof. unfold _cleanup_old_backups. by case_bool_decide. Qed.

Lemma backup_bounded now self :
  NoDup (Dict.keys (backup_dir self)) → 0 < max_backups self →
  Z.of_nat (length (backup_dir self)) ≤ max_backups self →
  let self' := _backup_current_state strftime now self in
  NoDup (Dict.keys (backup_dir self')) ∧
  Z.of_nat (length (backup_dir self')) ≤ max_backups self ∧
  max_backups self' = max_backups self ∧
  (state_file self = None → backup_dir self' = backup_dir self).
Proof.
  intros Hnd Hmax Hlen self'. unfold self', _backup_current_state.
  destruct (state_file self) as [content|] eqn:Hsf; [|done].
  match goal with
  | |- context [_cleanup_old_backups ?s] => set (with_backup := s)
  end.
  assert (NoDup (Dict.keys (backup_dir with_backup))) as Hnd'
    by (by apply dict_set_keys_NoDup).
  pose proof (cleanup_keys with_backup Hnd' Hmax) as Hkeys. cbv zeta in Hkeys.
  split; [|split; [|split; [exact (cleanup_keeps_limit with_backup)|done]]].
  - rewrite Hkeys.
    eapply sublist_NoDup; [|apply sublist_drop]. by rewrite sorted_names_perm.
  - apply Permutation_length in Hkeys. unfold Dict.keys in Hkeys at 1.
    rewrite length_fmap, length_drop in Hkeys. rewrite Hkeys.
    change (max_backups with_backup) with (max_backups self). lia.
Qed.

(** X27: with a positive limit, [save_execution_state] keeps the backups
    within the limit: a backup directory with distinct names and at most
    [max_backups] files is so again after the save, the limit itself is
    unchanged, and a save that finds no live state file makes no backup. *)
Theorem save_keeps_backups_bounded (now : datetime) (self : StateManager.t)
    (state : ExecutionState.t) :
  NoDup (Dict.keys (backup_dir self)) → 0 < max_backups self →
  Z.of_nat (length (backup_dir self)) ≤ max_backups self →
  let self' := (save_execution_state isoformat strftime now self state).1 in
  NoDup (Dict.keys (backup_dir self')) ∧
  Z.of_nat (length (backup_dir self')) ≤ max_backups self' ∧
  max_backups self' = max_backups self ∧
  (state_file self = None → backup_dir self' = backup_dir self).
Proof.
  intros Hnd Hmax Hlen self'. unfold self', save_execution_state. simpl.
  match goal with
  | |- context [_backup_current_state strftime now ?s] =>
      destruct (backup_bounded now s Hnd Hmax Hlen) as (Hn & Hl & Hm & Hb)
  end.
  simpl in *. rewrite Hm. done.
Qed.

(** X28: [clear_state] forgets everything: afterwards nothing loads and
    nothing can be recovered, and the next save starts over, with
    checkpoint number 0 and a fresh creation time in its metadata. *)
Theorem clear_state_forgets (now : datetime) (self : StateManager.t)
    (state : ExecutionState.t) :
  let cleared := clear_state self in
  (load_execution_state fromisoformat cleared).2 = None ∧
  (recover_from_crash fromisoformat now cleared).2 = None ∧
  ∃ m, _metadata (save_execution_state isoformat strftime now cleared state).1 = Some m ∧
       StateMetadata.checkpoint_number m = 0 ∧ StateMetadata.created_at m = now ∧
       _checkpoint_number (save_execution_state isoformat strftime now cleared state).1 = 1.
Proof.
  intros cleared. split; [done|]. split; [done|].
  unfold save_execution_state, cleared, clear_state. simpl.
  unfold _backup_current_state. simpl. eexists. done.
Qed.

Lemma try_backups_reload self names self' state :
  try_backups fromisoformat self names = (self', Some state) →
  (load_execution_state fromisoformat self').2 = Some state ∧
  backup_dir self' = backup_dir self.
Proof.
  revert self. induction names as [|name names IH]; intros self Htry; [done|].
  simpl in Htry.
  destruct (Dict.get (backup_dir self) name) as [[|data]|] eqn:Hget;
    try (by apply IH).
  set (copied := set_files self (Some (Doc data)) (temp_state_file self)
                           (backup_dir self)) in *.
  pose proof (load_keeps_files copied) as [Hsf Hbd].
  pose proof (load_result fromisoformat copied) as Hres.
  destruct (load_execution_state fromisoformat copied) as [self1 [st|]] eqn:Hload;
    simpl in *.
  - injection Htry as <- <-. split; [|done].
    rewrite load_result, Hsf. done.
  - apply IH in Htry as [? Hb]. split; [done|]. by rewrite Hb, Hbd.
Qed.

(** X29: a recovery from a backup is persistent: when the live state file
    does not load and [recover_from_crash] returns a state all the same,
    the live state file then holds the backup it came from, so that
    [load_execution_state] returns that same state, and the backups are as
    before. *)
Theorem recover_from_backup_persists (now : datetime) (self self' : StateManager.t)
    (state : ExecutionState.t) :
  (load_execution_state fromisoformat self).2 = None →
  recover_from_crash fromisoformat now self = (self', Some state) →
  (load_execution_state fromisoformat self').2 = Some state ∧
  backup_dir self' = backup_dir self.
Proof.
  intros Hnone Hrec. unfold recover_from_crash in Hrec.
  pose proof (load_keeps_files self) as [_ Hbd].
  destruct (load_execution_state fromisoformat self) as [self1 [st|]] eqn:Hload;
    [done|]. simpl in *.
  apply try_backups_reload in Hrec as [? Hb]. split; [done|]. by rewrite Hb.
Qed.

(** X30: [max_backups = 0] does not switch backups off, it switches
    their removal off: the slice [backups[:-0]] of [_cleanup_old_backups]
    is empty, so a save over a live state file adds its backup and removes
    none. *)
Theorem save_with_zero_limit_keeps_backups (now : datetime) (self : StateManager.t)
    (state : ExecutionState.t) :
  max_backups self = 0 →
  backup_dir (save_execution_state isoformat strftime now self state).1 =
  match state_file self with
  | None => backup_dir self
  | Some content =>
      Dict.set (backup_dir self)
        ("state_backup_" +:+ strftime now +:+ "_" +:+
         pretty (_checkpoint_number self) +:+ ".json") content
  end.
Proof.
  intros Hzero. unfold save_execution_state. simpl.
  unfold _backup_current_state. simpl.
  destruct (state_file self) as [content|]; [|done].
  by rewrite cleanup_zero_limit.
Qed.

End state_manager_more.

(** A manager that keeps two backups and holds two already. *)
Definition full_manager : StateManager.t :=
  StateManager.mk "/ws" 2 None None 7 0 (Some good_backup) None
    [ ("state_backup_5_5.json", StateManager.Corrupt);
      ("state_backup_6_6.json", good_backup) ].

Definition unlimited_manager : StateManager.t :=
  StateManager.mk "/ws" 0 None None 7 0 (Some good_backup) None
    [ ("state_backup_5_5.json", StateManager.Corrupt);
      ("state_backup_6_6.json", good_backup) ].

Definition three_backups : StateManager.t :=
  StateManager.mk "/ws" 2 None None 7 0 (Some good_backup) None
    [ ("state_backup_7_7.json", good_backup);
      ("state_backup_5_5.json", StateManager.Corrupt);
      ("state_backup_6_6.json", good_backup) ].

Lemma recover_from_crash_no_active_phase_witness :
  ∃ recovered,
    (StateManager.recover_from_crash fromisoformat_epoch 40 saved_manager).2
      = Some recovered ∧
    ExecutionState.get_active_phases recovered = [] ∧
    (∀ p, p ∈ ExecutionState.get_failed_phases recovered ↔
          p ∈ ExecutionState.get_failed_phases (rekey demo_state) ∨
          p ∈ ExecutionState.get_active_phases (rekey demo_state)).
Proof.
  destruct (recover_from_crash_no_active_phase fromisoformat_epoch 40
              saved_manager _ _ saved_manager_loads) as [r (H1 & H2 & H3 & _)].
  exists r. split; [exact H1|]. split; [exact H2|exact H3].
Defined.

Lemma three_backups_distinct :
  NoDup (Dict.keys (StateManager.backup_dir three_backups)).
Proof. by apply (bool_decide_unpack _); vm_compute. Qed.

Lemma cleanup_old_backups_keeps_newest_witness :
  Dict.keys (StateManager.backup_dir (StateManager._cleanup_old_backups three_backups))
    ≡ₚ ["state_backup_6_6.json"; "state_backup_7_7.json"] ∧
  Z.of_nat (length (StateManager.backup_dir
                      (StateManager._cleanup_old_backups three_backups))) = 2.
Proof.
  destruct (cleanup_old_backups_keeps_newest three_backups three_backups_distinct
              ltac:(simpl; lia)) as (H1 & H2 & _).
  split; [exact H1|exact H2].
Defined.

Lemma full_manager_distinct :
  NoDup (Dict.keys (StateManager.backup_dir full_manager)).
Proof. by apply (bool_decide_unpack _); vm_compute. Qed.

Lemma save_keeps_backups_bounded_witness :
  Z.of_nat (length (StateManager.backup_dir
    (StateManager.save_execution_state isoformat_epoch strftime_epoch 30
       full_manager demo_state).1)) ≤ 2.
Proof.
  exact (proj1 (proj2 (save_keeps_backups_bounded isoformat_epoch strftime_epoch 30
                         full_manager demo_state full_manager_distinct
                         ltac:(simpl; lia) ltac:(simpl; lia)))).
Defined.

Lemma recover_from_backup_persists_witness :
  (StateManager.load_execution_state fromisoformat_epoch crashed_with_backup).2 = None ∧
  ∃ state,
    (StateManager.recover_from_crash fromisoformat_epoch 40 crashed_with_backup).2
      = Some state ∧
    (StateManager.load_execution_state fromisoformat_epoch
       (StateManager.recover_from_crash fromisoformat_epoch 40 crashed_with_backup).1).2
      = Some state.
Proof.
  split; [reflexivity|].
  pose proof crashed_with_backup_recovers as Hr.
  exists (rekey demo_state). split; [exact Hr|].
  refine (proj1 (recover_from_backup_persists fromisoformat_epoch 40
                   crashed_with_backup _ (rekey demo_state) eq_refl _)).
  destruct (StateManager.recover_from_crash fromisoformat_epoch 40 crashed_with_backup)
    as [s o]. simpl in Hr. by rewrite Hr.
Defined.

Lemma save_with_zero_limit_keeps_backups_witness :
  Dict.keys (StateManager.backup_dir
    (StateManager.save_execution_state isoformat_epoch strftime_epoch 30
       unlimited_manager demo_state).1)
  = ["state_backup_5_5.json"; "state_backup_6_6.json"; "state_backup_30_7.json"].
Proof.
  rewrite (save_with_zero_limit_keeps_backups isoformat_epoch strftime_epoch 30
             unlimited_manager demo_state eq_refl).
  reflexivity.
Defined.
